(** * Tideland Common Go Library - Numerics: a shallow embedding

    The Go package [numerics] (numerics.go) is embedded function by function.
    Every [float64] operation of the source is an operation of the class
    [Float64Ops]; its instance [binary64] is IEEE-754 double precision with
    each operation rounded to nearest-even on its own (what the Go program
    computes with on amd64; the language allows an implementation to fuse
    x*y + z, which can change a last digit), its instance [exactQ] is exact
    rational arithmetic (the idealisation a numerical specification speaks
    about).

    Go run-time panics are explicit ([Panic]); a loop whose termination
    depends on floating-point data carries fuel ([OutOfFuel] means that the
    loop is still running when the fuel is used up). Pointers to [Points] are
    taken to be non-nil and are modelled by the set they lead to; the arrays
    behind coefficient slices, which the spline constructor shares between
    polynomials, live in an explicit store. *)

From Stdlib Require Import String ZArith List Bool Lia Uint63 Floats QArith Qcanon Qcabs.
From Stdlib Require Import Permutation.
Import ListNotations.

Close Scope Qc_scope.
Close Scope Q_scope.

Set Implicit Arguments.

(** ** Outcomes of a call *)

Inductive panic : Type :=
| IndexOutOfRange                 (* runtime error: index out of range *)
| NilDereference                  (* runtime error: nil pointer dereference *)
| Explicit (msg : string).        (* panic(msg) *)

Inductive outcome (A : Type) : Type :=
| Ok (a : A)
| Panic (p : panic)
| OutOfFuel.

Arguments Ok {A} a.
Arguments Panic {A} p.
Arguments OutOfFuel {A}.

Definition bind {A B : Type} (m : outcome A) (k : A -> outcome B) : outcome B :=
  match m with
  | Ok a => k a
  | Panic p => Panic p
  | OutOfFuel => OutOfFuel
  end.

Declare Scope go_scope.
Delimit Scope go_scope with go.
Notation "x <- m ;; k" := (bind m (fun x => k))
  (at level 61, m at next level, right associativity) : go_scope.
Notation "' pat <- m ;; k" := (bind m (fun x => match x with pat => k end))
  (at level 61, pat pattern, m at next level, right associativity) : go_scope.
Open Scope go_scope.

(** ** Indexing, with Go's bounds checks *)

(** [l[i]] as an rvalue. *)
Definition index {A : Type} (l : list A) (i : Z) : outcome A :=
  if (i <? 0)%Z then Panic IndexOutOfRange
  else match nth_error l (Z.to_nat i) with
       | Some a => Ok a
       | None => Panic IndexOutOfRange
       end.

Fixpoint set_nth {A : Type} (l : list A) (n : nat) (v : A) : list A :=
  match l, n with
  | [], _ => []
  | _ :: t, O => v :: t
  | a :: t, S n' => a :: set_nth t n' v
  end.

(** [l[i] = v]. *)
Definition assign {A : Type} (l : list A) (i : Z) (v : A) : outcome (list A) :=
  if ((0 <=? i)%Z && (i <? Z.of_nat (length l))%Z)%bool
  then Ok (set_nth l (Z.to_nat i) v)
  else Panic IndexOutOfRange.

(** ** Counted loops

    [for_up lo hi body] is [for i := lo; i < hi; i++ { body }] and
    [for_down hi lo body] is [for i := hi; i >= lo; i-- { body }]; the body
    never writes [i] or the bound, so the trip count is known on entry. *)

Fixpoint for_up_n {S : Type} (k : nat) (i : Z) (body : Z -> S -> outcome S) (s : S)
  : outcome S :=
  match k with
  | O => Ok s
  | Datatypes.S k' => s' <- body i s ;; for_up_n k' (i + 1)%Z body s'
  end.

Definition for_up {S : Type} (lo hi : Z) (body : Z -> S -> outcome S) (s : S)
  : outcome S :=
  for_up_n (Z.to_nat (hi - lo)) lo body s.

Fixpoint for_down_n {S : Type} (k : nat) (i : Z) (body : Z -> S -> outcome S) (s : S)
  : outcome S :=
  match k with
  | O => Ok s
  | Datatypes.S k' => s' <- body i s ;; for_down_n k' (i - 1)%Z body s'
  end.

Definition for_down {S : Type} (hi lo : Z) (body : Z -> S -> outcome S) (s : S)
  : outcome S :=
  for_down_n (Z.to_nat (hi - lo + 1)) hi body s.

(** ** sort.Search of the Go standard library

    [Search(n, f)] bisects [0, n): [h := int(uint(i+j) >> 1)] is the floor of
    the mean of [i] and [j] (the detour through [uint] only avoids overflow).
    Each round shrinks [j - i], so [n] rounds of fuel are enough (lemma
    [sort_Search_loop_spec] never meets [OutOfFuel]). *)

Fixpoint sort_Search_loop (fuel : nat) (f : Z -> outcome bool) (i j : Z) : outcome Z :=
  if (i <? j)%Z then
    match fuel with
    | O => OutOfFuel
    | S fuel' =>
        let h := ((i + j) / 2)%Z in
        b <- f h ;;
        if negb b then sort_Search_loop fuel' f (h + 1)%Z j
        else sort_Search_loop fuel' f i h
    end
  else Ok i.

Definition sort_Search (n : Z) (f : Z -> outcome bool) : outcome Z :=
  sort_Search_loop (Z.to_nat n) f 0%Z n.

(** ** The arithmetic of float64 *)

Class Float64Ops (F : Type) : Type := {
  fadd : F -> F -> F;
  fsub : F -> F -> F;
  fmul : F -> F -> F;
  fdiv : F -> F -> F;
  flt : F -> F -> bool;          (* x < y ; x > y is [flt y x] *)
  fle : F -> F -> bool;          (* x <= y *)
  fromInt : Z -> F               (* float64(n), and the literals 0, 2.0, 3.0 *)
}.

Declare Scope f64_scope.
Delimit Scope f64_scope with f64.
Infix "+" := fadd : f64_scope.
Infix "-" := fsub : f64_scope.
Infix "*" := fmul : f64_scope.
Infix "/" := fdiv : f64_scope.
Infix "<?" := flt : f64_scope.
Infix "<=?" := fle : f64_scope.

Section Numerics.

Context {F : Type} {ops : Float64Ops F}.

Local Open Scope f64_scope.

(** *** Point *)

Record Point : Type := NewPoint { X : F; Y : F }.

(** *** Points

    [Points] wraps a slice of pointers to [Point]s; a [Point] is never
    written after [NewPoint], so the slice is a list of point values. *)

Definition Points : Type := list Point.

Definition NewPoints (size : Z) : Points := [].

Definition Points_AppendPoint (ps : Points) (x y : F) : Points :=
  ps ++ [NewPoint x y].

Definition Points_AppendPoints (ps aps : Points) : Points := ps ++ aps.

Definition Points_Len (ps : Points) : Z := Z.of_nat (length ps).

Definition Points_At (ps : Points) (idx : Z) : outcome Point := index ps idx.

Definition Points_XAt (ps : Points) (idx : Z) : outcome F :=
  p <- index ps idx ;; Ok (X p).

Definition Points_YAt (ps : Points) (idx : Z) : outcome F :=
  p <- index ps idx ;; Ok (Y p).

Definition Points_XDifference (ps : Points) (idxA idxB : Z) : outcome F :=
  a <- index ps idxA ;; b <- index ps idxB ;; Ok (X a - X b).

Definition Points_YDifference (ps : Points) (idxA idxB : Z) : outcome F :=
  a <- index ps idxA ;; b <- index ps idxB ;; Ok (Y a - Y b).

(** One round of the scan in [XInRange]: two independent [if]s. *)
Definition xrange_step (mm : F * F) (p : Point) : F * F :=
  let minX := if X p <? fst mm then X p else fst mm in
  let maxX := if snd mm <? X p then X p else snd mm in
  (minX, maxX).

Definition Points_XInRange (ps : Points) (x : F) : outcome bool :=
  p0 <- index ps 0 ;;
  let mm := fold_left xrange_step (tl ps) (X p0, X p0) in
  Ok ((fst mm <=? x) && (x <=? snd mm))%bool.

Definition Points_SearchNextIndex (ps : Points) (x : F) : outcome Z :=
  sort_Search (Points_Len ps) (fun i => p <- index ps i ;; Ok (x <? X p)).

(** The predicate [SearchNextIndex] hands to [sort.Search], as a total map. *)
Definition nextPred (ps : Points) (x : F) (k : Z) : bool :=
  match nth_error ps (Z.to_nat k) with
  | Some p => x <? X p
  | None => false
  end.

(** [Map]: [f] returns a pointer, [None] is [nil]. *)
Definition Points_Map (ps : Points) (f : Point -> option Point) : Points :=
  fold_left
    (fun points point =>
       match f point with
       | Some _np => points ++ [point]
       | None => points
       end)
    ps [].

(** Ascending abscissae: each point's x is at most the next one's. *)
Fixpoint ascendingX (ps : Points) : bool :=
  match ps with
  | [] => true
  | p :: rest =>
      match rest with
      | [] => true
      | q :: _ => (X p <=? X q) && ascendingX rest
      end
  end.

(** *** The store of coefficient arrays

    A [[]float64] is a slice header (address and length; the capacity plays
    no role here) over a backing array. [NewPolynomialFunction] keeps the
    header it is given, so two polynomials built from one slice share the
    array: the arrays live in a store, addressed by position. *)

Definition loc : Type := nat.

Record slice : Type := { ptr : loc; len : Z }.

Definition heap : Type := list (list F).

Definition zero : F := fromInt 0.

(** [make([]float64, n)] as a local value, and on the store. *)
Definition make (n : Z) : list F := repeat zero (Z.to_nat n).

Definition alloc (h : heap) (n : Z) : slice * heap :=
  ({| ptr := length h; len := n |}, h ++ [make n]).

Definition slice_get (h : heap) (s : slice) (i : Z) : outcome F :=
  if ((0 <=? i)%Z && (i <? len s)%Z)%bool
  then index (nth (ptr s) h []) i
  else Panic IndexOutOfRange.

Definition slice_set (h : heap) (s : slice) (i : Z) (v : F) : outcome heap :=
  if ((0 <=? i)%Z && (i <? len s)%Z)%bool
  then a <- assign (nth (ptr s) h []) i v ;; Ok (set_nth h (ptr s) a)
  else Panic IndexOutOfRange.

(** *** PolynomialFunction *)

Record PolynomialFunction : Type := { coefficients : slice }.

(** The result is a pointer; [None] is [nil]. *)
Definition NewPolynomialFunction (coeffs : slice) : option PolynomialFunction :=
  if (len coeffs <? 1)%Z then None
  else Some {| coefficients := coeffs |}.

Definition PolynomialFunction_Eval (h : heap) (pf : PolynomialFunction) (x : F)
  : outcome F :=
  let n := len (coefficients pf) in
  result <- slice_get h (coefficients pf) (n - 1) ;;
  for_down (n - 2) 0
    (fun i result => c <- slice_get h (coefficients pf) i ;; Ok (x * result + c))
    result.

(** Horner's scheme on a coefficient list, lowest degree first, with the
    operations in the order [Eval] applies them. *)
Fixpoint horner (cs : list F) (x : F) : F :=
  match cs with
  | [] => zero
  | c :: cs' =>
      match cs' with
      | [] => c
      | _ :: _ => x * horner cs' x + c
      end
  end.

(** *** CubicSplineFunction

    [points] is a pointer to the caller's [Points] in the source; the model
    holds the set the pointer leads to. *)

Record CubicSplineFunction : Type := {
  polynomials : list (option PolynomialFunction);
  points : Points
}.

(** Lines 440-470 of [NewCubicSplineFunction]: the arrays [b], [c], [d].
    These slices never leave the constructor and are held by value. *)
Definition splineCoefficients (pts : Points) : outcome (list F * list F * list F) :=
  let intervals := (Points_Len pts - 1)%Z in
  differences <-
    for_up 0 intervals
      (fun i differences =>
         v <- Points_XDifference pts (i + 1) i ;; assign differences i v)
      (make intervals) ;;
  '(mu, z) <-
    for_up 1 intervals
      (fun i '(mu, z) =>
         xd <- Points_XDifference pts (i + 1) (i - 1) ;;
         dp <- index differences (i - 1) ;;
         mup <- index mu (i - 1) ;;
         let g := fromInt 2 * xd - dp * mup in
         di <- index differences i ;;
         mu <- assign mu i (di / g) ;;
         yn <- Points_YAt pts (i + 1) ;;
         yi <- Points_YAt pts i ;;
         yp <- Points_YAt pts (i - 1) ;;
         zp <- index z (i - 1) ;;
         z <- assign z i
                ((fromInt 3 * (yn * dp - yi * xd + yp * di) / (dp * di) - dp * zp) / g) ;;
         Ok (mu, z))
      (make intervals, make (Points_Len pts)) ;;
  for_down (intervals - 1) 0
    (fun i '(b, c, d) =>
       zi <- index z i ;;
       mui <- index mu i ;;
       cn <- index c (i + 1) ;;
       c <- assign c i (zi - mui * cn) ;;
       yd <- Points_YDifference pts (i + 1) i ;;
       di <- index differences i ;;
       cn <- index c (i + 1) ;;
       ci <- index c i ;;
       b <- assign b i (yd / di - di * (cn + fromInt 2 * ci) / fromInt 3) ;;
       d <- assign d i ((cn - ci) / (fromInt 3 * di)) ;;
       Ok (b, c, d))
    (make intervals, make (Points_Len pts), make intervals).

(** The coefficient list [y[i], b[i], c[i], d[i]] of interval [i], as the
    documentation of the constructor describes the local polynomial. *)
Definition localCoefficients (pts : Points) (b c d : list F) (i : Z)
  : outcome (list F) :=
  yi <- Points_YAt pts i ;;
  bi <- index b i ;;
  ci <- index c i ;;
  di <- index d i ;;
  Ok [yi; bi; ci; di].

(** Lines 472-483: one [coefficients] slice is made before the loop; every
    round overwrites its four cells and hands the same header to
    [NewPolynomialFunction]. *)
Definition buildPolynomials (h : heap) (pts : Points) (b c d : list F)
  : outcome (list (option PolynomialFunction) * heap) :=
  let intervals := (Points_Len pts - 1)%Z in
  let '(coeffs, h) := alloc h 4 in
  for_up 0 intervals
    (fun i '(polys, h) =>
       yi <- Points_YAt pts i ;;
       h <- slice_set h coeffs 0 yi ;;
       bi <- index b i ;;
       h <- slice_set h coeffs 1 bi ;;
       ci <- index c i ;;
       h <- slice_set h coeffs 2 ci ;;
       di <- index d i ;;
       h <- slice_set h coeffs 3 di ;;
       polys <- assign polys i (NewPolynomialFunction coeffs) ;;
       Ok (polys, h))
    (repeat None (Z.to_nat intervals), h).

Definition NewCubicSplineFunction (h : heap) (pts : Points)
  : outcome (option CubicSplineFunction * heap) :=
  if (Points_Len pts <? 3)%Z then Ok (None, h)
  else
    '(b, c, d) <- splineCoefficients pts ;;
    '(polys, h) <- buildPolynomials h pts b c d ;;
    Ok (Some {| polynomials := polys; points := pts |}, h).

Definition CubicSplineFunction_Eval (h : heap) (csf : CubicSplineFunction) (x : F)
  : outcome F :=
  inRange <- Points_XInRange (points csf) x ;;
  if negb inRange then Panic (Explicit "X out of range!")
  else
    idx <- Points_SearchNextIndex (points csf) x ;;
    let n := Z.of_nat (length (polynomials csf)) in
    let idx := if (n <=? idx)%Z then (n - 1)%Z else idx in
    p <- index (polynomials csf) idx ;;
    xi <- Points_XAt (points csf) idx ;;
    match p with
    | None => Panic NilDereference
    | Some pf => PolynomialFunction_Eval h pf (x - xi)
    end.

(** The coefficients interval [i]'s polynomial reads from the store. *)
Definition storedCoefficients (h : heap) (csf : CubicSplineFunction) (i : Z)
  : outcome (list F) :=
  p <- index (polynomials csf) i ;;
  match p with
  | None => Panic NilDereference
  | Some pf => Ok (nth (ptr (coefficients pf)) h [])
  end.

(** *** evalPoints

    [for x := fromX; x < toX; x += interval]: whether the loop ends depends
    on the data, hence the fuel. The capacity [int(interval)] of the result
    is not modelled. *)




End Numerics.

Arguments Point F : clear implicits.
Arguments Points F : clear implicits.
Arguments heap F : clear implicits.
Arguments CubicSplineFunction F : clear implicits.
Arguments ascendingX {F ops} ps.
Arguments nextPred {F ops} ps x k.
Arguments PolynomialFunction_Eval {F ops} h pf x.
Arguments CubicSplineFunction_Eval {F ops} h csf x.
Arguments storedCoefficients {F} h csf i.

(** ** The Function interface

    [Eval] is the one method an implementation writes itself; [EvalPoint] and
    [EvalPoints] are the same wrappers in all three implementations. *)

Class Function (F : Type) (T : Type) : Type := {
  Function_Eval : heap F -> T -> F -> outcome F
}.

Definition Function_EvalPoint {F T : Type} {fn : Function F T}
  (h : heap F) (f : T) (x : F) : outcome (Point F) :=
  y <- Function_Eval h f x ;; Ok (NewPoint x y).


#[export] Instance PolynomialFunction_Function {F : Type} {ops : Float64Ops F}
  : Function F PolynomialFunction :=
  {| Function_Eval := PolynomialFunction_Eval |}.

#[export] Instance CubicSplineFunction_Function {F : Type} {ops : Float64Ops F}
  : Function F (CubicSplineFunction F) :=
  {| Function_Eval := CubicSplineFunction_Eval |}.

(** ** IEEE-754 binary64: the arithmetic of the Go program *)

(** [float64(n)] for an [int] n (63 bits of magnitude). *)
Definition float_of_int (n : Z) : float :=
  if (n <? 0)%Z then PrimFloat.opp (PrimFloat.of_uint63 (Uint63.of_Z (- n)))
  else PrimFloat.of_uint63 (Uint63.of_Z n).

#[export] Instance binary64 : Float64Ops float := {|
  fadd := PrimFloat.add;
  fsub := PrimFloat.sub;
  fmul := PrimFloat.mul;
  fdiv := PrimFloat.div;
  flt := PrimFloat.ltb;
  fle := PrimFloat.leb;
  fromInt := float_of_int
|}.

(** [math.IsNaN]: [f != f]. *)
Definition IsNaN (f : float) : bool := negb (PrimFloat.eqb f f).

(** ** Exact rational arithmetic (division by zero yields zero) *)

Definition Qc_ltb (a b : Qc) : bool :=
  match (a ?= b)%Qc with Lt => true | _ => false end.

Definition Qc_leb (a b : Qc) : bool :=
  match (a ?= b)%Qc with Gt => false | _ => true end.

#[export] Instance exactQ : Float64Ops Qc := {|
  fadd := Qcplus;
  fsub := Qcminus;
  fmul := Qcmult;
  fdiv := Qcdiv;
  flt := Qc_ltb;
  fle := Qc_leb;
  fromInt := fun n => Q2Qc (inject_Z n)
|}.

(** The power sum: c0 x^0 + c1 x^1 + c2 x^2 + ..., term by term. *)
Fixpoint fpow {F : Type} {ops : Float64Ops F} (x : F) (i : nat) : F :=
  match i with
  | O => fromInt 1
  | S i' => (x * fpow x i')%f64
  end.

Fixpoint powerSumFrom {F : Type} {ops : Float64Ops F} (i : nat) (cs : list F) (x : F)
  : F :=
  match cs with
  | [] => zero
  | c :: cs' => (c * fpow x i + powerSumFrom (S i) cs' x)%f64
  end.

Definition powerSum {F : Type} {ops : Float64Ops F} (cs : list F) (x : F) : F :=
  powerSumFrom 0 cs x.

(** The rational number a finite binary64 value stands for. *)
Definition float_to_Qc (f : float) : option Qc :=
  match Prim2SF f with
  | S754_zero _ => Some (Q2Qc 0)
  | S754_finite s m e =>
      Some (Q2Qc (inject_Z (if s then Z.neg m else Z.pos m) * Qpower 2 e))
  | S754_infinity _ | S754_nan => None
  end.

(** [a] is within relative tolerance [tol] of [b]. *)
Definition withinRelative (tol a b : Qc) : bool :=
  Qc_leb (Qcabs (a - b)) (tol * Qcabs b).

(** ** LeastSquaresFunction (float64 only: it returns NaN) *)

Record LeastSquaresFunction : Type := {
  sumX : float; sumXX : float;
  sumY : float; sumYY : float;
  sumXY : float;
  xBar : float; yBar : float;
  count : Z
}.

(** [new(LeastSquaresFunction)]: every field zero. *)
Definition LeastSquaresFunction_zero : LeastSquaresFunction :=
  {| sumX := 0; sumXX := 0; sumY := 0; sumYY := 0; sumXY := 0;
     xBar := 0; yBar := 0; count := 0 |}.

Definition LeastSquaresFunction_AppendPoint (lsf : LeastSquaresFunction) (x y : float)
  : LeastSquaresFunction :=
  let lsf :=
    if (count lsf =? 0)%Z then
      {| sumX := sumX lsf; sumXX := sumXX lsf; sumY := sumY lsf; sumYY := sumYY lsf;
         sumXY := sumXY lsf; xBar := x; yBar := y; count := count lsf |}
    else
      let dx := (x - xBar lsf)%float in
      let dy := (y - yBar lsf)%float in
      let k := float_of_int (count lsf) in
      let k1 := float_of_int (count lsf + 1) in
      {| sumX := sumX lsf;
         sumXX := (sumXX lsf + dx * dx * k / k1)%float;
         sumY := sumY lsf;
         sumYY := (sumYY lsf + dy * dy * k / k1)%float;
         sumXY := (sumXY lsf + dx * dy * k / k1)%float;
         xBar := (xBar lsf + dx / k1)%float;
         yBar := (yBar lsf + dy / k1)%float;
         count := count lsf |} in
  {| sumX := (sumX lsf + x)%float; sumXX := sumXX lsf;
     sumY := (sumY lsf + y)%float; sumYY := sumYY lsf;
     sumXY := sumXY lsf; xBar := xBar lsf; yBar := yBar lsf;
     count := (count lsf + 1)%Z |}.

Definition LeastSquaresFunction_AppendPoints (lsf : LeastSquaresFunction)
  (pts : Points float) : LeastSquaresFunction :=
  fold_left (fun lsf point => LeastSquaresFunction_AppendPoint lsf (X point) (Y point))
    pts lsf.

(** [points] is a pointer; [None] is [nil]. *)
Definition NewLeastSquaresFunction (pts : option (Points float)) : LeastSquaresFunction :=
  match pts with
  | Some pts => LeastSquaresFunction_AppendPoints LeastSquaresFunction_zero pts
  | None => LeastSquaresFunction_zero
  end.

Definition SmallestNonzeroFloat64 : float := 0x1p-1074%float.

Definition slope (lsf : LeastSquaresFunction) : float :=
  if (count lsf <? 2)%Z then nan
  else if (PrimFloat.abs (sumXX lsf) <? 10 * SmallestNonzeroFloat64)%float then nan
  else (sumXY lsf / sumXX lsf)%float.

Definition intercept (lsf : LeastSquaresFunction) (slope : float) : float :=
  ((sumY lsf - slope * sumX lsf) / float_of_int (count lsf))%float.

Definition LeastSquaresFunction_Eval (lsf : LeastSquaresFunction) (x : float) : float :=
  let slope := slope lsf in
  (intercept lsf slope + slope * x)%float.

#[export] Instance LeastSquaresFunction_Function : Function float LeastSquaresFunction :=
  {| Function_Eval := fun _ lsf x => Ok (LeastSquaresFunction_Eval lsf x) |}.

(** ** Test data *)

Definition pt {F : Type} {ops : Float64Ops F} (x y : Z) : Point F :=
  NewPoint (fromInt x) (fromInt y).

(** The knots (0,0), (1,1), (2,0), (3,1). *)
Definition knots {F : Type} {ops : Float64Ops F} : Points F :=
  [pt 0 0; pt 1 1; pt 2 0; pt 3 1].

(** ** Vocabulary of the statements below *)


(** A zero of either sign, or NaN. *)
Definition zeroOrNaN (s : spec_float) : Prop :=
  match s with
  | S754_zero _ | S754_nan => True
  | _ => False
  end.

(** The state of an accumulator that has only seen the abscissa [x]. *)
Definition oneAbscissa (x : float) (lsf : LeastSquaresFunction) : Prop :=
  (count lsf = 0%Z \/ (0 < count lsf)%Z /\ zeroOrNaN (Prim2SF (x - xBar lsf)%float)) /\
  zeroOrNaN (Prim2SF (sumXX lsf)).

(** The polynomial 1 + 2x + 3x^2 on a store of its own. *)
Definition samplePolynomial : heap float * PolynomialFunction :=
  ([1; 2; 3]%float :: nil, {| coefficients := {| ptr := 0%nat; len := 3 |} |}).

(** ** The rest of the package *)

Section Geometry.

Context {F : Type} {ops : Float64Ops F}.

Local Open Scope f64_scope.

(** *** Vector *)

Record Vector : Type := NewVector { Vector_X : F; Vector_Y : F }.

Definition AddVectors (a b : Vector) : Vector :=
  NewVector (Vector_X a + Vector_X b) (Vector_Y a + Vector_Y b).

Definition SubVectors (a b : Vector) : Vector :=
  NewVector (Vector_X a - Vector_X b) (Vector_Y a - Vector_Y b).

Definition ScaleVector (v : Vector) (s : F) : Vector :=
  NewVector (Vector_X v * s) (Vector_Y v * s).

(** *** Point *)

Definition Point_VectorTo (p op : Point F) : Vector :=
  NewVector (X op - X p) (Y op - Y p).

Definition MiddlePoint (a b : Point F) : Point F :=
  NewPoint ((X a + X b) / fromInt 2) ((Y a + Y b) / fromInt 2).

Definition PointVector (a b : Point F) : Vector := Point_VectorTo a b.

(** *** Points *)

(** [Do]: [f] acts on the state of its closure, [S] here. *)
Definition Points_Do {S : Type} (ps : Points F) (f : S -> Point F -> S) (s : S) : S :=
  fold_left f ps s.

(** [Subset]. [NewPoints] panics first, on a negative size. The slice
    expression [ps.points[fromIdx:toIdx]] is then checked against the
    capacity [cap] of the slice, not against its length (a failed check is
    [IndexOutOfRange] here). The cells between the length and the capacity
    hold nil in a set built by [NewPoints] and the append methods, the only
    writers of this package; [p.x] dereferences them. *)
Definition Points_Subset (cap : Z) (ps : Points F) (fromIdx toIdx : Z)
  : outcome (Points F) :=
  if (toIdx - fromIdx <? 0)%Z then Panic (Explicit "makeslice: cap out of range")
  else if negb ((0 <=? fromIdx)%Z && (fromIdx <=? toIdx)%Z && (toIdx <=? cap)%Z)
  then Panic IndexOutOfRange
  else
    for_up fromIdx toIdx
      (fun k nps =>
         if (k <? Points_Len ps)%Z
         then p <- index ps k ;; Ok (Points_AppendPoint nps (X p) (Y p))
         else Panic NilDereference)
      (NewPoints (toIdx - fromIdx)).

(** [Less]: the two [switch] statements, case by case, on the points at
    [i] and [j]. *)
Definition lessPoint (p q : Point F) : bool :=
  if X p <? X q then true
  else if X q <? X p then false
  else if Y p <? Y q then true
  else if Y q <? Y p then false
  else false.

Definition Points_Less (ps : Points F) (i j : Z) : outcome bool :=
  pi <- index ps i ;;
  pj <- index ps j ;;
  Ok (lessPoint pi pj).

(** [Swap]: both right-hand sides are read before either cell is written. *)
Definition Points_Swap (ps : Points F) (i j : Z) : outcome (Points F) :=
  pj <- index ps j ;;
  pi <- index ps i ;;
  ps <- assign ps i pj ;;
  assign ps j pi.

(** *** PolynomialFunction.Differentiate

    The new coefficients are written to a slice of their own. With no
    coefficient at all [make([]float64, n-1)] panics. *)
Definition PolynomialFunction_Differentiate (h : heap F) (pf : PolynomialFunction)
  : outcome (option PolynomialFunction * heap F) :=
  let n := len (coefficients pf) in
  if (n =? 1)%Z then
    let '(zeroCoefficients, h) := alloc h 1 in
    Ok (NewPolynomialFunction zeroCoefficients, h)
  else if (n - 1 <? 0)%Z then Panic (Explicit "makeslice: len out of range")
  else
    let '(newCoefficients, h) := alloc h (n - 1) in
    h <- for_down (n - 1) 1
           (fun i h =>
              c <- slice_get h (coefficients pf) i ;;
              slice_set h newCoefficients (i - 1) (fromInt i * c))
           h ;;
    Ok (NewPolynomialFunction newCoefficients, h).

(** The coefficients i * c_i, i = [i], [i] + 1, ..., of the derivative. *)
Fixpoint derivativeFrom (i : Z) (cs : list F) : list F :=
  match cs with
  | [] => []
  | c :: cs' => (fromInt i * c) :: derivativeFrom (i + 1) cs'
  end.

(** The derivative of the power sum, term by term: the sum of
    i * c_i * x^(i-1). *)
Fixpoint derivativeSumFrom (i : nat) (cs : list F) (x : F) : F :=
  match cs with
  | [] => zero
  | c :: cs' =>
      fromInt (Z.of_nat i) * c * fpow x (Nat.pred i) + derivativeSumFrom (S i) cs' x
  end.

Definition derivativeSum (cs : list F) (x : F) : F := derivativeSumFrom 0 cs x.

(** *** The sums of LeastSquaresFunction, over any arithmetic

    [AppendPoint] once more, on the arithmetic of the class; on [binary64]
    it is [LeastSquaresFunction_AppendPoint] (lemma [LeastSquaresSums_binary64]). *)

Record LeastSquaresSums : Type := {
  s_sumX : F; s_sumXX : F;
  s_sumY : F; s_sumYY : F;
  s_sumXY : F;
  s_xBar : F; s_yBar : F;
  s_count : Z
}.

Definition LeastSquaresSums_zero : LeastSquaresSums :=
  {| s_sumX := zero; s_sumXX := zero; s_sumY := zero; s_sumYY := zero;
     s_sumXY := zero; s_xBar := zero; s_yBar := zero; s_count := 0 |}.

Definition LeastSquaresSums_AppendPoint (lsf : LeastSquaresSums) (x y : F)
  : LeastSquaresSums :=
  let lsf :=
    if (s_count lsf =? 0)%Z then
      {| s_sumX := s_sumX lsf; s_sumXX := s_sumXX lsf; s_sumY := s_sumY lsf;
         s_sumYY := s_sumYY lsf; s_sumXY := s_sumXY lsf;
         s_xBar := x; s_yBar := y; s_count := s_count lsf |}
    else
      let dx := x - s_xBar lsf in
      let dy := y - s_yBar lsf in
      let k := fromInt (s_count lsf) in
      let k1 := fromInt (s_count lsf + 1) in
      {| s_sumX := s_sumX lsf;
         s_sumXX := s_sumXX lsf + dx * dx * k / k1;
         s_sumY := s_sumY lsf;
         s_sumYY := s_sumYY lsf + dy * dy * k / k1;
         s_sumXY := s_sumXY lsf + dx * dy * k / k1;
         s_xBar := s_xBar lsf + dx / k1;
         s_yBar := s_yBar lsf + dy / k1;
         s_count := s_count lsf |} in
  {| s_sumX := s_sumX lsf + x; s_sumXX := s_sumXX lsf;
     s_sumY := s_sumY lsf + y; s_sumYY := s_sumYY lsf;
     s_sumXY := s_sumXY lsf; s_xBar := s_xBar lsf; s_yBar := s_yBar lsf;
     s_count := (s_count lsf + 1)%Z |}.

Definition LeastSquaresSums_AppendPoints (lsf : LeastSquaresSums) (pts : Points F)
  : LeastSquaresSums :=
  Points_Do pts (fun lsf point => LeastSquaresSums_AppendPoint lsf (X point) (Y point))
    lsf.

(** [intercept], on the sums. *)
Definition LeastSquaresSums_intercept (lsf : LeastSquaresSums) (slope : F) : F :=
  (s_sumY lsf - slope * s_sumX lsf) / fromInt (s_count lsf).

(** Plain sums over a point set: of x, of y, of x*x and of x*y. *)
Fixpoint sumOf (g : Point F -> F) (pts : Points F) : F :=
  match pts with
  | [] => zero
  | p :: pts' => g p + sumOf g pts'
  end.

End Geometry.

Arguments Vector F : clear implicits.
Arguments LeastSquaresSums F : clear implicits.

(** ** sort.IsSorted of the Go standard library

    [for i := n - 1; i > 0; i-- { if data.Less(i, i-1) { return false } }]. *)
Fixpoint sort_IsSorted_loop (k : nat) (less : Z -> Z -> outcome bool) : outcome bool :=
  match k with
  | O => Ok true
  | S k' =>
      b <- less (Z.of_nat k) (Z.of_nat k - 1)%Z ;;
      if b then Ok false else sort_IsSorted_loop k' less
  end.

Definition sort_IsSorted (n : Z) (less : Z -> Z -> outcome bool) : outcome bool :=
  sort_IsSorted_loop (Z.to_nat (n - 1)) less.

(** ** Point and Vector on binary64: square roots and classification *)

(** [math.IsInf(f, 0)]. *)
Definition IsInf (f : float) : bool :=
  (PrimFloat.eqb f infinity || PrimFloat.eqb f neg_infinity)%bool.

Definition Point_IsInf (p : Point float) : bool := (IsInf (X p) || IsInf (Y p))%bool.

Definition Point_IsNaN (p : Point float) : bool := (IsNaN (X p) || IsNaN (Y p))%bool.

Definition Point_DistanceTo (p op : Point float) : float :=
  let dx := (X p - X op)%float in
  let dy := (Y p - Y op)%float in
  PrimFloat.sqrt (dx * dx + dy * dy)%float.

Definition Vector_Len (v : Vector float) : float :=
  PrimFloat.sqrt (Vector_X v * Vector_X v + Vector_Y v * Vector_Y v)%float.

(** The sums of a binary64 accumulator. *)
Definition LeastSquaresFunction_sums (lsf : LeastSquaresFunction)
  : LeastSquaresSums float :=
  {| s_sumX := sumX lsf; s_sumXX := sumXX lsf; s_sumY := sumY lsf;
     s_sumYY := sumYY lsf; s_sumXY := sumXY lsf; s_xBar := xBar lsf;
     s_yBar := yBar lsf; s_count := count lsf |}.


(** ** Vocabulary of the further properties *)

(** Row [j] of the result of [splineCoefficients]: the equations of the back
    substitution for interval [j], with the intermediate [z] and [mu]. *)
Definition splineRow {F : Type} {ops : Float64Ops F}
  (pts : Points F) (z mu b c d : list F) (j : nat) : Prop :=
  exists pj pn cj cn zj muj,
    nth_error pts j = Some pj /\ nth_error pts (S j) = Some pn /\
    nth_error c j = Some cj /\ nth_error c (S j) = Some cn /\
    nth_error z j = Some zj /\ nth_error mu j = Some muj /\
    cj = (zj - muj * cn)%f64 /\
    nth_error b j
    = Some ((Y pn - Y pj) / (X pn - X pj)
            - (X pn - X pj) * (cn + fromInt 2 * cj) / fromInt 3)%f64 /\
    nth_error d j = Some ((cn - cj) / (fromInt 3 * (X pn - X pj)))%f64.

(** Not negative: NaN, or a value with the sign bit clear. *)
Definition nonNegative (x : spec_float) : Prop :=
  match x with
  | S754_nan => True
  | S754_zero s | S754_infinity s | S754_finite s _ _ => s = false
  end.

(** * Properties *)

Unset Implicit Arguments.

(** ** The outcome monad, indexing and counted loops *)

Lemma bind_Ok {A B : Type} (m : outcome A) (k : A -> outcome B) (b : B) :
  bind m k = Ok b -> exists a, m = Ok a /\ k a = Ok b.
Proof.
  destruct m as [a| |]; simpl; intros E; try discriminate.
  exists a; auto.
Qed.

Lemma index_ok {A : Type} (l : list A) (i : Z) :
  (0 <= i < Z.of_nat (length l))%Z ->
  exists a, index l i = Ok a /\ nth_error l (Z.to_nat i) = Some a.
Proof.
  intros Hi. unfold index.
  destruct (Z.ltb_spec i 0) as [Hn|_]; [lia|].
  destruct (nth_error l (Z.to_nat i)) as [a|] eqn:E.
  - exists a; auto.
  - apply nth_error_None in E. lia.
Qed.

Lemma index_Ok_inv {A : Type} (l : list A) (i : Z) (a : A) :
  index l i = Ok a ->
  (0 <= i < Z.of_nat (length l))%Z /\ nth_error l (Z.to_nat i) = Some a.
Proof.
  unfold index. destruct (Z.ltb_spec i 0) as [Hn|Hp]; [discriminate|].
  destruct (nth_error l (Z.to_nat i)) as [a'|] eqn:E; [|discriminate].
  intros [= ->]. split; [|reflexivity].
  assert (Z.to_nat i < length l)%nat by (apply nth_error_Some; congruence). lia.
Qed.

Lemma length_set_nth {A : Type} (l : list A) (n : nat) (v : A) :
  length (set_nth l n v) = length l.
Proof.
  revert n; induction l as [|a l IH]; intros [|n]; simpl; auto.
Qed.

Lemma nth_error_set_nth_eq {A : Type} (l : list A) (n : nat) (v : A) :
  (n < length l)%nat -> nth_error (set_nth l n v) n = Some v.
Proof.
  revert n; induction l as [|a l IH]; intros [|n]; simpl; intros Hn;
    try lia; auto. apply IH; lia.
Qed.

Lemma nth_error_set_nth_neq {A : Type} (l : list A) (n m : nat) (v : A) :
  n <> m -> nth_error (set_nth l n v) m = nth_error l m.
Proof.
  revert n m; induction l as [|a l IH]; intros [|n] [|m]; simpl; intros Hn;
    try congruence; auto.
Qed.

Lemma assign_ok {A : Type} (l : list A) (i : Z) (v : A) :
  (0 <= i < Z.of_nat (length l))%Z ->
  assign l i v = Ok (set_nth l (Z.to_nat i) v).
Proof.
  intros Hi. unfold assign.
  destruct (Z.leb_spec 0 i); [|lia].
  destruct (Z.ltb_spec i (Z.of_nat (length l))); [reflexivity|lia].
Qed.

Lemma set_nth_app_last {A : Type} (h : list A) (a b : A) :
  set_nth (h ++ [a]) (length h) b = h ++ [b].
Proof. induction h as [|x h IH]; simpl; congruence. Qed.

Lemma nth_app_last {A : Type} (h : list A) (a d : A) :
  nth (length h) (h ++ [a]) d = a.
Proof. induction h as [|x h IH]; simpl; auto. Qed.

(** A counted loop whose body keeps an invariant and does not panic under it
    runs to its end. *)
Lemma for_up_n_inv {St : Type} (I : Z -> St -> Prop) (body : Z -> St -> outcome St) :
  forall (k : nat) (lo : Z) (s : St),
    I lo s ->
    (forall i s, (lo <= i < lo + Z.of_nat k)%Z -> I i s ->
                 exists s', body i s = Ok s' /\ I (i + 1)%Z s') ->
    exists s', for_up_n k lo body s = Ok s' /\ I (lo + Z.of_nat k)%Z s'.
Proof.
  induction k as [|k IH]; intros lo s H0 Hstep.
  - exists s. split; [reflexivity|]. now replace (lo + Z.of_nat 0)%Z with lo by lia.
  - destruct (Hstep lo s) as (s1 & E1 & I1); [lia|assumption|].
    destruct (IH (lo + 1)%Z s1 I1) as (s2 & E2 & I2).
    + intros i s' Hi. apply Hstep. lia.
    + exists s2. split.
      * cbn [for_up_n]. rewrite E1. exact E2.
      * now replace (lo + Z.of_nat (S k))%Z with (lo + 1 + Z.of_nat k)%Z by lia.
Qed.

Lemma for_up_inv {St : Type} (I : Z -> St -> Prop) (body : Z -> St -> outcome St)
  (lo hi : Z) (s : St) :
  (lo <= hi)%Z ->
  I lo s ->
  (forall i s, (lo <= i < hi)%Z -> I i s ->
               exists s', body i s = Ok s' /\ I (i + 1)%Z s') ->
  exists s', for_up lo hi body s = Ok s' /\ I hi s'.
Proof.
  intros Hle H0 Hstep. unfold for_up.
  destruct (for_up_n_inv I body (Z.to_nat (hi - lo)) lo s H0) as (s' & E & HI).
  - intros i s0 Hi. apply Hstep. lia.
  - exists s'. split; [exact E|].
    now replace hi with (lo + Z.of_nat (Z.to_nat (hi - lo)))%Z at 1 by lia.
Qed.

Lemma for_down_n_inv {St : Type} (I : Z -> St -> Prop) (body : Z -> St -> outcome St) :
  forall (k : nat) (hi : Z) (s : St),
    I hi s ->
    (forall i s, (hi - Z.of_nat k < i <= hi)%Z -> I i s ->
                 exists s', body i s = Ok s' /\ I (i - 1)%Z s') ->
    exists s', for_down_n k hi body s = Ok s' /\ I (hi - Z.of_nat k)%Z s'.
Proof.
  induction k as [|k IH]; intros hi s H0 Hstep.
  - exists s. split; [reflexivity|]. now replace (hi - Z.of_nat 0)%Z with hi by lia.
  - destruct (Hstep hi s) as (s1 & E1 & I1); [lia|assumption|].
    destruct (IH (hi - 1)%Z s1 I1) as (s2 & E2 & I2).
    + intros i s' Hi. apply Hstep. lia.
    + exists s2. split.
      * cbn [for_down_n]. rewrite E1. exact E2.
      * now replace (hi - Z.of_nat (S k))%Z with (hi - 1 - Z.of_nat k)%Z by lia.
Qed.

Lemma for_down_inv {St : Type} (I : Z -> St -> Prop) (body : Z -> St -> outcome St)
  (hi lo : Z) (s : St) :
  (lo - 1 <= hi)%Z ->
  I hi s ->
  (forall i s, (lo <= i <= hi)%Z -> I i s ->
               exists s', body i s = Ok s' /\ I (i - 1)%Z s') ->
  exists s', for_down hi lo body s = Ok s' /\ I (lo - 1)%Z s'.
Proof.
  intros Hle H0 Hstep. unfold for_down.
  destruct (for_down_n_inv I body (Z.to_nat (hi - lo + 1)) hi s H0) as (s' & E & HI).
  - intros i s0 Hi. apply Hstep. lia.
  - exists s'. split; [exact E|].
    now replace (lo - 1)%Z with (hi - Z.of_nat (Z.to_nat (hi - lo + 1)))%Z by lia.
Qed.

(** ** Construction of a cubic spline *)

Section Construction.

Context {F : Type} {ops : Float64Ops F}.

Lemma length_make (n : Z) : length (make (F:=F) n) = Z.to_nat n.
Proof. unfold make. apply repeat_length. Qed.

Ltac lens :=
  rewrite ?length_set_nth, ?length_make, ?repeat_length in *;
  unfold Points_Len in *; lia.

Ltac step_index :=
  match goal with
  | |- context [index ?l ?i] =>
      let a := fresh "a" in
      let E := fresh "E" in
      let N := fresh "N" in
      destruct (index_ok l i) as (a & E & N); [lens|rewrite E; cbn [bind]]
  end.

Ltac step_assign :=
  match goal with
  | |- context [assign ?l ?i ?v] =>
      rewrite (assign_ok l i v) by lens; cbn [bind]
  end.

Ltac step :=
  unfold Points_XDifference, Points_YDifference, Points_XAt, Points_YAt;
  cbn [bind]; first [step_index | step_assign].

(** With three points or more [splineCoefficients] runs without a panic. *)
Lemma splineCoefficients_ok (pts : Points F) :
  (3 <= Points_Len pts)%Z ->
  exists b c d,
    splineCoefficients pts = Ok (b, c, d) /\
    length b = (length pts - 1)%nat /\
    length c = length pts /\
    length d = (length pts - 1)%nat.
Proof.
  intros Hn. unfold splineCoefficients.
  set (intervals := (Points_Len pts - 1)%Z).
  assert (Hiv : intervals = (Z.of_nat (length pts) - 1)%Z) by reflexivity.
  destruct (for_up_inv
              (fun _ (df : list F) => length df = Z.to_nat intervals)
              (fun i differences =>
                 v <- Points_XDifference pts (i + 1) i ;; assign differences i v)
              0%Z intervals (make intervals)) as (df & -> & Hdf).
  { lens. }
  { apply length_make. }
  { intros i s Hi Hs. repeat step. eexists; split; [reflexivity|lens]. }
  cbn [bind].
  match goal with
  | |- context [for_up 1 intervals ?body ?init] =>
      destruct (for_up_inv
                  (fun _ (s : list F * list F) =>
                     length (fst s) = Z.to_nat intervals /\
                     length (snd s) = length pts)
                  body 1%Z intervals init) as ([mu z] & -> & Hmu & Hz)
  end.
  { lens. }
  { cbn [fst snd]. split; lens. }
  { intros i [mu z] Hi [Hmu Hz]. cbn [fst snd] in *. repeat step.
    eexists; split; [reflexivity|]. cbn [fst snd]. split; lens. }
  cbn [bind fst snd] in *.
  match goal with
  | |- context [for_down (intervals - 1) 0 ?body ?init] =>
      destruct (for_down_inv
                  (fun _ (s : list F * list F * list F) =>
                     length (fst (fst s)) = Z.to_nat intervals /\
                     length (snd (fst s)) = length pts /\
                     length (snd s) = Z.to_nat intervals)
                  body (intervals - 1)%Z 0%Z init) as ([[b c] d] & E & Hb & Hc & Hd)
  end.
  { lens. }
  { cbn [fst snd]. repeat split; lens. }
  { intros i [[b c] d] Hi (Hb & Hc & Hd). cbn [fst snd] in *. repeat step.
    eexists; split; [reflexivity|]. cbn [fst snd]. repeat split; lens. }
  cbn [fst snd] in *. exists b, c, d. rewrite E. repeat split; lens.
Qed.


Lemma repeat_nth_error_all {A : Type} (v : A) (l : list A) :
  (forall j, (j < length l)%nat -> nth_error l j = Some v) ->
  l = repeat v (length l).
Proof.
  induction l as [|a l IH]; intros H; [reflexivity|].
  simpl. f_equal.
  - specialize (H 0%nat). simpl in H. assert (Some a = Some v) by (apply H; lia).
    congruence.
  - apply IH. intros j Hj. apply (H (S j)). simpl; lia.
Qed.

Lemma slice_set_last (h : heap F) (arr : list F) (k : Z) (v : F) :
  length arr = 4%nat -> (0 <= k < 4)%Z ->
  slice_set (h ++ [arr]) {| ptr := length h; len := 4 |} k v
  = Ok (h ++ [set_nth arr (Z.to_nat k) v]).
Proof.
  intros Ha Hk. unfold slice_set. cbn [ptr len].
  destruct (Z.leb_spec 0 k); [|lia]. destruct (Z.ltb_spec k 4); [|lia].
  cbn [andb]. rewrite nth_app_last. rewrite assign_ok by lia.
  cbn [bind]. now rewrite set_nth_app_last.
Qed.

(** The loop that builds the polynomials leaves one array on the store, holding
    the coefficients of the last interval, and every polynomial points to it. *)
Lemma buildPolynomials_shared (h : heap F) (pts : Points F) (b c d : list F) :
  (3 <= Points_Len pts)%Z ->
  length b = (length pts - 1)%nat ->
  length c = length pts ->
  length d = (length pts - 1)%nat ->
  exists arr,
    localCoefficients pts b c d (Points_Len pts - 2) = Ok arr /\
    buildPolynomials h pts b c d =
    Ok (repeat (Some {| coefficients := {| ptr := length h; len := 4 |} |})
          (length pts - 1),
        h ++ [arr]).
Proof.
  intros Hn Hb Hc Hd. unfold buildPolynomials, alloc.
  set (coeffs := {| ptr := length h; len := 4 |}).
  set (intervals := (Points_Len pts - 1)%Z).
  assert (Hiv : intervals = (Z.of_nat (length pts) - 1)%Z) by reflexivity.
  match goal with
  | |- context [for_up 0 intervals ?body ?init] =>
      destruct (for_up_inv
                  (fun i (s : list (option PolynomialFunction) * heap F) =>
                     length (fst s) = Z.to_nat intervals /\
                     (exists arr, snd s = h ++ [arr] /\ length arr = 4%nat /\
                                  ((0 < i)%Z ->
                                   localCoefficients pts b c d (i - 1) = Ok arr)) /\
                     (forall j, (j < Z.to_nat i)%nat ->
                                nth_error (fst s) j = Some (NewPolynomialFunction coeffs)))
                  body 0%Z intervals init)
        as ([polys h'] & E & Hlen & (arr & Hh & Harr & Hrow) & Hall)
  end.
  { lens. }
  { cbn [fst snd]. split; [lens|]. split.
    - exists (make 4). split; [reflexivity|]. split; [apply length_make|lia].
    - intros j Hj. simpl in Hj. lia. }
  { intros i [polys h'] Hi (Hlen & (arr & Hh & Harr & Hrow) & Hall).
    cbn [fst snd] in *. subst h'.
    unfold localCoefficients.
    replace (i + 1 - 1)%Z with i by lia.
    destruct arr as [|a0 [|a1 [|a2 [|a3 [|? ?]]]]]; try discriminate Harr.
    unfold coeffs.
    step. rewrite slice_set_last by (try reflexivity; lia). cbn [bind].
    step. rewrite slice_set_last by (try reflexivity; lia). cbn [bind].
    step. rewrite slice_set_last by (try reflexivity; lia). cbn [bind].
    step. rewrite slice_set_last by (try reflexivity; lia). cbn [bind].
    step. fold coeffs.
    eexists; split; [reflexivity|]. cbn [fst snd]. split; [lens|]. split.
    - eexists. split; [reflexivity|]. split; [reflexivity|]. intros _.
      reflexivity.
    - intros j Hj. destruct (Nat.eq_dec j (Z.to_nat i)) as [->|Hne].
      + apply nth_error_set_nth_eq. lens.
      + rewrite nth_error_set_nth_neq by congruence. apply Hall. lia. }
  cbn [fst snd] in *. exists arr. split.
  - replace (Points_Len pts - 2)%Z with (intervals - 1)%Z by lens.
    apply Hrow. lens.
  - rewrite E. subst h'. f_equal. f_equal.
    replace (length pts - 1)%nat with (length polys) by lens.
    apply repeat_nth_error_all. intros j Hj. apply Hall. lens.
Qed.

(** What [NewCubicSplineFunction] returns, in full. *)
Lemma NewCubicSplineFunction_result (h : heap F) (pts : Points F) :
  (3 <= Points_Len pts)%Z ->
  exists b c d arr,
    splineCoefficients pts = Ok (b, c, d) /\
    localCoefficients pts b c d (Points_Len pts - 2) = Ok arr /\
    length arr = 4%nat /\
    NewCubicSplineFunction h pts =
    Ok (Some {| polynomials :=
                  repeat (Some {| coefficients := {| ptr := length h; len := 4 |} |})
                    (length pts - 1);
                points := pts |},
        h ++ [arr]).
Proof.
  intros Hn.
  destruct (splineCoefficients_ok pts Hn) as (b & c & d & E & Hb & Hc & Hd).
  destruct (buildPolynomials_shared h pts b c d Hn Hb Hc Hd) as (arr & Hrow & Eb).
  exists b, c, d, arr. split; [exact E|]. split; [exact Hrow|]. split.
  - unfold localCoefficients in Hrow.
    repeat (apply bind_Ok in Hrow; destruct Hrow as (? & _ & Hrow)).
    now inversion Hrow.
  - unfold NewCubicSplineFunction.
    destruct (Z.ltb_spec (Points_Len pts) 3); [lia|].
    rewrite E. cbn [bind]. rewrite Eb. reflexivity.
Qed.

Lemma NewCubicSplineFunction_nil (h : heap F) (pts : Points F) :
  (Points_Len pts < 3)%Z -> NewCubicSplineFunction h pts = Ok (None, h).
Proof.
  intros Hn. unfold NewCubicSplineFunction.
  destruct (Z.ltb_spec (Points_Len pts) 3); [reflexivity|lia].
Qed.

End Construction.

(** ** Binary search *)

(** [sort.Search] ends within its fuel, and its result sits between a rejected
    and an accepted index. *)
Lemma sort_Search_loop_spec (n : Z) (f : Z -> outcome bool) (p : Z -> bool) :
  (forall k, (0 <= k < n)%Z -> f k = Ok (p k)) ->
  forall (fuel : nat) (i j : Z),
    (0 <= i <= j)%Z -> (j <= n)%Z -> (j - i <= Z.of_nat fuel)%Z ->
    exists r,
      sort_Search_loop fuel f i j = Ok r /\
      (i <= r <= j)%Z /\
      (r = i \/ p (r - 1)%Z = false) /\
      (r = j \/ p r = true).
Proof.
  intros Hf. induction fuel as [|fuel IH]; intros i j Hij Hjn Hfuel.
  - assert (i = j) by lia. subst j. exists i. simpl.
    rewrite Z.ltb_irrefl. repeat split; auto; lia.
  - cbn [sort_Search_loop]. destruct (Z.ltb_spec i j) as [Hlt|Hge].
    + assert (Hh : (i <= (i + j) / 2 < j)%Z).
      { split; [apply Z.div_le_lower_bound; lia|apply Z.div_lt_upper_bound; lia]. }
      set (h := ((i + j) / 2)%Z) in *.
      rewrite (Hf h) by lia. cbn [bind].
      destruct (p h) eqn:Eh; cbn [negb].
      * destruct (IH i h) as (r & E & Hr & Hlo & Hhi); try lia.
        exists r. split; [exact E|]. split; [lia|]. split; [exact Hlo|].
        destruct Hhi as [->|Hhi]; auto.
      * destruct (IH (h + 1)%Z j) as (r & E & Hr & Hlo & Hhi); try lia.
        exists r. split; [exact E|]. split; [lia|]. split; [|exact Hhi].
        destruct Hlo as [->|Hlo]; auto. right.
        now replace (h + 1 - 1)%Z with h by lia.
    + assert (i = j) by lia. subst j. exists i. repeat split; auto; lia.
Qed.

(** For a predicate that stays true once it is true, the result is the least
    accepted index, or [n] when there is none. *)
Lemma sort_Search_least (n : Z) (f : Z -> outcome bool) (p : Z -> bool) :
  (0 <= n)%Z ->
  (forall k, (0 <= k < n)%Z -> f k = Ok (p k)) ->
  (forall a b, (0 <= a <= b)%Z -> (b < n)%Z -> p a = true -> p b = true) ->
  exists r,
    sort_Search n f = Ok r /\
    (0 <= r <= n)%Z /\
    (forall k, (0 <= k < r)%Z -> p k = false) /\
    (forall k, (r <= k < n)%Z -> p k = true).
Proof.
  intros Hn Hf Hmono. unfold sort_Search.
  destruct (sort_Search_loop_spec n f p Hf (Z.to_nat n) 0%Z n)
    as (r & E & Hr & Hlo & Hhi); try lia.
  exists r. split; [exact E|]. split; [exact Hr|]. split.
  - intros k Hk. destruct Hlo as [->|Hlo]; [lia|].
    destruct (p k) eqn:Ek; [|reflexivity].
    rewrite (Hmono k (r - 1)%Z) in Hlo; [discriminate|lia|lia|exact Ek].
  - intros k Hk. destruct Hhi as [->|Hhi]; [lia|].
    apply (Hmono r k); [lia|lia|exact Hhi].
Qed.

Section Search.

Context {F : Type} {ops : Float64Ops F}.

Lemma nextPred_index (ps : Points F) (x : F) (k : Z) :
  (0 <= k < Points_Len ps)%Z ->
  (p <- index ps k ;; Ok (x <? X p)%f64) = Ok (nextPred ps x k).
Proof.
  intros Hk. destruct (index_ok ps k Hk) as (a & E & N).
  rewrite E. cbn [bind]. unfold nextPred. now rewrite N.
Qed.

(** [SearchNextIndex] never panics and answers within [0, Len]. *)
Lemma Points_SearchNextIndex_ok (ps : Points F) (x : F) :
  exists r, Points_SearchNextIndex ps x = Ok r /\ (0 <= r <= Points_Len ps)%Z.
Proof.
  unfold Points_SearchNextIndex, sort_Search.
  destruct (sort_Search_loop_spec (Points_Len ps) _ (nextPred ps x)
              (nextPred_index ps x) (Z.to_nat (Points_Len ps)) 0%Z (Points_Len ps))
    as (r & E & Hr & _); unfold Points_Len in *; try lia.
  exists r. split; [exact E|lia].
Qed.

Section Ordered.

(** The one law of the order that the search relies on. *)
Hypothesis flt_fle_trans :
  forall a b c : F, (a <? b)%f64 = true -> (b <=? c)%f64 = true -> (a <? c)%f64 = true.

Lemma ascendingX_nextPred (x : F) :
  forall (ps : Points F) (a b : nat) (p q : Point F),
    ascendingX ps = true -> (a <= b)%nat ->
    nth_error ps a = Some p -> nth_error ps b = Some q ->
    (x <? X p)%f64 = true -> (x <? X q)%f64 = true.
Proof.
  induction ps as [|p0 ps IH]; intros a b p q Hs Hab Ha Hb Hp.
  - destruct a; discriminate.
  - destruct a as [|a].
    + simpl in Ha. injection Ha as ->.
      clear IH. revert p b q Hs Hab Hb Hp.
      induction ps as [|p1 ps IH2]; intros p b q Hs Hab Hb Hp.
      * destruct b as [|[|b]]; simpl in Hb; try discriminate. congruence.
      * destruct b as [|b].
        { simpl in Hb. congruence. }
        simpl in Hb. cbn [ascendingX] in Hs.
        apply andb_true_iff in Hs. destruct Hs as [H01 Hs].
        apply (IH2 p1 b q); auto; try lia.
        apply flt_fle_trans with (b := X p); assumption.
    + destruct b as [|b]; [lia|]. simpl in Ha, Hb.
      apply (IH a b p q); auto; try lia.
      cbn [ascendingX] in Hs. destruct ps as [|p1 ps]; [destruct a; discriminate|].
      apply andb_true_iff in Hs. tauto.
Qed.

(** On ascending abscissae [SearchNextIndex] is the leftmost index whose x
    exceeds the query, and [Len] when no x does. *)
Lemma Points_SearchNextIndex_least (ps : Points F) (x : F) :
  ascendingX ps = true ->
  exists r,
    Points_SearchNextIndex ps x = Ok r /\
    (0 <= r <= Points_Len ps)%Z /\
    (forall k p, (0 <= k < r)%Z -> index ps k = Ok p -> (x <? X p)%f64 = false) /\
    (forall k p, (r <= k)%Z -> index ps k = Ok p -> (x <? X p)%f64 = true).
Proof.
  intros Hs.
  destruct (sort_Search_least (Points_Len ps)
              (fun i => p <- index ps i ;; Ok (x <? X p)%f64) (nextPred ps x))
    as (r & E & Hr & Hlo & Hhi).
  - unfold Points_Len; lia.
  - apply nextPred_index.
  - intros a b Hab Hb. unfold nextPred.
    destruct (nth_error ps (Z.to_nat a)) as [p|] eqn:Ea; [|discriminate].
    destruct (nth_error ps (Z.to_nat b)) as [q|] eqn:Eb.
    + apply (ascendingX_nextPred x ps (Z.to_nat a) (Z.to_nat b) p q); auto. lia.
    + apply nth_error_None in Eb. unfold Points_Len in Hb. lia.
  - exists r. split; [exact E|]. split; [exact Hr|]. split.
    + intros k p Hk Hp. apply index_Ok_inv in Hp. destruct Hp as [Hk' N].
      specialize (Hlo k Hk). unfold nextPred in Hlo. now rewrite N in Hlo.
    + intros k p Hk Hp. apply index_Ok_inv in Hp. destruct Hp as [Hk' N].
      assert (Hkn : (r <= k < Points_Len ps)%Z) by (unfold Points_Len; lia).
      specialize (Hhi k Hkn). unfold nextPred in Hhi. now rewrite N in Hhi.
Qed.

End Ordered.

End Search.

(** ** Evaluation of polynomials and splines *)

Section Evaluation.

Context {F : Type} {ops : Float64Ops F}.

Lemma slice_get_ok (h : heap F) (s : slice) (i : Z) :
  (0 <= i < len s)%Z ->
  len s = Z.of_nat (length (nth (ptr s) h [])) ->
  exists v, slice_get h s i = Ok v /\
            nth_error (nth (ptr s) h []) (Z.to_nat i) = Some v.
Proof.
  intros Hi Hlen. unfold slice_get.
  destruct (Z.leb_spec 0 i); [|lia]. destruct (Z.ltb_spec i (len s)); [|lia].
  cbn [andb]. apply index_ok. lia.
Qed.

Lemma skipn_cons_nth {A : Type} (l : list A) (k : nat) (a : A) :
  nth_error l k = Some a -> skipn k l = a :: skipn (S k) l.
Proof.
  revert k; induction l as [|b l IH]; intros [|k] H; simpl in *;
    try discriminate.
  - congruence.
  - now apply IH.
Qed.

Lemma horner_cons (c : F) (cs : list F) (x : F) :
  cs <> [] -> horner (c :: cs) x = (x * horner cs x + c)%f64.
Proof. destruct cs; [congruence|reflexivity]. Qed.

(** The loop of [Eval], from index [k - 1] down to 0, completes Horner's
    scheme on the coefficients it has not yet read. *)
Lemma horner_loop (h : heap F) (s : slice) (cs : list F) (x : F) :
  nth (ptr s) h [] = cs ->
  len s = Z.of_nat (length cs) ->
  forall k : nat,
    (k < length cs)%nat ->
    for_down_n k (Z.of_nat k - 1)
      (fun i result => c <- slice_get h s i ;; Ok (x * result + c)%f64)
      (horner (skipn k cs) x)
    = Ok (horner cs x).
Proof.
  intros Hcs Hlen. induction k as [|k IH]; intros Hk.
  - reflexivity.
  - cbn [for_down_n].
    replace (Z.of_nat (S k) - 1)%Z with (Z.of_nat k) by lia.
    destruct (slice_get_ok h s (Z.of_nat k)) as (v & E & N);
      [lia|rewrite Hcs; exact Hlen|].
    rewrite E. cbn [bind]. rewrite Hcs, Nat2Z.id in N.
    rewrite <- horner_cons.
    + rewrite <- (skipn_cons_nth cs k v N). apply IH. lia.
    + intros Hnil. apply (f_equal (@length F)) in Hnil.
      rewrite length_skipn in Hnil. simpl in Hnil. lia.
Qed.

(** [Eval] of a polynomial with at least one coefficient is Horner's scheme;
    it does not panic. *)
Lemma PolynomialFunction_Eval_horner (h : heap F) (pf : PolynomialFunction)
  (cs : list F) (x : F) :
  nth (ptr (coefficients pf)) h [] = cs ->
  len (coefficients pf) = Z.of_nat (length cs) ->
  cs <> [] ->
  PolynomialFunction_Eval h pf x = Ok (horner cs x).
Proof.
  intros Hcs Hlen Hne. unfold PolynomialFunction_Eval.
  assert (Hpos : (0 < length cs)%nat) by (destruct cs; [congruence|simpl; lia]).
  destruct (slice_get_ok h (coefficients pf) (len (coefficients pf) - 1))
    as (v & E & N); [lia|rewrite Hcs; exact Hlen|].
  rewrite E. cbn [bind]. unfold for_down. rewrite Hcs in N.
  replace (Z.to_nat (len (coefficients pf) - 1)) with (length cs - 1)%nat in N by lia.
  replace (Z.to_nat (len (coefficients pf) - 2 - 0 + 1)) with (length cs - 1)%nat by lia.
  replace (len (coefficients pf) - 2)%Z with (Z.of_nat (length cs - 1) - 1)%Z by lia.
  assert (Hv : horner (skipn (length cs - 1) cs) x = v).
  { rewrite (skipn_cons_nth cs _ v N).
    replace (S (length cs - 1)) with (length cs) by lia.
    now rewrite skipn_all. }
  rewrite <- Hv. apply horner_loop; auto. lia.
Qed.

Lemma Points_XInRange_ok (ps : Points F) (x : F) :
  ps <> [] -> exists b, Points_XInRange ps x = Ok b.
Proof.
  destruct ps as [|p ps]; [congruence|]. intros _.
  unfold Points_XInRange. simpl. eexists; reflexivity.
Qed.

(** [Eval] of a spline as the constructor returns it: a panic with the
    message of line 492 outside the range of the knots, a value inside. *)
Lemma CubicSplineFunction_Eval_domain (h h' : heap F) (pts : Points F)
  (csf : CubicSplineFunction F) (x : F) :
  NewCubicSplineFunction h pts = Ok (Some csf, h') ->
  points csf = pts /\
  (exists b, Points_XInRange pts x = Ok b) /\
  (Points_XInRange pts x = Ok false ->
   CubicSplineFunction_Eval h' csf x = Panic (Explicit "X out of range!")) /\
  (Points_XInRange pts x = Ok true ->
   exists v, CubicSplineFunction_Eval h' csf x = Ok v).
Proof.
  intros Hnew.
  assert (Hn : (3 <= Points_Len pts)%Z).
  { destruct (Z.ltb_spec (Points_Len pts) 3) as [Hlt|]; [|assumption].
    rewrite NewCubicSplineFunction_nil in Hnew by assumption. discriminate. }
  destruct (NewCubicSplineFunction_result h pts Hn)
    as (b & c & d & arr & _ & _ & Harr & E).
  rewrite E in Hnew. injection Hnew as <- <-. cbn [points].
  split; [reflexivity|]. split.
  { apply Points_XInRange_ok. destruct pts; [unfold Points_Len in Hn; simpl in Hn; lia|congruence]. }
  unfold CubicSplineFunction_Eval. cbn [points polynomials]. split.
  - intros ->. reflexivity.
  - intros ->. cbn [bind negb].
    destruct (Points_SearchNextIndex_ok pts x) as (r & -> & Hr). cbn [bind].
    rewrite repeat_length.
    set (idx := if (Z.of_nat (length pts - 1) <=? r)%Z
                then (Z.of_nat (length pts - 1) - 1)%Z else r).
    assert (Hidx : (0 <= idx < Z.of_nat (length pts) - 1)%Z).
    { subst idx. unfold Points_Len in *.
      destruct (Z.leb_spec (Z.of_nat (length pts - 1)) r); lia. }
    destruct (index_ok (repeat (Some {| coefficients :=
                                          {| ptr := length h; len := 4 |} |})
                          (length pts - 1)) idx) as (p & -> & N).
    { rewrite repeat_length. lia. }
    cbn [bind]. apply nth_error_In, repeat_spec in N. subst p.
    unfold Points_XAt. destruct (index_ok pts idx) as (q & -> & _); [lia|].
    cbn [bind]. eexists.
    apply PolynomialFunction_Eval_horner with (cs := arr); cbn [coefficients ptr len].
    + apply nth_app_last.
    + rewrite Harr. reflexivity.
    + destruct arr; [discriminate|congruence].
Qed.

End Evaluation.

(** ** The order of binary64

    The comparisons of primitive floats are those of [SpecFloat]
    ([ltb_spec], [leb_spec], [eqb_spec]); [SFcompare] orders the values that
    are not NaN by sign, exponent and mantissa. *)

Ltac sf_order :=
  repeat match goal with
         | H : context [(?a ?= ?b)%Z] |- _ => destruct (Z.compare_spec a b)
         | |- context [(?a ?= ?b)%Z] => destruct (Z.compare_spec a b)
         | H : context [PosDef.Pos.compare_cont Eq ?a ?b] |- _ =>
             change (PosDef.Pos.compare_cont Eq a b) with (Pos.compare a b) in *;
             destruct (Pos.compare_spec a b)
         | |- context [PosDef.Pos.compare_cont Eq ?a ?b] =>
             change (PosDef.Pos.compare_cont Eq a b) with (Pos.compare a b) in *;
             destruct (Pos.compare_spec a b)
         end;
  cbn in *; try discriminate; try reflexivity; try lia.

Ltac sf_start :=
  unfold IsNaN in *;
  rewrite ?FloatAxioms.ltb_spec, ?FloatAxioms.leb_spec, ?FloatAxioms.eqb_spec in *;
  unfold SFltb, SFleb, SFeqb, SFcompare in *.

Lemma binary64_lt_le_trans (a b c : float) :
  (a <? b)%float = true -> (b <=? c)%float = true -> (a <? c)%float = true.
Proof.
  sf_start.
  destruct (Prim2SF a) as [[]|[]| |[] ? ?], (Prim2SF b) as [[]|[]| |[] ? ?],
    (Prim2SF c) as [[]|[]| |[] ? ?]; intros H1 H2;
    try discriminate; try reflexivity; sf_order.
Qed.

Lemma binary64_le_trans (a b c : float) :
  (a <=? b)%float = true -> (b <=? c)%float = true -> (a <=? c)%float = true.
Proof.
  sf_start.
  destruct (Prim2SF a) as [[]|[]| |[] ? ?], (Prim2SF b) as [[]|[]| |[] ? ?],
    (Prim2SF c) as [[]|[]| |[] ? ?]; intros H1 H2;
    try discriminate; try reflexivity; sf_order.
Qed.

Lemma binary64_lt_le (a b : float) :
  (a <? b)%float = true -> (a <=? b)%float = true.
Proof.
  sf_start.
  destruct (Prim2SF a) as [[]|[]| |[] ? ?], (Prim2SF b) as [[]|[]| |[] ? ?];
    intros H1; try discriminate; try reflexivity; sf_order.
Qed.

Lemma binary64_not_lt_le (a b : float) :
  IsNaN a = false -> IsNaN b = false ->
  (a <? b)%float = false -> (b <=? a)%float = true.
Proof.
  sf_start.
  destruct (Prim2SF a) as [[]|[]| |[] ? ?], (Prim2SF b) as [[]|[]| |[] ? ?];
    intros Ha Hb H1; try discriminate; try reflexivity; sf_order.
Qed.

Lemma binary64_le_refl (a : float) :
  IsNaN a = false -> (a <=? a)%float = true.
Proof.
  sf_start.
  destruct (Prim2SF a) as [[]|[]| |[] ? ?];
    intros Ha; try discriminate; try reflexivity; sf_order.
Qed.

(** ** The scan of XInRange *)

(** After the scan of a set without NaN abscissae the two bounds are the
    least and the greatest abscissa seen. *)
Lemma xrange_scan_bounds (ps : Points float) :
  forall (seen : list float) (mn mx : float),
    (forall v, In v seen -> IsNaN v = false) ->
    (forall p, In p ps -> IsNaN (X p) = false) ->
    In mn seen -> In mx seen ->
    (forall v, In v seen -> (mn <=? v)%float = true /\ (v <=? mx)%float = true) ->
    let mm := fold_left xrange_step ps (mn, mx) in
    let all := (seen ++ map (@X float) ps)%list in
    In (fst mm) all /\ In (snd mm) all /\
    (forall v, In v all ->
               (fst mm <=? v)%float = true /\ (v <=? snd mm)%float = true).
Proof.
  induction ps as [|p ps IH]; intros seen mn mx Hseen Hps Hmn Hmx Hb.
  - cbn. rewrite app_nil_r. auto.
  - cbn [fold_left map].
    assert (Hp : IsNaN (X p) = false) by (apply Hps; left; reflexivity).
    assert (Nmn : IsNaN mn = false) by auto.
    assert (Nmx : IsNaN mx = false) by auto.
    specialize (IH (seen ++ [X p])%list (fst (xrange_step (mn, mx) p))
                  (snd (xrange_step (mn, mx) p))).
    rewrite <- surjective_pairing in IH.
    replace (seen ++ X p :: map (@X float) ps)%list
      with ((seen ++ [X p]) ++ map (@X float) ps)%list
      by (rewrite <- app_assoc; reflexivity).
    apply IH; clear IH.
    + intros v Hv. apply in_app_or in Hv. destruct Hv as [Hv|[<-|[]]]; auto.
    + intros q Hq. apply Hps. right; exact Hq.
    + unfold xrange_step; cbn [fst snd]. apply in_or_app.
      change (flt (X p) mn) with (X p <? mn)%float.
      destruct (X p <? mn)%float; [right; left; reflexivity|left; exact Hmn].
    + unfold xrange_step; cbn [fst snd]. apply in_or_app.
      change (flt mx (X p)) with (mx <? X p)%float.
      destruct (mx <? X p)%float; [right; left; reflexivity|left; exact Hmx].
    + intros v Hv. unfold xrange_step; cbn [fst snd].
      change (flt (X p) mn) with (X p <? mn)%float.
      change (flt mx (X p)) with (mx <? X p)%float.
      apply in_app_or in Hv. split.
      * destruct (X p <? mn)%float eqn:E1.
        { destruct Hv as [Hv|[<-|[]]].
          - apply binary64_le_trans with (b := mn);
              [now apply binary64_lt_le|now apply Hb].
          - now apply binary64_le_refl. }
        { destruct Hv as [Hv|[<-|[]]]; [now apply Hb|].
          now apply binary64_not_lt_le. }
      * destruct (mx <? X p)%float eqn:E2.
        { destruct Hv as [Hv|[<-|[]]].
          - apply binary64_le_trans with (b := mx);
              [now apply Hb|now apply binary64_lt_le].
          - now apply binary64_le_refl. }
        { destruct Hv as [Hv|[<-|[]]]; [now apply Hb|].
          now apply binary64_not_lt_le. }
Qed.

(** ** Map *)

Lemma Points_Map_filter_acc {F : Type} (f : Point F -> option (Point F)) :
  forall (ps acc : Points F),
    fold_left
      (fun points point =>
         match f point with
         | Some _ => points ++ [point]
         | None => points
         end) ps acc
    = (acc ++ filter (fun p => match f p with Some _ => true | None => false end) ps)%list.
Proof.
  induction ps as [|p ps IH]; intros acc; cbn [fold_left filter].
  - now rewrite app_nil_r.
  - rewrite IH. destruct (f p); [|reflexivity].
    rewrite <- app_assoc. reflexivity.
Qed.

(** ** Horner's scheme over exact arithmetic *)

Ltac exactQ_ring :=
  cbn [fadd fsub fmul fdiv fromInt exactQ horner powerSumFrom fpow];
  unfold zero;
  cbn [fadd fsub fmul fdiv fromInt exactQ horner powerSumFrom fpow];
  change (Q2Qc (inject_Z 0)) with 0%Qc;
  change (Q2Qc (inject_Z 1)) with 1%Qc;
  try ring.

Lemma exactQ_horner_cons (c : Qc) (cs : list Qc) (x : Qc) :
  horner (c :: cs) x = (x * horner cs x + c)%Qc.
Proof.
  destruct cs as [|c' cs]; [|reflexivity]. exactQ_ring.
Qed.

Lemma exactQ_powerSumFrom_shift (cs : list Qc) (x : Qc) :
  forall i : nat, powerSumFrom i cs x = (fpow x i * powerSumFrom 0 cs x)%Qc.
Proof.
  induction cs as [|c cs IH]; intros i; cbn [powerSumFrom].
  - exactQ_ring.
  - rewrite (IH (S i)), (IH 1%nat). exactQ_ring.
Qed.

Lemma exactQ_horner_powerSum (cs : list Qc) (x : Qc) :
  horner cs x = powerSum cs x.
Proof.
  unfold powerSum. induction cs as [|c cs IH].
  - reflexivity.
  - rewrite exactQ_horner_cons, IH. cbn [powerSumFrom].
    rewrite (exactQ_powerSumFrom_shift cs x 1). exactQ_ring.
Qed.

(** ** evalPoints *)

Section Sampling.

Context {F : Type} {ops : Float64Ops F}.



End Sampling.

(** *** Over exact arithmetic the loop ends after [count] rounds *)



Lemma exactQ_fromInt_plus (a b : Z) :
  Q2Qc (inject_Z (a + b)) = (Q2Qc (inject_Z a) + Q2Qc (inject_Z b))%Qc.
Proof.
  apply Qc_is_canon. unfold Qcplus. cbn [this Q2Qc].
  rewrite !Qred_correct. rewrite inject_Z_plus. reflexivity.
Qed.

Lemma exactQ_fromInt_lt (a b : Z) :
  (a < b)%Z -> (Q2Qc (inject_Z a) < Q2Qc (inject_Z b))%Qc.
Proof.
  intros H. unfold Qclt. cbn [this Q2Qc]. rewrite !Qred_correct.
  now rewrite <- Zlt_Qlt.
Qed.




(** ** Least squares on one abscissa

    When every point has the same x, each deviation [dx] is a zero or NaN,
    and so is [sumXX]; [slope] answers NaN on both. *)

Lemma zeroOrNaN_mul (a b : float) :
  zeroOrNaN (Prim2SF a) -> zeroOrNaN (Prim2SF (a * b)%float).
Proof.
  rewrite mul_spec. unfold SF64mul, SFmul.
  destruct (Prim2SF a), (Prim2SF b); cbn; tauto.
Qed.

Lemma zeroOrNaN_div (a b : float) :
  zeroOrNaN (Prim2SF a) -> zeroOrNaN (Prim2SF (a / b)%float).
Proof.
  rewrite div_spec. unfold SF64div, SFdiv.
  destruct (Prim2SF a), (Prim2SF b); cbn; tauto.
Qed.

Lemma zeroOrNaN_add (a b : float) :
  zeroOrNaN (Prim2SF a) -> zeroOrNaN (Prim2SF b) ->
  zeroOrNaN (Prim2SF (a + b)%float).
Proof.
  rewrite add_spec. unfold SF64add, SFadd.
  destruct (Prim2SF a) as [[]|?| |? ? ?], (Prim2SF b) as [[]|?| |? ? ?];
    cbn; tauto.
Qed.

Lemma zeroOrNaN_sub_diag (x : float) : zeroOrNaN (Prim2SF (x - x)%float).
Proof.
  rewrite sub_spec. unfold SF64sub, SFsub.
  destruct (Prim2SF x) as [[]|[]| |s m e]; cbn; auto.
  rewrite Z.sub_diag. exact I.
Qed.

Lemma zeroOrNaN_sub_shift (x xb t : float) :
  zeroOrNaN (Prim2SF (x - xb)%float) -> zeroOrNaN (Prim2SF t) ->
  zeroOrNaN (Prim2SF (x - (xb + t))%float).
Proof.
  rewrite !sub_spec, add_spec. unfold SF64sub, SF64add.
  destruct (Prim2SF t) as [st|?| |? ? ?]; try contradiction; intros H _.
  - destruct (Prim2SF xb) as [sb|sb| |sb mb eb]; cbn [SFadd]; try exact H.
    destruct (Prim2SF x) as [[]|?| |? ? ?]; try contradiction;
      destruct sb, st; cbn; auto.
  - destruct (Prim2SF xb), (Prim2SF x); cbn; auto.
Qed.

Lemma slope_zeroOrNaN (lsf : LeastSquaresFunction) :
  zeroOrNaN (Prim2SF (sumXX lsf)) -> slope lsf = nan.
Proof.
  intros H. unfold slope. destruct (count lsf <? 2)%Z; [reflexivity|].
  rewrite FloatAxioms.ltb_spec, abs_spec.
  destruct (Prim2SF (sumXX lsf)) as [s|?| |? ? ?] eqn:E; try contradiction.
  - reflexivity.
  - cbn. apply Prim2SF_inj. rewrite div_spec, E. unfold SF64div, SFdiv.
    destruct (Prim2SF (sumXY lsf)); reflexivity.
Qed.

Lemma oneAbscissa_AppendPoint (x y : float) (lsf : LeastSquaresFunction) :
  oneAbscissa x lsf -> oneAbscissa x (LeastSquaresFunction_AppendPoint lsf x y).
Proof.
  intros [[H0|[Hpos Hdx]] Hxx]; unfold oneAbscissa, LeastSquaresFunction_AppendPoint.
  - rewrite H0. cbn. split; [|exact Hxx]. right. split; [lia|].
    apply zeroOrNaN_sub_diag.
  - destruct (Z.eqb_spec (count lsf) 0) as [E|_]; [lia|]. cbn. split.
    + right. split; [lia|]. apply zeroOrNaN_sub_shift; [exact Hdx|].
      now apply zeroOrNaN_div.
    + apply zeroOrNaN_add; [exact Hxx|].
      now apply zeroOrNaN_div, zeroOrNaN_mul, zeroOrNaN_mul.
Qed.

Lemma oneAbscissa_AppendPoints (x : float) (pts : Points float) :
  (forall p, In p pts -> X p = x) ->
  forall lsf, oneAbscissa x lsf ->
              oneAbscissa x (LeastSquaresFunction_AppendPoints lsf pts).
Proof.
  unfold LeastSquaresFunction_AppendPoints.
  induction pts as [|p pts IH]; intros Hx lsf Hl; cbn [fold_left]; [exact Hl|].
  apply IH; [intros q Hq; apply Hx; right; exact Hq|].
  rewrite (Hx p) by (left; reflexivity). now apply oneAbscissa_AppendPoint.
Qed.

(** * The claims *)

Lemma Ok_exactQ (m : outcome Qc) (q : Qc) :
  match m with Ok a => Qeq_bool a q | _ => false end = true -> m = Ok q.
Proof.
  destruct m as [a| |]; try discriminate. intros H. f_equal.
  apply Qc_is_canon. now apply Qeq_bool_eq.
Qed.

Lemma Ok_exactQ_list (m : outcome (list Qc)) (l : list Qc) :
  match m with
  | Ok a => (length a =? length l)%nat &&
            forallb (fun ab => Qeq_bool (this (fst ab)) (this (snd ab))) (combine a l)
  | _ => false
  end = true -> m = Ok l.
Proof.
  destruct m as [a| |]; try discriminate. intros H. f_equal.
  apply andb_true_iff in H. destruct H as [Hlen H].
  apply Nat.eqb_eq in Hlen. revert l Hlen H.
  induction a as [|x a IH]; intros [|y l] Hlen H; try discriminate; [reflexivity|].
  cbn in H. apply andb_true_iff in H. destruct H as [Hxy H].
  f_equal; [apply Qc_is_canon; now apply Qeq_bool_eq|].
  apply IH; [now injection Hlen|exact H].
Qed.

(** C1: on the knots (0,0), (1,1), (2,0), (3,1) the constructed spline should
    return the knot ordinates 0, 1, 0, 1 at x = 0, 1, 2, 3. The code returns
    3, 3, 0 and 1 over exact arithmetic, and 3, 3, 0 and 1 + 2^-52 in
    binary64: [Eval] looks interval 0 and 1 up as 1 and 2, and every interval
    evaluates the coefficients of the last one. *)
Theorem cubic_spline_at_knots :
  (exists (csf : CubicSplineFunction Qc) (h : heap Qc),
      NewCubicSplineFunction [] knots = Ok (Some csf, h) /\
      CubicSplineFunction_Eval h csf (fromInt 0) = Ok (fromInt 3) /\
      CubicSplineFunction_Eval h csf (fromInt 1) = Ok (fromInt 3) /\
      CubicSplineFunction_Eval h csf (fromInt 2) = Ok (fromInt 0) /\
      CubicSplineFunction_Eval h csf (fromInt 3) = Ok (fromInt 1)) /\
  (exists (csf : CubicSplineFunction float) (h : heap float),
      NewCubicSplineFunction [] knots = Ok (Some csf, h) /\
      CubicSplineFunction_Eval h csf 0%float = Ok 3%float /\
      CubicSplineFunction_Eval h csf 1%float = Ok 3%float /\
      CubicSplineFunction_Eval h csf 2%float = Ok 0%float /\
      CubicSplineFunction_Eval h csf 3%float = Ok 0x1.0000000000001p+0%float).
Proof.
  split.
  - destruct (NewCubicSplineFunction_result (F:=Qc) [] knots)
      as (b & c & d & arr & Eb & Erow & _ & E); [cbn; lia|].
    assert (Harr : arr = [fromInt 0; Q2Qc (-1 # 3); fromInt 2; Q2Qc (-2 # 3)]).
    { assert (Hr : localCoefficients knots b c d (Points_Len (F:=Qc) knots - 2)
                   = Ok [fromInt 0; Q2Qc (-1 # 3); fromInt 2; Q2Qc (-2 # 3)]).
      { assert (Hb : splineCoefficients (F:=Qc) knots = Ok (b, c, d)) by exact Eb.
        revert Hb. clear.
        destruct (splineCoefficients (F:=Qc) knots) as [[[b' c'] d']| |] eqn:Es;
          try discriminate.
        intros [= <- <- <-]. revert Es. vm_compute. intros [= <- <- <-].
        apply Ok_exactQ_list. vm_compute. reflexivity. }
      rewrite Hr in Erow. now injection Erow. }
    subst arr. eexists; eexists. split; [exact E|].
    repeat split; apply Ok_exactQ; vm_compute; reflexivity.
  - eexists; eexists. split; [vm_compute; reflexivity|].
    repeat split; vm_compute; reflexivity.
Qed.

(** C2: interval [i] of a spline over n >= 3 knots should store the
    coefficients [y[i], b[i], c[i], d[i]]. In the code every interval reads
    the one array the constructor made, which ends up holding the row of the
    last interval, n - 2; on the knots (0,0), (1,1), (2,0), (3,1) interval 0
    stores [0, -1/3, 2, -2/3] (rounded), not its own [0, 5/3, 0, -2/3]. *)
Theorem spline_intervals_share_coefficients :
  (forall (F : Type) (ops : Float64Ops F) (h h' : heap F) (pts : Points F)
          (csf : CubicSplineFunction F),
      NewCubicSplineFunction h pts = Ok (Some csf, h') ->
      exists b c d last,
        splineCoefficients pts = Ok (b, c, d) /\
        localCoefficients pts b c d (Points_Len pts - 2) = Ok last /\
        forall i, (0 <= i < Points_Len pts - 1)%Z ->
                  storedCoefficients h' csf i = Ok last) /\
  (exists (csf : CubicSplineFunction float) (h : heap float) b c d,
      NewCubicSplineFunction [] knots = Ok (Some csf, h) /\
      splineCoefficients knots = Ok (b, c, d) /\
      localCoefficients knots b c d 0
      = Ok [0; 0x1.aaaaaaaaaaaaap+0; 0; -0x1.5555555555555p-1]%float /\
      storedCoefficients h csf 0
      = Ok [0; -0x1.5555555555554p-2; 2; -0x1.5555555555555p-1]%float).
Proof.
  split.
  - intros F ops h h' pts csf Hnew.
    assert (Hn : (3 <= Points_Len pts)%Z).
    { destruct (Z.ltb_spec (Points_Len pts) 3) as [Hlt|]; [|assumption].
      rewrite NewCubicSplineFunction_nil in Hnew by assumption. discriminate. }
    destruct (NewCubicSplineFunction_result h pts Hn)
      as (b & c & d & arr & Eb & Erow & Harr & E).
    rewrite E in Hnew. injection Hnew as <- <-.
    exists b, c, d, arr. split; [exact Eb|]. split; [exact Erow|].
    intros i Hi. unfold storedCoefficients. cbn [polynomials].
    destruct (index_ok (repeat (Some {| coefficients :=
                                          {| ptr := length h; len := 4 |} |})
                          (length pts - 1)) i) as (p & -> & N).
    { rewrite repeat_length. unfold Points_Len in *. lia. }
    cbn [bind]. apply nth_error_In, repeat_spec in N. subst p.
    cbn [coefficients ptr]. now rewrite nth_app_last.
  - do 5 eexists. repeat split; vm_compute; reflexivity.
Qed.

Lemma spline_intervals_share_coefficients_witness :
  let csf := {| polynomials :=
                  repeat (Some {| coefficients := {| ptr := 0%nat; len := 4 |} |}) 3;
                points := knots (F:=float) |} in
  let h : heap float :=
    ([0; -0x1.5555555555554p-2; 2; -0x1.5555555555555p-1]%float :: nil) in
  exists b c d last,
    splineCoefficients (F:=float) knots = Ok (b, c, d) /\
    localCoefficients knots b c d (Points_Len (F:=float) knots - 2) = Ok last /\
    forall i, (0 <= i < Points_Len (F:=float) knots - 1)%Z ->
              storedCoefficients h csf i = Ok last.
Proof.
  refine (proj1 spline_intervals_share_coefficients float binary64 [] _ knots _ _).
  vm_compute. reflexivity.
Defined.

(** C3: [Eval] of a constructed spline panics with "X out of range!" exactly
    when [XInRange] is false over its point set, and returns a value when it
    is true; on the knots (0,0), (1,1), (2,0), (3,1) it panics at -0.5 and
    at 3.5. *)
Theorem CubicSplineFunction_Eval_out_of_range :
  (forall (F : Type) (ops : Float64Ops F) (h h' : heap F) (pts : Points F)
          (csf : CubicSplineFunction F) (x : F),
      NewCubicSplineFunction h pts = Ok (Some csf, h') ->
      (exists inRange, Points_XInRange (points csf) x = Ok inRange) /\
      (Points_XInRange (points csf) x = Ok false ->
       CubicSplineFunction_Eval h' csf x = Panic (Explicit "X out of range!")) /\
      (Points_XInRange (points csf) x = Ok true ->
       exists y, CubicSplineFunction_Eval h' csf x = Ok y)) /\
  (exists (csf : CubicSplineFunction float) (h : heap float),
      NewCubicSplineFunction [] knots = Ok (Some csf, h) /\
      CubicSplineFunction_Eval h csf (-0.5)%float = Panic (Explicit "X out of range!") /\
      CubicSplineFunction_Eval h csf 3.5%float = Panic (Explicit "X out of range!")).
Proof.
  split.
  - intros F ops h h' pts csf x Hnew.
    destruct (CubicSplineFunction_Eval_domain h h' pts csf x Hnew)
      as (-> & Hex & Hout & Hin).
    auto.
  - do 2 eexists. repeat split; vm_compute; reflexivity.
Qed.

Lemma CubicSplineFunction_Eval_out_of_range_witness :
  let csf := {| polynomials :=
                  repeat (Some {| coefficients := {| ptr := 0%nat; len := 4 |} |}) 3%nat;
                points := knots (F:=float) |} in
  let h : heap float :=
    ([0; -0x1.5555555555554p-2; 2; -0x1.5555555555555p-1]%float :: nil) in
  (exists inRange, Points_XInRange (points csf) 1.5%float = Ok inRange) /\
  (Points_XInRange (points csf) 1.5%float = Ok false ->
   CubicSplineFunction_Eval h csf 1.5%float = Panic (Explicit "X out of range!")) /\
  (Points_XInRange (points csf) 1.5%float = Ok true ->
   exists y, CubicSplineFunction_Eval h csf 1.5%float = Ok y).
Proof.
  refine (proj1 CubicSplineFunction_Eval_out_of_range float binary64 [] _ knots _
            1.5%float _).
  vm_compute. reflexivity.
Defined.

(** C6: [Map] returns, in their order, exactly the points of the set on which
    [f] yields a value; what [f] yields is dropped. *)
Theorem Points_Map_keeps_originals :
  forall (F : Type) (ps : Points F) (f : Point F -> option (Point F)),
    Points_Map ps f
    = filter (fun p => match f p with Some _ => true | None => false end) ps.
Proof.
  intros F ps f. unfold Points_Map. now rewrite Points_Map_filter_acc.
Qed.

(** C9: [NewPolynomialFunction] returns nil exactly on an empty coefficient
    slice, and [NewCubicSplineFunction] returns nil exactly on fewer than
    three points; with three or more it returns a spline. *)
Theorem constructors_nil :
  (forall s : slice,
      (0 <= len s)%Z ->
      (NewPolynomialFunction s = None <-> len s = 0%Z) /\
      ((1 <= len s)%Z -> NewPolynomialFunction s = Some {| coefficients := s |})) /\
  (forall (F : Type) (ops : Float64Ops F) (h : heap F) (pts : Points F),
      ((Points_Len pts < 3)%Z -> NewCubicSplineFunction h pts = Ok (None, h)) /\
      ((3 <= Points_Len pts)%Z ->
       exists csf h', NewCubicSplineFunction h pts = Ok (Some csf, h') /\
                      points csf = pts) /\
      ((exists h', NewCubicSplineFunction h pts = Ok (None, h')) <->
       (Points_Len pts < 3)%Z)).
Proof.
  split.
  - intros s Hs. unfold NewPolynomialFunction.
    destruct (Z.ltb_spec (len s) 1); split; try split; intros; try lia;
      congruence.
  - intros F ops h pts.
    assert (Hsome : (3 <= Points_Len pts)%Z ->
                    exists csf h', NewCubicSplineFunction h pts = Ok (Some csf, h') /\
                                   points csf = pts).
    { intros Hn. destruct (NewCubicSplineFunction_result h pts Hn)
        as (b & c & d & arr & _ & _ & _ & E).
      do 2 eexists. split; [exact E|reflexivity]. }
    split; [apply NewCubicSplineFunction_nil|]. split; [exact Hsome|]. split.
    + intros [h' E]. destruct (Z.ltb_spec (Points_Len pts) 3); [assumption|].
      destruct Hsome as (csf & h'' & E' & _); [assumption|]. congruence.
    + intros Hn. exists h. now apply NewCubicSplineFunction_nil.
Qed.

Lemma constructors_nil_witness :
  (NewPolynomialFunction {| ptr := 0%nat; len := 3 |} = None <-> 3%Z = 0%Z) /\
  ((1 <= 3)%Z ->
   NewPolynomialFunction {| ptr := 0%nat; len := 3 |}
   = Some {| coefficients := {| ptr := 0%nat; len := 3 |} |}).
Proof.
  refine (proj1 constructors_nil {| ptr := 0%nat; len := 3 |} _). cbn. lia.
Defined.

(** C8: on points in ascending order of x, [SearchNextIndex x] is the
    leftmost index i with x < points[i].x, and Len() when there is none; on
    the abscissae 0, 1, 2, 3 it answers 2 for 1.5 and 1 for 0. *)
Theorem Points_SearchNextIndex_leftmost :
  (forall (ps : Points float) (x : float),
      ascendingX ps = true ->
      exists i,
        Points_SearchNextIndex ps x = Ok i /\
        (0 <= i <= Points_Len ps)%Z /\
        (forall k p, (0 <= k < i)%Z -> index ps k = Ok p ->
                     (x <? X p)%float = false) /\
        ((i < Points_Len ps)%Z ->
         exists p, index ps i = Ok p /\ (x <? X p)%float = true)) /\
  Points_SearchNextIndex (F:=float) knots 1.5%float = Ok 2%Z /\
  Points_SearchNextIndex (F:=float) knots 0%float = Ok 1%Z.
Proof.
  split; [|split; vm_compute; reflexivity].
  intros ps x Hs.
  destruct (Points_SearchNextIndex_least (ops:=binary64) binary64_lt_le_trans ps x Hs)
    as (r & E & Hr & Hlo & Hhi).
  exists r. split; [exact E|]. split; [exact Hr|]. split; [exact Hlo|].
  intros Hlt. destruct (index_ok ps r) as (p & Ep & _).
  { unfold Points_Len in *. lia. }
  exists p. split; [exact Ep|]. apply (Hhi r p); [lia|exact Ep].
Qed.

Lemma Points_SearchNextIndex_leftmost_witness :
  exists i,
    Points_SearchNextIndex (F:=float) knots 1.5%float = Ok i /\
    (0 <= i <= Points_Len (F:=float) knots)%Z /\
    (forall k p, (0 <= k < i)%Z -> index knots k = Ok p ->
                 (1.5 <? X p)%float = false) /\
    ((i < Points_Len (F:=float) knots)%Z ->
     exists p, index knots i = Ok p /\ (1.5 <? X p)%float = true).
Proof.
  refine (proj1 Points_SearchNextIndex_leftmost knots 1.5%float _).
  vm_compute. reflexivity.
Defined.

(** C10, as stated: the answer of [XInRange] on a non-empty set would depend
    only on the least and the greatest abscissa, whatever the order of the
    points. With a NaN abscissa it depends on the order: the same three points
    give false with the NaN first and true with the NaN second, for x = 2
    between the abscissae 1 and 3. *)
Lemma Points_XInRange_NaN_order :
  let a := [NewPoint nan 0; NewPoint 1 0; NewPoint 3 0]%float in
  let b := [NewPoint 1 0; NewPoint nan 0; NewPoint 3 0]%float in
  Permutation a b /\
  Points_XInRange a 2%float = Ok false /\
  Points_XInRange b 2%float = Ok true.
Proof.
  cbv zeta. split; [apply perm_swap|]. split; vm_compute; reflexivity.
Qed.

(** C10, amended: [XInRange] reads the point at index 0 first, so on an empty
    set it panics with an index error; on a non-empty set it returns, and when
    no abscissa is NaN it returns true exactly for min(x_k) <= x <= max(x_k),
    whatever the order of the points. *)
Theorem Points_XInRange_min_max :
  (forall x : float, Points_XInRange [] x = Panic IndexOutOfRange) /\
  (forall (ps : Points float) (x : float),
      ps <> [] -> exists inRange, Points_XInRange ps x = Ok inRange) /\
  (forall (ps : Points float) (x : float),
      ps <> [] ->
      (forall p, In p ps -> IsNaN (X p) = false) ->
      exists mn mx,
        In mn (map (@X float) ps) /\ In mx (map (@X float) ps) /\
        (forall p, In p ps ->
                   (mn <=? X p)%float = true /\ (X p <=? mx)%float = true) /\
        Points_XInRange ps x = Ok ((mn <=? x)%float && (x <=? mx)%float)).
Proof.
  split; [reflexivity|]. split; [intros ps x; apply Points_XInRange_ok|].
  intros [|p0 ps] x Hne Hnan; [congruence|].
  assert (H0 : IsNaN (X p0) = false) by (apply Hnan; left; reflexivity).
  destruct (xrange_scan_bounds ps [X p0] (X p0) (X p0)) as (Hmn & Hmx & Hb).
  - intros v [<-|[]]. exact H0.
  - intros p Hp. apply Hnan. right; exact Hp.
  - left; reflexivity.
  - left; reflexivity.
  - intros v [<-|[]]. split; now apply binary64_le_refl.
  - exists (fst (fold_left xrange_step ps (X p0, X p0))),
      (snd (fold_left xrange_step ps (X p0, X p0))).
    split; [exact Hmn|]. split; [exact Hmx|]. split; [|reflexivity].
    intros p Hp. apply Hb. change (In (X p) (map (@X float) (p0 :: ps))).
    now apply in_map.
Qed.

Lemma Points_XInRange_min_max_witness :
  exists mn mx,
    In mn (map (@X float) knots) /\ In mx (map (@X float) knots) /\
    (forall p, In p (knots (F:=float)) ->
               (mn <=? X p)%float = true /\ (X p <=? mx)%float = true) /\
    Points_XInRange knots 2%float = Ok ((mn <=? 2)%float && (2 <=? mx)%float).
Proof.
  refine (proj2 (proj2 Points_XInRange_min_max) knots 2%float _ _).
  - discriminate.
  - intros p [<-|[<-|[<-|[<-|[]]]]]; vm_compute; reflexivity.
Defined.

Ltac exactQ_some :=
  match goal with
  | |- ?l = Some ?q =>
      let v := eval vm_compute in l in
      match v with
      | Some ?a =>
          transitivity (Some a);
          [vm_compute; reflexivity
          |f_equal; apply Qc_is_canon; vm_compute; reflexivity]
      end
  end.

(** C7, as stated: in binary64 [Eval] would stay within relative tolerance
    1e-9 of the power sum for every finite x. For -2^60 + 2^60 x + x^2 at
    x = 1 (all of them exact binary64 values) the power sum is 1, while
    Horner's scheme rounds 1 * 1 + 2^60 to 2^60 and returns 0. *)
Lemma PolynomialFunction_Eval_cancellation :
  let cs := [- 2 ^ 60; 2 ^ 60; 1]%Z in
  let pf := {| coefficients := {| ptr := 0%nat; len := 3 |} |} in
  PolynomialFunction_Eval (F:=float) (map fromInt cs :: nil) pf (fromInt 1)
  = Ok 0%float /\
  map float_to_Qc (map fromInt cs) = map (fun c => Some (fromInt c)) cs /\
  float_to_Qc (fromInt 1) = Some (fromInt 1) /\
  float_to_Qc 0%float = Some (fromInt 0) /\
  powerSum (F:=Qc) (map fromInt cs) (fromInt 1) = fromInt 1 /\
  withinRelative (Q2Qc (1 # 1000000000)) (fromInt 0) (fromInt 1) = false.
Proof.
  cbv zeta. split; [vm_compute; reflexivity|]. split.
  { cbn [map]. repeat f_equal; exactQ_some. }
  split; [exactQ_some|]. split; [exactQ_some|]. split.
  - apply Qc_is_canon. vm_compute. reflexivity.
  - vm_compute. reflexivity.
Qed.

(** C7, amended: [Eval] is Horner's scheme from the highest coefficient down,
    in any arithmetic; over exact arithmetic it equals the power sum
    c0 + c1 x + ... + cn x^n for every x. (In binary64 each operation of the
    scheme is rounded, and no relative tolerance holds for all inputs.) *)
Theorem PolynomialFunction_Eval_power_sum :
  (forall (F : Type) (ops : Float64Ops F) (h : heap F) (pf : PolynomialFunction)
          (x : F),
      let cs := nth (ptr (coefficients pf)) h [] in
      len (coefficients pf) = Z.of_nat (length cs) -> cs <> [] ->
      PolynomialFunction_Eval h pf x = Ok (horner cs x)) /\
  (forall (h : heap Qc) (pf : PolynomialFunction) (x : Qc),
      let cs := nth (ptr (coefficients pf)) h [] in
      len (coefficients pf) = Z.of_nat (length cs) -> cs <> [] ->
      PolynomialFunction_Eval h pf x = Ok (powerSum cs x)).
Proof.
  split.
  - intros F ops h pf x cs Hlen Hne.
    now apply PolynomialFunction_Eval_horner.
  - intros h pf x cs Hlen Hne. rewrite <- exactQ_horner_powerSum.
    now apply PolynomialFunction_Eval_horner.
Qed.

Lemma PolynomialFunction_Eval_power_sum_witness :
  PolynomialFunction_Eval (F:=Qc)
    ([fromInt 1; fromInt 2; fromInt 3] :: nil)
    {| coefficients := {| ptr := 0%nat; len := 3 |} |} (fromInt 2)
  = Ok (powerSum [fromInt 1; fromInt 2; fromInt 3] (fromInt 2)).
Proof.
  refine (proj2 PolynomialFunction_Eval_power_sum
            ([fromInt 1; fromInt 2; fromInt 3] :: nil)
            {| coefficients := {| ptr := 0%nat; len := 3 |} |} (fromInt 2) _ _).
  - reflexivity.
  - discriminate.
Defined.





(** C4, as stated: [slope] would return NaN only if count < 2 or |sumXX| is
    below ten times the smallest positive float64. After the two points (0,0)
    and (2^600, 2^600) count is 2 and sumXX is +Inf, far above the threshold,
    yet sumXY is +Inf too and the quotient that [slope] returns is NaN. *)
Lemma slope_NaN_without_guard :
  let lsf :=
    NewLeastSquaresFunction (Some [NewPoint 0 0; NewPoint 0x1p600 0x1p600]%float) in
  count lsf = 2%Z /\
  sumXX lsf = infinity /\
  (PrimFloat.abs (sumXX lsf) <? 10 * SmallestNonzeroFloat64)%float = false /\
  slope lsf = nan.
Proof. cbv zeta. repeat split; vm_compute; reflexivity. Qed.

(** C4, amended: [slope] returns NaN whenever count < 2 or |sumXX| is below
    ten times the smallest positive float64, and otherwise returns
    sumXY / sumXX (which can be NaN as well); an accumulator fed zero points,
    one point, or only points that share one x value, such as (5,1), (5,9),
    yields a NaN slope. [slope] is a total function: the NaN is a returned
    value. *)
Theorem slope_NaN_sentinel :
  (forall lsf : LeastSquaresFunction,
      (count lsf < 2)%Z \/
      (PrimFloat.abs (sumXX lsf) <? 10 * SmallestNonzeroFloat64)%float = true ->
      slope lsf = nan) /\
  (forall lsf : LeastSquaresFunction,
      (2 <= count lsf)%Z ->
      (PrimFloat.abs (sumXX lsf) <? 10 * SmallestNonzeroFloat64)%float = false ->
      slope lsf = (sumXY lsf / sumXX lsf)%float) /\
  slope (NewLeastSquaresFunction None) = nan /\
  slope (NewLeastSquaresFunction (Some [])) = nan /\
  (forall x y : float,
      slope (NewLeastSquaresFunction (Some [NewPoint x y])) = nan) /\
  (forall (x : float) (pts : Points float),
      (forall p, In p pts -> X p = x) ->
      slope (NewLeastSquaresFunction (Some pts)) = nan) /\
  slope (NewLeastSquaresFunction (Some [NewPoint 5 1; NewPoint 5 9]%float)) = nan.
Proof.
  split; [|split; [|split; [|split; [|split; [|split]]]]].
  - intros lsf [H|H]; unfold slope.
    + destruct (Z.ltb_spec (count lsf) 2); [reflexivity|lia].
    + rewrite H. now destruct (count lsf <? 2)%Z.
  - intros lsf Hc Hx. unfold slope. rewrite Hx.
    destruct (Z.ltb_spec (count lsf) 2); [lia|reflexivity].
  - reflexivity.
  - reflexivity.
  - intros x y. reflexivity.
  - intros x pts Hx. apply slope_zeroOrNaN.
    apply (oneAbscissa_AppendPoints x pts Hx LeastSquaresFunction_zero).
    split; [left; reflexivity|exact I].
  - vm_compute. reflexivity.
Qed.

Lemma slope_NaN_sentinel_witness :
  slope (NewLeastSquaresFunction (Some [NewPoint 5 1; NewPoint 5 9; NewPoint 5 2]%float))
  = nan.
Proof.
  refine (proj1 (proj2 (proj2 (proj2 (proj2 (proj2 slope_NaN_sentinel)))))
            5%float [NewPoint 5 1; NewPoint 5 9; NewPoint 5 2]%float _).
  intros p [<-|[<-|[<-|[]]]]; reflexivity.
Defined.


(** * Further properties *)

(** ** Points: append, lookup and subset *)

Section PointsContainer.

Context {F : Type} {ops : Float64Ops F}.

Lemma index_app_l {A : Type} (l l' : list A) (i : Z) (a : A) :
  index l i = Ok a -> index (l ++ l') i = Ok a.
Proof.
  intros H. apply index_Ok_inv in H. destruct H as [Hi N].
  unfold index. destruct (Z.ltb_spec i 0); [lia|].
  rewrite nth_error_app1 by lia. now rewrite N.
Qed.

Lemma index_app_r {A : Type} (l l' : list A) (i : Z) :
  (0 <= i)%Z -> index (l ++ l') (Z.of_nat (length l) + i) = index l' i.
Proof.
  intros Hi. unfold index.
  destruct (Z.ltb_spec (Z.of_nat (length l) + i) 0); [lia|].
  destruct (Z.ltb_spec i 0); [lia|].
  rewrite nth_error_app2 by lia.
  replace (Z.to_nat (Z.of_nat (length l) + i) - length l)%nat with (Z.to_nat i) by lia.
  reflexivity.
Qed.

Lemma index_panic {A : Type} (l : list A) (i : Z) :
  ~ (0 <= i < Z.of_nat (length l))%Z -> index l i = Panic IndexOutOfRange.
Proof.
  intros Hi. unfold index.
  destruct (Z.ltb_spec i 0) as [Hn|Hp]; [reflexivity|].
  destruct (nth_error l (Z.to_nat i)) as [a|] eqn:E; [|reflexivity].
  assert (Z.to_nat i < length l)%nat by (apply nth_error_Some; congruence). lia.
Qed.

Lemma index_cases {A : Type} (l : list A) (i : Z) :
  (exists a, index l i = Ok a) \/ index l i = Panic IndexOutOfRange.
Proof.
  unfold index. destruct (i <? 0)%Z; [now right|].
  destruct (nth_error l (Z.to_nat i)) as [a|]; [left; now exists a|now right].
Qed.

(** X1: [AppendPoint] grows the set by one point, found at index [Len] of
    the old set, and [AppendPoints] grows it by the length of the other set,
    whose point [i] is found at index [Len + i]; both leave the points
    already there at their index. *)
Theorem Points_append_lookup (ps aps : Points F) (x y : F) :
  Points_Len (Points_AppendPoint ps x y) = (Points_Len ps + 1)%Z /\
  Points_At (Points_AppendPoint ps x y) (Points_Len ps) = Ok (NewPoint x y) /\
  (forall i p, Points_At ps i = Ok p ->
               Points_At (Points_AppendPoint ps x y) i = Ok p) /\
  Points_Len (Points_AppendPoints ps aps) = (Points_Len ps + Points_Len aps)%Z /\
  (forall i p, Points_At ps i = Ok p ->
               Points_At (Points_AppendPoints ps aps) i = Ok p) /\
  (forall i, (0 <= i)%Z ->
             Points_At (Points_AppendPoints ps aps) (Points_Len ps + i)
             = Points_At aps i).
Proof.
  unfold Points_Len, Points_At, Points_AppendPoint, Points_AppendPoints.
  repeat split.
  - rewrite length_app. cbn. lia.
  - replace (Z.of_nat (length ps)) with (Z.of_nat (length ps) + 0)%Z by lia.
    now rewrite index_app_r by lia.
  - intros i p. apply index_app_l.
  - rewrite length_app. lia.
  - intros i p. apply index_app_l.
  - intros i Hi. now apply index_app_r.
Qed.

(** X2: [At], [XAt] and [YAt] return the point, or its coordinate, at every
    index from 0 to [Len - 1] and panic with index out of range at every
    other index. [XDifference] and [YDifference] panic as soon as one of
    their two indices is out of range, and otherwise subtract the coordinate
    at the second index from the one at the first. *)
Theorem Points_At_bounds (ps : Points F) (i j : Z) :
  ((0 <= i < Points_Len ps)%Z ->
   exists p, Points_At ps i = Ok p /\
             Points_XAt ps i = Ok (X p) /\ Points_YAt ps i = Ok (Y p)) /\
  (~ (0 <= i < Points_Len ps)%Z ->
   Points_At ps i = Panic IndexOutOfRange /\
   Points_XAt ps i = Panic IndexOutOfRange /\
   Points_YAt ps i = Panic IndexOutOfRange /\
   Points_XDifference ps i j = Panic IndexOutOfRange /\
   Points_YDifference ps i j = Panic IndexOutOfRange /\
   Points_XDifference ps j i = Panic IndexOutOfRange /\
   Points_YDifference ps j i = Panic IndexOutOfRange) /\
  (forall p q, Points_At ps i = Ok p -> Points_At ps j = Ok q ->
               Points_XDifference ps i j = Ok (X p - X q)%f64 /\
               Points_YDifference ps i j = Ok (Y p - Y q)%f64).
Proof.
  unfold Points_Len, Points_At, Points_XAt, Points_YAt, Points_XDifference,
    Points_YDifference.
  split; [|split].
  - intros Hi. destruct (index_ok ps i Hi) as (p & E & _).
    exists p. rewrite E. auto.
  - intros Hi. rewrite (index_panic ps i Hi). cbn.
    repeat split; try reflexivity;
      destruct (index_cases ps j) as [[q ->]| ->]; reflexivity.
  - intros p q -> ->. split; reflexivity.
Qed.

(** The loop of [Subset] copies the cells it walks over. *)
Lemma Subset_loop (ps : Points F) :
  forall (n : nat) (k : Z) (acc : Points F),
    (0 <= k)%Z -> (k + Z.of_nat n <= Points_Len ps)%Z ->
    for_up_n n k
      (fun k nps =>
         if (k <? Points_Len ps)%Z
         then p <- index ps k ;; Ok (Points_AppendPoint nps (X p) (Y p))
         else Panic NilDereference)
      acc
    = Ok (acc ++ firstn n (skipn (Z.to_nat k) ps))%list.
Proof.
  induction n as [|n IH]; intros k acc Hk Hn.
  - cbn. now rewrite app_nil_r.
  - cbn [for_up_n]. destruct (Z.ltb_spec k (Points_Len ps)); [|lia].
    destruct (index_ok ps k) as (p & E & N); [unfold Points_Len in *; lia|].
    rewrite E. cbn [bind]. rewrite IH by lia.
    unfold Points_AppendPoint. rewrite <- app_assoc. f_equal. f_equal.
    rewrite (skipn_cons_nth ps _ p N). cbn [firstn app].
    replace (Z.to_nat (k + 1)) with (S (Z.to_nat k)) by lia.
    now destruct p.
Qed.

(** X3: on a set whose capacity is at least its length, [Subset] with
    0 <= fromIdx <= toIdx <= Len returns the toIdx - fromIdx points from
    index fromIdx on, in their order, so that point [i] of the result is
    point [fromIdx + i] of the set, and [Subset 0 Len] is the set itself.
    It panics when fromIdx is negative, when toIdx is below fromIdx and
    when toIdx exceeds the capacity. *)
Theorem Points_Subset_copy (cap : Z) (ps : Points F) (fromIdx toIdx : Z) :
  (Points_Len ps <= cap)%Z ->
  ((0 <= fromIdx <= toIdx)%Z -> (toIdx <= Points_Len ps)%Z ->
   exists sub,
     Points_Subset cap ps fromIdx toIdx = Ok sub /\
     sub = firstn (Z.to_nat (toIdx - fromIdx)) (skipn (Z.to_nat fromIdx) ps) /\
     Points_Len sub = (toIdx - fromIdx)%Z /\
     forall i, (0 <= i < toIdx - fromIdx)%Z ->
               Points_At sub i = Points_At ps (fromIdx + i)) /\
  Points_Subset cap ps 0 (Points_Len ps) = Ok ps /\
  ((fromIdx < 0 \/ toIdx < fromIdx \/ cap < toIdx)%Z ->
   exists p, Points_Subset cap ps fromIdx toIdx = Panic p).
Proof.
  intros Hcap.
  assert (Hin : forall a b, (0 <= a <= b)%Z -> (b <= Points_Len ps)%Z ->
                  Points_Subset cap ps a b
                  = Ok (firstn (Z.to_nat (b - a)) (skipn (Z.to_nat a) ps))).
  { intros a b Hab Hb. unfold Points_Subset.
    destruct (Z.ltb_spec (b - a) 0); [lia|].
    destruct (Z.leb_spec 0 a); [|lia]. destruct (Z.leb_spec a b); [|lia].
    destruct (Z.leb_spec b cap); [|lia]. cbn [andb negb].
    unfold for_up. rewrite Subset_loop by lia. reflexivity. }
  split; [|split].
  - intros Hft Hto. eexists. split; [now apply Hin|]. split; [reflexivity|].
    assert (Hlen : length (firstn (Z.to_nat (toIdx - fromIdx))
                             (skipn (Z.to_nat fromIdx) ps))
                   = Z.to_nat (toIdx - fromIdx)).
    { rewrite length_firstn, length_skipn. unfold Points_Len in *. lia. }
    split; [unfold Points_Len; rewrite Hlen; lia|].
    intros i Hi. unfold Points_At, index.
    destruct (Z.ltb_spec i 0); [lia|]. destruct (Z.ltb_spec (fromIdx + i) 0); [lia|].
    rewrite nth_error_firstn.
    destruct (Nat.ltb_spec (Z.to_nat i) (Z.to_nat (toIdx - fromIdx))); [|lia].
    rewrite nth_error_skipn.
    replace (Z.to_nat fromIdx + Z.to_nat i)%nat with (Z.to_nat (fromIdx + i)) by lia.
    reflexivity.
  - rewrite Hin by (unfold Points_Len; lia).
    rewrite Z.sub_0_r. unfold Points_Len. rewrite Nat2Z.id. cbn [Z.to_nat skipn].
    now rewrite firstn_all.
  - intros H. unfold Points_Subset.
    destruct (Z.ltb_spec (toIdx - fromIdx) 0); [eexists; reflexivity|].
    destruct (Z.leb_spec 0 fromIdx); cbn [andb negb]; [|eexists; reflexivity].
    destruct (Z.leb_spec fromIdx toIdx); cbn [andb negb]; [|lia].
    destruct (Z.leb_spec toIdx cap); cbn [andb negb]; [lia|eexists; reflexivity].
Qed.


End PointsContainer.

Lemma Points_Subset_copy_witness :
  exists sub,
    Points_Subset (F:=float) 8 knots 1 3 = Ok sub /\
    sub = firstn (Z.to_nat (3 - 1)) (skipn (Z.to_nat 1) knots) /\
    Points_Len sub = (3 - 1)%Z /\
    forall i, (0 <= i < 3 - 1)%Z -> Points_At sub i = Points_At knots (1 + i).
Proof.
  refine (proj1 (Points_Subset_copy (F:=float) 8 knots 1 3 _) _ _);
    cbn; lia.
Defined.



(** ** Points: swap, map and search *)

Section PointsOrder.

Context {F : Type} {ops : Float64Ops F}.

Lemma set_nth_perm_head {A : Type} (a b : A) :
  forall (t : list A) (j : nat),
    nth_error t j = Some b -> Permutation (a :: t) (b :: set_nth t j a).
Proof.
  induction t as [|c t IH]; intros [|j] H; cbn in *; try discriminate.
  - injection H as ->. apply perm_swap.
  - eapply perm_trans; [apply perm_swap|].
    eapply perm_trans; [apply perm_skip, (IH j H)|]. apply perm_swap.
Qed.

Lemma set_nth_swap_perm {A : Type} :
  forall (l : list A) (i j : nat) (a b : A),
    nth_error l i = Some a -> nth_error l j = Some b ->
    Permutation l (set_nth (set_nth l i b) j a).
Proof.
  induction l as [|c l IH]; intros [|i] [|j] a b Ha Hb; cbn in *;
    try discriminate.
  - injection Ha as ->. injection Hb as ->. apply Permutation_refl.
  - injection Ha as ->. now apply set_nth_perm_head.
  - injection Hb as ->. now apply set_nth_perm_head.
  - apply perm_skip. now apply IH.
Qed.

Lemma nth_error_set_nth {A : Type} (l : list A) (n m : nat) (v : A) :
  (n < length l)%nat ->
  nth_error (set_nth l n v) m = if Nat.eqb n m then Some v else nth_error l m.
Proof.
  intros Hn. destruct (Nat.eqb_spec n m) as [->|Hne].
  - now apply nth_error_set_nth_eq.
  - now apply nth_error_set_nth_neq.
Qed.

(** X5: [Swap] on two indices within the set exchanges the two points and
    leaves every other point at its index: the result is a permutation of
    the set, of the same length, and a second [Swap] on the same indices
    restores the set. With an index out of range [Swap] panics with index
    out of range. *)
Theorem Points_Swap_exchange (ps : Points F) (i j : Z) :
  ((0 <= i < Points_Len ps)%Z -> (0 <= j < Points_Len ps)%Z ->
   exists ps',
     Points_Swap ps i j = Ok ps' /\
     Permutation ps ps' /\
     Points_Len ps' = Points_Len ps /\
     Points_At ps' i = Points_At ps j /\
     Points_At ps' j = Points_At ps i /\
     (forall k, k <> i -> k <> j -> Points_At ps' k = Points_At ps k) /\
     Points_Swap ps' i j = Ok ps) /\
  (~ ((0 <= i < Points_Len ps)%Z /\ (0 <= j < Points_Len ps)%Z) ->
   Points_Swap ps i j = Panic IndexOutOfRange).
Proof.
  unfold Points_Len, Points_At. split.
  - intros Hi Hj. unfold Points_Swap.
    destruct (index_ok ps j Hj) as (pj & Ej & Nj).
    destruct (index_ok ps i Hi) as (pi & Ei & Ni).
    rewrite Ej, Ei. cbn [bind]. rewrite assign_ok by lia. cbn [bind].
    rewrite assign_ok by (rewrite length_set_nth; lia).
    set (ps' := set_nth (set_nth ps (Z.to_nat i) pj) (Z.to_nat j) pi).
    assert (Hlen : length ps' = length ps)
      by (unfold ps'; now rewrite !length_set_nth).
    assert (Hnth : forall m,
               nth_error ps' m
               = if Nat.eqb (Z.to_nat j) m then Some pi
                 else if Nat.eqb (Z.to_nat i) m then Some pj
                      else nth_error ps m).
    { intros m. unfold ps'.
      rewrite nth_error_set_nth by (rewrite length_set_nth; lia).
      now rewrite nth_error_set_nth by lia. }
    assert (Hidx : forall k, (0 <= k)%Z ->
               index ps' k
               = if Nat.eqb (Z.to_nat j) (Z.to_nat k) then Ok pi
                 else if Nat.eqb (Z.to_nat i) (Z.to_nat k) then Ok pj
                      else index ps k).
    { intros k Hk. unfold index. destruct (Z.ltb_spec k 0); [lia|].
      rewrite Hnth. destruct (Nat.eqb (Z.to_nat j) (Z.to_nat k)); [reflexivity|].
      destruct (Nat.eqb (Z.to_nat i) (Z.to_nat k)); reflexivity. }
    exists ps'. split; [reflexivity|]. split; [now apply set_nth_swap_perm|].
    split; [now rewrite Hlen|]. split; [|split; [|split]].
    + rewrite Hidx by lia. rewrite Nat.eqb_refl.
      destruct (Nat.eqb_spec (Z.to_nat j) (Z.to_nat i)) as [E|_]; [|reflexivity].
      assert (j = i) by lia. subst j. congruence.
    + rewrite Hidx by lia. now rewrite Nat.eqb_refl.
    + intros k Hki Hkj. destruct (Z.ltb_spec k 0) as [Hneg|Hpos].
      * unfold index. destruct (Z.ltb_spec k 0); [reflexivity|lia].
      * rewrite Hidx by lia.
        destruct (Nat.eqb_spec (Z.to_nat j) (Z.to_nat k)); [lia|].
        destruct (Nat.eqb_spec (Z.to_nat i) (Z.to_nat k)); [lia|]. reflexivity.
    + rewrite !Hidx by lia. rewrite !Nat.eqb_refl. cbn [bind].
      assert (Ei' : (if Nat.eqb (Z.to_nat j) (Z.to_nat i) then Ok pi else Ok pj)
                    = Ok pj).
      { destruct (Nat.eqb_spec (Z.to_nat j) (Z.to_nat i)) as [E|_]; [|reflexivity].
        assert (j = i) by lia. subst j. congruence. }
      rewrite Ei'. cbn [bind]. rewrite assign_ok by lia. cbn [bind].
      rewrite assign_ok by (rewrite length_set_nth; lia). f_equal.
      apply nth_error_ext. intros m.
      rewrite nth_error_set_nth by (rewrite length_set_nth; lia).
      rewrite nth_error_set_nth by lia. rewrite Hnth.
      destruct (Nat.eqb_spec (Z.to_nat j) m) as [<-|Hjm]; [exact (eq_sym Nj)|].
      destruct (Nat.eqb_spec (Z.to_nat i) m) as [<-|Him]; [exact (eq_sym Ni)|].
      reflexivity.
  - intros Hout. unfold Points_Swap.
    destruct (index_cases ps j) as [[pj Ej]| ->]; [|reflexivity].
    rewrite Ej. cbn [bind].
    destruct (index_cases ps i) as [[pi Ei]| ->]; [|reflexivity].
    apply index_Ok_inv in Ej, Ei. exfalso. apply Hout. lia.
Qed.


(** X7: on every set, ordered or not, [SearchNextIndex x] returns an index
    between 0 and [Len]; the point just before it, when there is one, has
    an abscissa that is not above [x], and the point at it, when there is
    one, has an abscissa above [x]. *)
Theorem Points_SearchNextIndex_bounds (ps : Points F) (x : F) :
  exists i, Points_SearchNextIndex ps x = Ok i /\ (0 <= i <= Points_Len ps)%Z /\
            (i = 0%Z \/ exists p, index ps (i - 1) = Ok p /\ (x <? X p)%f64 = false) /\
            (i = Points_Len ps \/ exists p, index ps i = Ok p /\ (x <? X p)%f64 = true).
Proof.
  unfold Points_SearchNextIndex, sort_Search.
  destruct (sort_Search_loop_spec (Points_Len ps) _ (nextPred ps x)
              (nextPred_index ps x) (Z.to_nat (Points_Len ps)) 0%Z (Points_Len ps))
    as (r & E & Hr & Hlo & Hhi); unfold Points_Len in *; try lia.
  exists r. split; [exact E|]. split; [lia|]. split.
  - destruct (Z.eq_dec r 0) as [->|Hr0]; [now left|]. right.
    destruct Hlo as [->|Hlo]; [congruence|].
    destruct (index_ok ps (r - 1)) as (p & Ep & N); [lia|].
    exists p. split; [exact Ep|]. unfold nextPred in Hlo. now rewrite N in Hlo.
  - destruct (Z.eq_dec r (Z.of_nat (length ps))) as [->|Hrn]; [now left|]. right.
    destruct Hhi as [->|Hhi]; [congruence|].
    destruct (index_ok ps r) as (p & Ep & N); [lia|].
    exists p. split; [exact Ep|]. unfold nextPred in Hhi. now rewrite N in Hhi.
Qed.

End PointsOrder.

(** ** The order of points on binary64 *)

Lemma binary64_lt_irrefl (a : float) : (a <? a)%float = false.
Proof.
  sf_start. destruct (Prim2SF a) as [[]|[]| |[] ? ?]; try reflexivity; sf_order.
Qed.

Lemma binary64_lt_asym (a b : float) :
  (a <? b)%float = true -> (b <? a)%float = false.
Proof.
  sf_start.
  destruct (Prim2SF a) as [[]|[]| |[] ? ?], (Prim2SF b) as [[]|[]| |[] ? ?];
    intros H1; try discriminate; try reflexivity; sf_order.
Qed.

Lemma binary64_lt_trans (a b c : float) :
  (a <? b)%float = true -> (b <? c)%float = true -> (a <? c)%float = true.
Proof.
  sf_start.
  destruct (Prim2SF a) as [[]|[]| |[] ? ?], (Prim2SF b) as [[]|[]| |[] ? ?],
    (Prim2SF c) as [[]|[]| |[] ? ?]; intros H1 H2;
    try discriminate; try reflexivity; sf_order.
Qed.

Lemma binary64_le_not_lt (a b : float) :
  (a <=? b)%float = true -> (b <? a)%float = false.
Proof.
  sf_start.
  destruct (Prim2SF a) as [[]|[]| |[] ? ?], (Prim2SF b) as [[]|[]| |[] ? ?];
    intros H1; try discriminate; try reflexivity; sf_order.
Qed.

Lemma binary64_le_not_NaN (a b : float) :
  (a <=? b)%float = true -> IsNaN a = false /\ IsNaN b = false.
Proof.
  sf_start.
  destruct (Prim2SF a) as [[]|[]| |[] ? ?], (Prim2SF b) as [[]|[]| |[] ? ?];
    intros H1; try discriminate; split; try reflexivity; sf_order.
Qed.

(** Neither below the other: equal, when neither is NaN. *)
Lemma binary64_trichotomy (a b : float) :
  IsNaN a = false -> IsNaN b = false ->
  (a <? b)%float = false -> (b <? a)%float = false -> (a =? b)%float = true.
Proof.
  sf_start.
  destruct (Prim2SF a) as [[]|[]| |[] ? ?], (Prim2SF b) as [[]|[]| |[] ? ?];
    intros Ha Hb H1 H2; try discriminate; try reflexivity; sf_order.
Qed.

Lemma binary64_eq_lt (a b c : float) :
  (a =? b)%float = true -> (b <? c)%float = (a <? c)%float.
Proof.
  sf_start.
  destruct (Prim2SF a) as [[]|[]| |[] ? ?], (Prim2SF b) as [[]|[]| |[] ? ?],
    (Prim2SF c) as [[]|[]| |[] ? ?]; intros H1;
    try discriminate; try reflexivity; sf_order.
Qed.

Lemma binary64_lt_eq (a b c : float) :
  (b =? c)%float = true -> (a <? b)%float = (a <? c)%float.
Proof.
  sf_start.
  destruct (Prim2SF a) as [[]|[]| |[] ? ?], (Prim2SF b) as [[]|[]| |[] ? ?],
    (Prim2SF c) as [[]|[]| |[] ? ?]; intros H1;
    try discriminate; try reflexivity; sf_order.
Qed.

Lemma binary64_le_eq (a b c : float) :
  (b =? c)%float = true -> (a <=? b)%float = (a <=? c)%float.
Proof.
  sf_start.
  destruct (Prim2SF a) as [[]|[]| |[] ? ?], (Prim2SF b) as [[]|[]| |[] ? ?],
    (Prim2SF c) as [[]|[]| |[] ? ?]; intros H1;
    try discriminate; try reflexivity; sf_order.
Qed.

Lemma binary64_eq_refl (a : float) : IsNaN a = false -> (a =? a)%float = true.
Proof.
  unfold IsNaN. now destruct (a =? a)%float.
Qed.

Lemma binary64_NaN_compare (a b : float) :
  IsNaN a = true ->
  (a <? b)%float = false /\ (b <? a)%float = false /\
  (a <=? b)%float = false /\ (b <=? a)%float = false.
Proof.
  sf_start.
  destruct (Prim2SF a) as [[]|[]| |[] ? ?], (Prim2SF b) as [[]|[]| |[] ? ?];
    intros H1; try discriminate; repeat split; try reflexivity; sf_order.
Qed.

Lemma binary64_eq_not_NaN (a b : float) :
  (a =? b)%float = true -> IsNaN a = false /\ IsNaN b = false.
Proof.
  sf_start.
  destruct (Prim2SF a) as [[]|[]| |[] ? ?], (Prim2SF b) as [[]|[]| |[] ? ?];
    intros H1; try discriminate; split; try reflexivity; sf_order.
Qed.

(** ** Less: the order sort.Sort uses *)

Lemma lessPoint_irrefl (p : Point float) : lessPoint p p = false.
Proof.
  unfold lessPoint. cbn [flt binary64].
  now rewrite !binary64_lt_irrefl.
Qed.

Lemma lessPoint_asym (p q : Point float) :
  lessPoint p q = true -> lessPoint q p = false.
Proof.
  unfold lessPoint. cbn [flt binary64].
  destruct (X p <? X q)%float eqn:E1.
  - intros _. now rewrite (binary64_lt_asym _ _ E1).
  - destruct (X q <? X p)%float eqn:E2; [discriminate|].
    destruct (Y p <? Y q)%float eqn:E3.
    + intros _. now rewrite (binary64_lt_asym _ _ E3).
    + now destruct (Y q <? Y p)%float.
Qed.

Lemma lessPoint_trans (p q r : Point float) :
  IsNaN (X p) = false -> IsNaN (X q) = false -> IsNaN (X r) = false ->
  lessPoint p q = true -> lessPoint q r = true -> lessPoint p r = true.
Proof.
  intros Np Nq Nr. unfold lessPoint. cbn [flt binary64].
  destruct (X p <? X q)%float eqn:E1.
  - intros _. destruct (X q <? X r)%float eqn:E2.
    + intros _. now rewrite (binary64_lt_trans _ _ _ E1 E2).
    + destruct (X r <? X q)%float eqn:E3; [discriminate|]. intros _.
      pose proof (binary64_trichotomy _ _ Nq Nr E2 E3) as Eq.
      now rewrite <- (binary64_lt_eq (X p) _ _ Eq), E1.
  - destruct (X q <? X p)%float eqn:E2; [discriminate|].
    pose proof (binary64_trichotomy _ _ Np Nq E1 E2) as Epq.
    destruct (Y p <? Y q)%float eqn:E3;
      [|destruct (Y q <? Y p)%float; discriminate].
    intros _. rewrite <- (binary64_eq_lt _ _ (X r) Epq).
    destruct (X q <? X r)%float eqn:E4; [reflexivity|].
    destruct (X r <? X q)%float eqn:E5; [discriminate|].
    pose proof (binary64_trichotomy _ _ Nq Nr E4 E5) as Eqr.
    rewrite (binary64_lt_eq (X r) _ _ Epq), E5.
    destruct (Y q <? Y r)%float eqn:E6;
      [|destruct (Y r <? Y q)%float; discriminate].
    intros _. now rewrite (binary64_lt_trans _ _ _ E3 E6).
Qed.

Lemma lessPoint_total (p q : Point float) :
  Point_IsNaN p = false -> Point_IsNaN q = false ->
  lessPoint p q = false -> lessPoint q p = false ->
  (X p =? X q)%float = true /\ (Y p =? Y q)%float = true.
Proof.
  unfold Point_IsNaN, lessPoint. cbn [flt binary64].
  intros Hp Hq. apply orb_false_iff in Hp, Hq.
  destruct Hp as [Npx Npy], Hq as [Nqx Nqy].
  destruct (X p <? X q)%float eqn:E1; [discriminate|].
  destruct (X q <? X p)%float eqn:E2.
  - intros _. discriminate.
  - destruct (Y p <? Y q)%float eqn:E3; [discriminate|].
    destruct (Y q <? Y p)%float eqn:E4; [intros _; discriminate|].
    intros _ _. split; now apply binary64_trichotomy.
Qed.

(** X8: in binary64 [Less] is a strict order on the points of a set: no
    point is less than itself, two points are never less than each other,
    [Less] is transitive on points whose abscissae are not NaN, and two
    points without a NaN coordinate of which neither is less than the other
    have equal coordinates. *)
Theorem Points_Less_strict_order (ps : Points float) (i j k : Z)
  (p q r : Point float) :
  Points_At ps i = Ok p -> Points_At ps j = Ok q -> Points_At ps k = Ok r ->
  Points_Less ps i i = Ok false /\
  (Points_Less ps i j = Ok true -> Points_Less ps j i = Ok false) /\
  (IsNaN (X p) = false -> IsNaN (X q) = false -> IsNaN (X r) = false ->
   Points_Less ps i j = Ok true -> Points_Less ps j k = Ok true ->
   Points_Less ps i k = Ok true) /\
  (Point_IsNaN p = false -> Point_IsNaN q = false ->
   Points_Less ps i j = Ok false -> Points_Less ps j i = Ok false ->
   (X p =? X q)%float = true /\ (Y p =? Y q)%float = true).
Proof.
  unfold Points_At, Points_Less. intros -> -> ->. cbn [bind].
  split; [now rewrite lessPoint_irrefl|]. split; [|split].
  - intros [= H]. now rewrite (lessPoint_asym _ _ H).
  - intros Np Nq Nr [= H1] [= H2]. now rewrite (lessPoint_trans p q r).
  - intros Np Nq [= H1] [= H2]. now apply lessPoint_total.
Qed.

Lemma Points_Less_strict_order_witness :
  Points_Less (F:=float) knots 1 1 = Ok false /\
  (Points_Less (F:=float) knots 1 2 = Ok true ->
   Points_Less (F:=float) knots 2 1 = Ok false) /\
  (IsNaN (X (pt (F:=float) 1 1)) = false -> IsNaN (X (pt (F:=float) 2 0)) = false ->
   IsNaN (X (pt (F:=float) 3 1)) = false ->
   Points_Less (F:=float) knots 1 2 = Ok true ->
   Points_Less (F:=float) knots 2 3 = Ok true ->
   Points_Less (F:=float) knots 1 3 = Ok true) /\
  (Point_IsNaN (pt 1 1) = false -> Point_IsNaN (pt 2 0) = false ->
   Points_Less (F:=float) knots 1 2 = Ok false ->
   Points_Less (F:=float) knots 2 1 = Ok false ->
   (X (pt (F:=float) 1 1) =? X (pt (F:=float) 2 0))%float = true /\
   (Y (pt (F:=float) 1 1) =? Y (pt (F:=float) 2 0))%float = true).
Proof.
  refine (Points_Less_strict_order knots 1 2 3 (pt 1 1) (pt 2 0) (pt 3 1) _ _ _);
    reflexivity.
Defined.

(** *** Sorted by Less, hence ascending *)

Lemma sort_IsSorted_loop_true (less : Z -> Z -> outcome bool) :
  forall k : nat,
    sort_IsSorted_loop k less = Ok true ->
    forall m, (1 <= m <= Z.of_nat k)%Z -> less m (m - 1)%Z = Ok false.
Proof.
  induction k as [|k IH]; intros H m Hm; [lia|].
  cbn [sort_IsSorted_loop] in H.
  apply bind_Ok in H. destruct H as (b & Eb & H).
  destruct b; [discriminate|].
  destruct (Z.eq_dec m (Z.of_nat (S k))) as [->|Hne]; [exact Eb|].
  apply IH; [exact H|lia].
Qed.

Lemma ascendingX_adjacent {F : Type} {ops : Float64Ops F} :
  forall ps : Points F,
    (forall (m : nat) (p q : Point F),
        nth_error ps m = Some p -> nth_error ps (S m) = Some q ->
        (X p <=? X q)%f64 = true) ->
    ascendingX ps = true.
Proof.
  induction ps as [|p ps IH]; intros H; [reflexivity|].
  cbn [ascendingX]. destruct ps as [|q ps]; [reflexivity|].
  apply andb_true_iff. split.
  - apply (H 0%nat); reflexivity.
  - apply IH. intros m p' q' Hp Hq. apply (H (S m)); assumption.
Qed.

(** X9: a set without a NaN abscissa that sort.IsSorted accepts under [Len]
    and [Less] has its abscissae in ascending order, and [SearchNextIndex x]
    then returns the index that splits it: no abscissa before the index is
    above [x], every abscissa from the index on is. *)
Theorem sort_IsSorted_ascendingX (ps : Points float) (x : float) :
  (forall p, In p ps -> IsNaN (X p) = false) ->
  sort_IsSorted (Points_Len ps) (Points_Less ps) = Ok true ->
  ascendingX ps = true /\
  exists i,
    Points_SearchNextIndex ps x = Ok i /\
    (0 <= i <= Points_Len ps)%Z /\
    (forall k p, (0 <= k < i)%Z -> index ps k = Ok p -> (x <? X p)%float = false) /\
    (forall k p, (i <= k)%Z -> index ps k = Ok p -> (x <? X p)%float = true).
Proof.
  intros Hnan Hs.
  assert (Ha : ascendingX ps = true).
  { apply ascendingX_adjacent. intros m p q Hp Hq.
    assert (Hm : (S m < length ps)%nat) by (apply nth_error_Some; congruence).
    pose proof (sort_IsSorted_loop_true _ _ Hs (Z.of_nat (S m))) as Hless.
    unfold Points_Less in Hless.
    unfold index in Hless.
    destruct (Z.ltb_spec (Z.of_nat (S m)) 0); [lia|].
    destruct (Z.ltb_spec (Z.of_nat (S m) - 1) 0); [lia|].
    rewrite Nat2Z.id in Hless.
    replace (Z.to_nat (Z.of_nat (S m) - 1)) with m in Hless by lia.
    rewrite Hp, Hq in Hless. cbn [bind] in Hless.
    specialize (Hless ltac:(unfold Points_Len; lia)).
    injection Hless as Hless. unfold lessPoint in Hless. cbn [flt binary64] in Hless.
    destruct (X q <? X p)%float eqn:E; [discriminate|].
    change ((X p <=? X q)%float = true).
    apply binary64_not_lt_le; auto.
    - apply Hnan. eapply nth_error_In; eassumption.
    - apply Hnan. eapply nth_error_In; eassumption. }
  split; [exact Ha|].
  exact (Points_SearchNextIndex_least (ops:=binary64) binary64_lt_le_trans ps x Ha).
Qed.

Lemma sort_IsSorted_ascendingX_witness :
  ascendingX (F:=float) knots = true /\
  exists i,
    Points_SearchNextIndex (F:=float) knots 1.5%float = Ok i /\
    (0 <= i <= Points_Len (F:=float) knots)%Z /\
    (forall k p, (0 <= k < i)%Z -> index knots k = Ok p ->
                 (1.5 <? X p)%float = false) /\
    (forall k p, (i <= k)%Z -> index knots k = Ok p -> (1.5 <? X p)%float = true).
Proof.
  refine (sort_IsSorted_ascendingX knots 1.5%float _ _).
  - intros p [<-|[<-|[<-|[<-|[]]]]]; reflexivity.
  - vm_compute. reflexivity.
Defined.


(** *** XInRange on ascending abscissae *)

Lemma last_cons_default {A : Type} :
  forall (rest : list A) (p l : A), last (p :: rest) l = last rest p.
Proof.
  induction rest as [|q rest IH]; intros p l; [reflexivity|].
  change (last (p :: q :: rest) l) with (last (q :: rest) l).
  now rewrite (IH q l), (IH q p).
Qed.

(** Along ascending abscissae the scan keeps the lower bound and moves the
    upper bound to the abscissa read last (up to the sign of a zero). *)
Lemma xrange_scan_ascending :
  forall (rest : Points float) (l : Point float) (mn mx : float),
    ascendingX (l :: rest) = true ->
    (mn <=? X l)%float = true ->
    (mx =? X l)%float = true ->
    let mm := fold_left xrange_step rest (mn, mx) in
    fst mm = mn /\ (snd mm =? X (last rest l))%float = true.
Proof.
  induction rest as [|p rest IH]; intros l mn mx Hs Hmn Hmx.
  - cbn. auto.
  - cbn [fold_left].
    change (ascendingX (l :: p :: rest))
      with ((X l <=? X p)%f64 && ascendingX (p :: rest))%bool in Hs.
    apply andb_true_iff in Hs. destruct Hs as [Hlp Hs].
    assert (Hlp' : (X l <=? X p)%float = true) by exact Hlp.
    assert (Hmnp : (mn <=? X p)%float = true)
      by (eapply binary64_le_trans; eassumption).
    destruct (binary64_le_not_NaN _ _ Hlp') as [Nl Np].
    assert (Hstep : xrange_step (mn, mx) p
                    = (mn, if (mx <? X p)%float then X p else mx)).
    { unfold xrange_step. cbn [fst snd flt binary64].
      now rewrite (binary64_le_not_lt _ _ Hmnp). }
    rewrite Hstep.
    assert (Hnew : ((if (mx <? X p)%float then X p else mx) =? X p)%float = true).
    { destruct (mx <? X p)%float eqn:E; [now apply binary64_eq_refl|].
      apply binary64_trichotomy; auto.
      - exact (proj1 (binary64_eq_not_NaN _ _ Hmx)).
      - rewrite (binary64_lt_eq (X p) _ _ Hmx). now apply binary64_le_not_lt. }
    pose proof (IH p mn (if (mx <? X p)%float then X p else mx) Hs Hmnp Hnew)
      as IH'.
    cbv zeta in IH'. destruct IH' as [H1 H2].
    split; [exact H1|].
    now rewrite last_cons_default.
Qed.

Lemma xrange_ascending (ps : Points float) (p0 : Point float) (x : float) :
  ascendingX ps = true ->
  Points_At ps 0 = Ok p0 ->
  Points_XInRange ps x = Ok ((X p0 <=? x)%float && (x <=? X (last ps p0))%float).
Proof.
  unfold Points_At. intros Hs H0. destruct ps as [|p rest]; [discriminate|].
  cbn in H0. injection H0 as <-. unfold Points_XInRange. cbn [index Z.ltb Z.to_nat
    nth_error bind tl].
  destruct rest as [|q rest].
  - reflexivity.
  - assert (Hpq : (X p <=? X q)%float = true).
    { change (ascendingX (p :: q :: rest))
        with ((X p <=? X q)%f64 && ascendingX (q :: rest))%bool in Hs.
      apply andb_true_iff in Hs. exact (proj1 Hs). }
    destruct (binary64_le_not_NaN _ _ Hpq) as [Np _].
    destruct (xrange_scan_ascending (q :: rest) p (X p) (X p) Hs
                (binary64_le_refl _ Np) (binary64_eq_refl _ Np)) as [H1 H2].
    cbv zeta in H1, H2. change (index (p :: q :: rest) 0) with (Ok p).
    cbn [bind]. rewrite H1.
    rewrite (last_cons_default (q :: rest) p p).
    cbn [fle binary64]. now rewrite (binary64_le_eq x _ _ H2).
Qed.

(** X10: on a set with ascending abscissae [XInRange x] says whether [x]
    lies between the abscissa of the first point and that of the last
    point, both included. *)
Theorem Points_XInRange_ascending (ps : Points float) (p0 : Point float) (x : float) :
  ascendingX ps = true ->
  Points_At ps 0 = Ok p0 ->
  Points_XInRange ps x = Ok ((X p0 <=? x)%float && (x <=? X (last ps p0))%float).
Proof. exact (xrange_ascending ps p0 x). Qed.

Lemma Points_XInRange_ascending_witness :
  Points_XInRange (F:=float) knots 2.5%float
  = Ok ((X (pt (F:=float) 0 0) <=? 2.5)%float
        && (2.5 <=? X (last (knots (F:=float)) (pt 0 0)))%float).
Proof.
  refine (Points_XInRange_ascending knots (pt 0 0) 2.5%float _ _); reflexivity.
Defined.

(** *** A NaN abscissa at index 0 *)

Lemma xrange_scan_NaN (v : float) :
  IsNaN v = true ->
  forall rest : Points float, fold_left xrange_step rest (v, v) = (v, v).
Proof.
  intros Hv. induction rest as [|p rest IH]; [reflexivity|].
  cbn [fold_left].
  assert (Hstep : xrange_step (v, v) p = (v, v)).
  { unfold xrange_step. cbn [fst snd flt binary64].
    destruct (binary64_NaN_compare v (X p) Hv) as (H1 & H2 & _).
    now rewrite H1, H2. }
  now rewrite Hstep.
Qed.

(** X11: when the abscissa of the first point is NaN, [XInRange] answers
    false for every [x], whatever the other points are; [Eval] of a spline
    constructed on such a set panics with "X out of range!" for every [x]. *)
Theorem Points_XInRange_NaN_first (h h' : heap float) (ps : Points float)
  (p0 : Point float) (csf : CubicSplineFunction float) :
  Points_At ps 0 = Ok p0 -> IsNaN (X p0) = true ->
  (forall x, Points_XInRange ps x = Ok false) /\
  (NewCubicSplineFunction h ps = Ok (Some csf, h') ->
   forall x, CubicSplineFunction_Eval h' csf x = Panic (Explicit "X out of range!")).
Proof.
  unfold Points_At. intros H0 Hnan.
  assert (Hx : forall x, Points_XInRange ps x = Ok false).
  { intros x. unfold Points_XInRange. rewrite H0. cbn [bind].
    rewrite (xrange_scan_NaN _ Hnan). cbn [fst snd fle binary64].
    destruct (binary64_NaN_compare (X p0) x Hnan) as (_ & _ & H3 & _).
    now rewrite H3. }
  split; [exact Hx|]. intros Hnew x.
  destruct (CubicSplineFunction_Eval_domain h h' ps csf x Hnew)
    as (_ & _ & Hout & _).
  apply Hout, Hx.
Qed.

Lemma Points_XInRange_NaN_first_witness :
  (forall x, Points_XInRange [NewPoint nan 0; NewPoint 1 1; NewPoint 2 0]%float x
             = Ok false) /\
  (NewCubicSplineFunction [] [NewPoint nan 0; NewPoint 1 1; NewPoint 2 0]%float
   = Ok (Some {| polynomials :=
                   repeat (Some {| coefficients := {| ptr := 0%nat; len := 4 |} |})
                     2%nat;
                 points := [NewPoint nan 0; NewPoint 1 1; NewPoint 2 0]%float |},
         [1; nan; nan; nan]%float :: nil) ->
   forall x,
     CubicSplineFunction_Eval ([1; nan; nan; nan]%float :: nil)
       {| polynomials :=
            repeat (Some {| coefficients := {| ptr := 0%nat; len := 4 |} |}) 2%nat;
          points := [NewPoint nan 0; NewPoint 1 1; NewPoint 2 0]%float |} x
     = Panic (Explicit "X out of range!")).
Proof.
  refine (Points_XInRange_NaN_first [] _ _ (NewPoint nan 0)%float _ _ _); reflexivity.
Defined.


(** ** What Eval of a constructed spline computes *)

Lemma Eval_constructed {F : Type} {ops : Float64Ops F}
  (h h' : heap F) (pts : Points F) (csf : CubicSplineFunction F) (x : F) :
  NewCubicSplineFunction h pts = Ok (Some csf, h') ->
  Points_XInRange pts x = Ok true ->
  exists b c d last r p,
    splineCoefficients pts = Ok (b, c, d) /\
    localCoefficients pts b c d (Points_Len pts - 2) = Ok last /\
    Points_SearchNextIndex pts x = Ok r /\
    Points_At pts (Z.min r (Points_Len pts - 2)) = Ok p /\
    CubicSplineFunction_Eval h' csf x = Ok (horner last (x - X p)%f64).
Proof.
  intros Hnew Hin.
  assert (Hn : (3 <= Points_Len pts)%Z).
  { destruct (Z.ltb_spec (Points_Len pts) 3) as [Hlt|]; [|assumption].
    rewrite NewCubicSplineFunction_nil in Hnew by assumption. discriminate. }
  destruct (NewCubicSplineFunction_result h pts Hn)
    as (b & c & d & arr & Eb & Erow & Harr & E).
  rewrite E in Hnew. injection Hnew as <- <-.
  destruct (Points_SearchNextIndex_ok pts x) as (r & Er & Hr).
  set (idx := Z.min r (Points_Len pts - 2)).
  assert (Hidx : (0 <= idx < Z.of_nat (length pts) - 1)%Z)
    by (unfold idx, Points_Len in *; lia).
  destruct (index_ok pts idx) as (p & Ep & _); [lia|].
  exists b, c, d, arr, r, p.
  split; [exact Eb|]. split; [exact Erow|]. split; [exact Er|].
  split; [exact Ep|].
  unfold CubicSplineFunction_Eval. cbn [points polynomials].
  rewrite Hin. cbn [bind negb]. rewrite Er. cbn [bind]. rewrite repeat_length.
  replace (if (Z.of_nat (length pts - 1) <=? r)%Z
           then (Z.of_nat (length pts - 1) - 1)%Z else r) with idx.
  2:{ unfold idx, Points_Len in *.
      destruct (Z.leb_spec (Z.of_nat (length pts - 1)) r); lia. }
  destruct (index_ok (repeat (Some {| coefficients :=
                                        {| ptr := length h; len := 4 |} |})
                        (length pts - 1)) idx) as (q & -> & N).
  { rewrite repeat_length. lia. }
  cbn [bind]. apply nth_error_In, repeat_spec in N. subst q.
  unfold Points_XAt. rewrite Ep. cbn [bind].
  apply PolynomialFunction_Eval_horner; cbn [coefficients ptr len].
  - apply nth_app_last.
  - rewrite Harr. reflexivity.
  - destruct arr; [discriminate|congruence].
Qed.

(** X12: [Eval] of a constructed spline, at an [x] that [XInRange] accepts,
    returns Horner's scheme on the four coefficients of the last interval
    (row n - 2 of [splineCoefficients]), evaluated at [x] minus the abscissa
    of the knot at index min ([SearchNextIndex x], n - 2): the interval
    looked up selects the knot that is subtracted, never the coefficients. *)
Theorem CubicSplineFunction_Eval_last_row {F : Type} {ops : Float64Ops F}
  (h h' : heap F) (pts : Points F) (csf : CubicSplineFunction F) (x : F) :
  NewCubicSplineFunction h pts = Ok (Some csf, h') ->
  Points_XInRange pts x = Ok true ->
  exists b c d last r p,
    splineCoefficients pts = Ok (b, c, d) /\
    localCoefficients pts b c d (Points_Len pts - 2) = Ok last /\
    Points_SearchNextIndex pts x = Ok r /\
    Points_At pts (Z.min r (Points_Len pts - 2)) = Ok p /\
    CubicSplineFunction_Eval h' csf x = Ok (horner last (x - X p)%f64).
Proof. exact (Eval_constructed h h' pts csf x). Qed.

Lemma CubicSplineFunction_Eval_last_row_witness :
  exists b c d last r p,
    splineCoefficients (F:=float) knots = Ok (b, c, d) /\
    localCoefficients knots b c d (Points_Len (F:=float) knots - 2) = Ok last /\
    Points_SearchNextIndex knots 0.5%float = Ok r /\
    Points_At knots (Z.min r (Points_Len (F:=float) knots - 2)) = Ok p /\
    CubicSplineFunction_Eval
      ([0; -0x1.5555555555554p-2; 2; -0x1.5555555555555p-1]%float :: nil)
      {| polynomials :=
           repeat (Some {| coefficients := {| ptr := 0%nat; len := 4 |} |}) 3%nat;
         points := knots |} 0.5%float
    = Ok (horner last (0.5%float - X p)%f64).
Proof.
  refine (CubicSplineFunction_Eval_last_row (F:=float) [] _ knots _ 0.5%float _ _).
  - vm_compute. reflexivity.
  - vm_compute. reflexivity.
Defined.

(** X13: on knots with ascending abscissae, in binary64, the interval [Eval]
    of a constructed spline uses for an [x] in range is never interval 0:
    its index [k] is at least 1, and unless [x] lies in the last interval
    the knot at [k] is right of [x], so the polynomial is evaluated at a
    negative offset. The coefficients are those stored for interval [k]. *)
Theorem CubicSplineFunction_Eval_skips_first_knot
  (h h' : heap float) (pts : Points float) (csf : CubicSplineFunction float)
  (x : float) :
  NewCubicSplineFunction h pts = Ok (Some csf, h') ->
  ascendingX pts = true ->
  Points_XInRange pts x = Ok true ->
  exists r k p,
    Points_SearchNextIndex pts x = Ok r /\
    k = Z.min r (Points_Len pts - 2) /\
    (1 <= k <= Points_Len pts - 2)%Z /\
    Points_At pts k = Ok p /\
    ((r <= Points_Len pts - 2)%Z -> (x <? X p)%float = true) /\
    exists last, storedCoefficients h' csf k = Ok last /\
                 CubicSplineFunction_Eval h' csf x = Ok (horner last (x - X p)%f64).
Proof.
  intros Hnew Hs Hin.
  destruct (Eval_constructed h h' pts csf x Hnew Hin)
    as (b & c & d & last & r & p & Eb & Erow & Er & Ep & Ev).
  assert (Hn : (3 <= Points_Len pts)%Z).
  { destruct (Z.ltb_spec (Points_Len pts) 3) as [Hlt|]; [|assumption].
    rewrite NewCubicSplineFunction_nil in Hnew by assumption. discriminate. }
  destruct (Points_SearchNextIndex_least (ops:=binary64) binary64_lt_le_trans pts x Hs)
    as (r' & Er' & Hr & Hlo & Hhi).
  rewrite Er in Er'. injection Er' as <-.
  destruct (index_ok pts 0) as (p0 & E0 & _); [unfold Points_Len in *; lia|].
  assert (Hr1 : (1 <= r)%Z).
  { destruct (Z.eq_dec r 0) as [->|]; [|lia]. exfalso.
    pose proof (Hhi 0%Z p0 ltac:(lia) E0) as Hlt.
    rewrite (xrange_ascending pts p0 x Hs E0) in Hin.
    injection Hin as Hin. apply andb_true_iff in Hin. destruct Hin as [Hle _].
    cbn [flt binary64] in Hlt.
    rewrite (binary64_le_not_lt _ _ Hle) in Hlt. discriminate. }
  exists r, (Z.min r (Points_Len pts - 2)), p.
  split; [exact Er|]. split; [reflexivity|]. split; [lia|]. split; [exact Ep|].
  split.
  - intros Hle. apply (Hhi (Z.min r (Points_Len pts - 2))); [lia|exact Ep].
  - exists last. split; [|exact Ev].
    destruct (NewCubicSplineFunction_result h pts Hn)
      as (b' & c' & d' & arr & Eb' & Erow' & Harr & E).
    rewrite E in Hnew. injection Hnew as <- <-.
    rewrite Eb in Eb'. injection Eb' as <- <- <-.
    rewrite Erow in Erow'. injection Erow' as <-.
    unfold storedCoefficients. cbn [polynomials].
    destruct (index_ok (repeat (Some {| coefficients :=
                                          {| ptr := length h; len := 4 |} |})
                          (length pts - 1)) (Z.min r (Points_Len pts - 2)))
      as (q & -> & N).
    { rewrite repeat_length. unfold Points_Len in *. lia. }
    cbn [bind]. apply nth_error_In, repeat_spec in N. subst q.
    cbn [coefficients ptr]. now rewrite nth_app_last.
Qed.

Lemma CubicSplineFunction_Eval_skips_first_knot_witness :
  let h : heap float :=
    ([0; -0x1.5555555555554p-2; 2; -0x1.5555555555555p-1]%float :: nil) in
  let csf := {| polynomials :=
                  repeat (Some {| coefficients := {| ptr := 0%nat; len := 4 |} |}) 3%nat;
                points := knots (F:=float) |} in
  exists r k p,
    Points_SearchNextIndex (F:=float) knots 0.5%float = Ok r /\
    k = Z.min r (Points_Len (F:=float) knots - 2) /\
    (1 <= k <= Points_Len (F:=float) knots - 2)%Z /\
    Points_At knots k = Ok p /\
    ((r <= Points_Len (F:=float) knots - 2)%Z -> (0.5 <? X p)%float = true) /\
    exists last, storedCoefficients h csf k = Ok last /\
                 CubicSplineFunction_Eval h csf 0.5%float
                 = Ok (horner last (0.5%float - X p)%f64).
Proof.
  refine (CubicSplineFunction_Eval_skips_first_knot [] _ knots _ 0.5%float _ _ _);
    vm_compute; reflexivity.
Defined.


(** ** The coefficients the spline constructor computes *)

Section SplineRows.

Context {F : Type} {ops : Float64Ops F}.

Local Open Scope f64_scope.

Ltac lens' :=
  rewrite ?length_set_nth, ?length_make, ?repeat_length in *;
  unfold Points_Len in *; lia.

Tactic Notation "step_index" "as" ident(a) ident(E) ident(N) :=
  cbn [bind];
  match goal with
  | |- context [index ?l ?i] =>
      destruct (index_ok l i) as (a & E & N); [lens'|rewrite E; cbn [bind]]
  end.

Ltac step_any :=
  let a := fresh "a" in
  let E := fresh "E" in
  let N := fresh "N" in
  step_index as a E N.

Ltac step_assign' :=
  cbn [bind];
  match goal with
  | |- context [assign ?l ?i ?v] =>
      rewrite (assign_ok l i v) by lens'; cbn [bind]
  end.

Lemma nth_error_make_0 (n : Z) :
  (0 < n)%Z -> nth_error (make (F:=F) n) 0 = Some zero.
Proof.
  intros Hn. unfold make. destruct (Z.to_nat n) eqn:E; [lia|]. reflexivity.
Qed.

Lemma nth_error_make (n : Z) (k : nat) :
  (k < Z.to_nat n)%nat -> nth_error (make (F:=F) n) k = Some zero.
Proof.
  intros Hk. unfold make. now apply nth_error_repeat.
Qed.

Lemma splineCoefficients_rows (pts : Points F) :
  (3 <= Points_Len pts)%Z ->
  exists z mu b c d,
    splineCoefficients pts = Ok (b, c, d) /\
    length b = (length pts - 1)%nat /\
    length c = length pts /\
    length d = (length pts - 1)%nat /\
    nth_error z 0 = Some zero /\ nth_error mu 0 = Some zero /\
    nth_error c (length pts - 1) = Some zero /\
    forall j, (j < length pts - 1)%nat -> splineRow pts z mu b c d j.
Proof.
  intros Hn. unfold splineCoefficients.
  set (intervals := (Points_Len pts - 1)%Z).
  assert (Hiv : intervals = (Z.of_nat (length pts) - 1)%Z) by reflexivity.
  (* differences *)
  destruct (for_up_inv
              (fun i (df : list F) =>
                 length df = Z.to_nat intervals /\
                 forall j pj pn,
                   (Z.of_nat j < i)%Z ->
                   nth_error pts j = Some pj -> nth_error pts (S j) = Some pn ->
                   nth_error df j = Some (X pn - X pj))
              (fun i differences =>
                 v <- Points_XDifference pts (i + 1) i ;; assign differences i v)
              0%Z intervals (make intervals)) as (df & -> & Hdf & Hdiff).
  { lens'. }
  { split; [apply length_make|]. intros; lia. }
  { intros i s Hi [Hs Hval]. unfold Points_XDifference.
    step_index as a Ea Na. step_index as a0 Ea0 Na0. step_assign'.
    eexists; split; [reflexivity|]. split; [lens'|].
    intros j pj pn Hj Hpj Hpn.
    destruct (Nat.eq_dec j (Z.to_nat i)) as [->|Hne].
    - rewrite nth_error_set_nth_eq by lens'.
      replace (Z.to_nat (i + 1)) with (S (Z.to_nat i)) in Na by lia.
      congruence.
    - rewrite nth_error_set_nth_neq by congruence. apply Hval; auto. lia. }
  cbn [bind].
  (* mu and z *)
  match goal with
  | |- context [for_up 1 intervals ?body ?init] =>
      destruct (for_up_inv
                  (fun _ (s : list F * list F) =>
                     length (fst s) = Z.to_nat intervals /\
                     length (snd s) = length pts /\
                     nth_error (fst s) 0 = Some zero /\
                     nth_error (snd s) 0 = Some zero)
                  body 1%Z intervals init) as ([mu z] & -> & Hmu & Hz & Hmu0 & Hz0)
  end.
  { lens'. }
  { cbn [fst snd]. split; [lens'|]. split; [lens'|].
    split; apply nth_error_make_0; lens'. }
  { intros i [mu z] Hi (Hmu & Hz & Hmu0 & Hz0). cbn [fst snd] in *.
    unfold Points_XDifference, Points_YAt.
    repeat first [step_any | step_assign'].
    eexists; split; [reflexivity|]. cbn [fst snd].
    split; [lens'|]. split; [lens'|].
    split; (rewrite nth_error_set_nth_neq by lia; assumption). }
  cbn [bind fst snd] in *.
  (* b, c and d *)
  match goal with
  | |- context [for_down (intervals - 1) 0 ?body ?init] =>
      destruct (for_down_inv
                  (fun i (s : list F * list F * list F) =>
                     length (fst (fst s)) = Z.to_nat intervals /\
                     length (snd (fst s)) = length pts /\
                     length (snd s) = Z.to_nat intervals /\
                     nth_error (snd (fst s)) (length pts - 1) = Some zero /\
                     forall j, (i < Z.of_nat j)%Z -> (j < length pts - 1)%nat ->
                               splineRow pts z mu (fst (fst s)) (snd (fst s)) (snd s) j)
                  body (intervals - 1)%Z 0%Z init)
        as ([[b c] d] & E & Hb & Hc & Hd & Hlast & Hrows)
  end.
  { lens'. }
  { cbn [fst snd]. split; [lens'|]. split; [lens'|]. split; [lens'|].
    split; [apply nth_error_make; lens'|]. intros j H1 H2. lens'. }
  { intros i [[b c] d] Hi (Hb & Hc & Hd & Hlast & Hrows). cbn [fst snd] in *.
    unfold Points_YDifference.
    step_index as zi Ezi Nzi. step_index as mui Emui Nmui.
    step_index as cn Ecn Ncn. step_assign'.
    step_index as pn Epn Npn. step_index as pj Epj Npj.
    step_index as di Edi Ndi. step_index as cn' Ecn' Ncn'.
    step_index as ci Eci Nci. step_assign'. step_assign'.
    eexists; split; [reflexivity|]. cbn [fst snd].
    split; [lens'|]. split; [lens'|]. split; [lens'|].
    replace (Z.to_nat (i + 1)) with (S (Z.to_nat i)) in * by lia.
    rewrite nth_error_set_nth_neq in Ncn' by lia.
    rewrite nth_error_set_nth_eq in Nci by lens'.
    assert (cn' = cn) by congruence. subst cn'.
    assert (ci = zi - mui * cn) by congruence.
    assert (Hdi : di = X pn - X pj).
    { rewrite (Hdiff (Z.to_nat i) pj pn) in Ndi; [congruence|lia|assumption|assumption]. }
    split; [rewrite nth_error_set_nth_neq by lens'; assumption|].
    intros j Hj1 Hj2. destruct (Nat.eq_dec j (Z.to_nat i)) as [->|Hne].
    - exists pj, pn, ci, cn, zi, mui.
      repeat split; try assumption.
      + rewrite nth_error_set_nth_eq by lens'. congruence.
      + rewrite nth_error_set_nth_neq by lia. assumption.
      + rewrite nth_error_set_nth_eq by lens'. subst di. reflexivity.
      + rewrite nth_error_set_nth_eq by lens'. subst di. reflexivity.
    - destruct (Hrows j) as (qj & qn & cj & cm & zj & muj & R1 & R2 & R3 & R4 & R5
                              & R6 & R7 & R8 & R9); [lia|assumption|].
      exists qj, qn, cj, cm, zj, muj. repeat split; try assumption.
      + rewrite nth_error_set_nth_neq by lia. assumption.
      + rewrite nth_error_set_nth_neq by lia. assumption.
      + rewrite nth_error_set_nth_neq by lia. assumption.
      + rewrite nth_error_set_nth_neq by lia. assumption. }
  cbn [fst snd] in *. exists z, mu, b, c, d. rewrite E.
  split; [reflexivity|]. split; [lens'|]. split; [lens'|]. split; [lens'|].
  split; [assumption|]. split; [assumption|]. split; [assumption|].
  intros j Hj. apply Hrows; lia.
Qed.

End SplineRows.


Lemma index_nth_error {A : Type} (l : list A) (k : nat) (a : A) :
  nth_error l k = Some a -> index l (Z.of_nat k) = Ok a.
Proof.
  intros H. unfold index. destruct (Z.ltb_spec (Z.of_nat k) 0); [lia|].
  now rewrite Nat2Z.id, H.
Qed.

(** X14: on three or more points [splineCoefficients] returns b, c and d of
    lengths n - 1, n and n - 1, with c zero at the last index and, for
    every interval i between the knots p and q,
    b_i = (Y q - Y p) / h - h * (c_(i+1) + 2 c_i) / 3 and
    d_i = (c_(i+1) - c_i) / (3 h), where h = X q - X p, with the operations
    in this order. *)
Theorem splineCoefficients_back_substitution {F : Type} {ops : Float64Ops F}
  (pts : Points F) :
  (3 <= Points_Len pts)%Z ->
  exists b c d,
    splineCoefficients pts = Ok (b, c, d) /\
    Z.of_nat (length b) = (Points_Len pts - 1)%Z /\
    Z.of_nat (length c) = Points_Len pts /\
    Z.of_nat (length d) = (Points_Len pts - 1)%Z /\
    index c (Points_Len pts - 1) = Ok zero /\
    forall i, (0 <= i < Points_Len pts - 1)%Z ->
      exists p q ci cn,
        Points_At pts i = Ok p /\ Points_At pts (i + 1) = Ok q /\
        index c i = Ok ci /\ index c (i + 1) = Ok cn /\
        index b i
        = Ok ((Y q - Y p) / (X q - X p)
              - (X q - X p) * (cn + fromInt 2 * ci) / fromInt 3)%f64 /\
        index d i = Ok ((cn - ci) / (fromInt 3 * (X q - X p)))%f64.
Proof.
  intros Hn.
  destruct (splineCoefficients_rows pts Hn)
    as (z & mu & b & c & d & E & Hb & Hc & Hd & _ & _ & Hlast & Hrows).
  exists b, c, d. unfold Points_Len in *.
  split; [exact E|]. split; [lia|]. split; [lia|]. split; [lia|]. split.
  - replace (Z.of_nat (length pts) - 1)%Z with (Z.of_nat (length pts - 1)) by lia.
    now apply index_nth_error.
  - intros i Hi.
    destruct (Hrows (Z.to_nat i)) as (pj & pn & cj & cn & zj & muj & R1 & R2 & R3
                                      & R4 & _ & _ & _ & R8 & R9); [lia|].
    exists pj, pn, cj, cn. unfold Points_At.
    replace (i + 1)%Z with (Z.of_nat (S (Z.to_nat i))) by lia.
    replace i with (Z.of_nat (Z.to_nat i)) at 1 3 5 6 by lia.
    repeat split; now apply index_nth_error.
Qed.

Lemma splineCoefficients_back_substitution_witness :
  exists b c d,
    splineCoefficients (F:=float) knots = Ok (b, c, d) /\
    Z.of_nat (length b) = (Points_Len (F:=float) knots - 1)%Z /\
    Z.of_nat (length c) = Points_Len (F:=float) knots /\
    Z.of_nat (length d) = (Points_Len (F:=float) knots - 1)%Z /\
    index c (Points_Len (F:=float) knots - 1) = Ok zero /\
    forall i, (0 <= i < Points_Len (F:=float) knots - 1)%Z ->
      exists p q ci cn,
        Points_At knots i = Ok p /\ Points_At knots (i + 1) = Ok q /\
        index c i = Ok ci /\ index c (i + 1) = Ok cn /\
        index b i
        = Ok ((Y q - Y p) / (X q - X p)
              - (X q - X p) * (cn + fromInt 2 * ci) / fromInt 3)%f64 /\
        index d i = Ok ((cn - ci) / (fromInt 3 * (X q - X p)))%f64.
Proof.
  refine (splineCoefficients_back_substitution (F:=float) knots _).
  cbn. lia.
Defined.

(** *** Over exact arithmetic the rows interpolate *)

Lemma exactQ_two : Q2Qc (inject_Z 2) = (1 + 1)%Qc.
Proof. apply Qc_is_canon. reflexivity. Qed.





(** ** The store: reads and writes through slices *)

Section Store.

Context {F : Type} {ops : Float64Ops F}.

Local Open Scope f64_scope.

Lemma nth_set_nth_eq {A : Type} (h : list A) (p : nat) (a d : A) :
  (p < length h)%nat -> nth p (set_nth h p a) d = a.
Proof.
  revert p; induction h as [|x h IH]; intros [|p] Hp; cbn in *; try lia; auto.
  apply IH. lia.
Qed.

Lemma nth_set_nth_neq {A : Type} (h : list A) (p q : nat) (a d : A) :
  p <> q -> nth q (set_nth h p a) d = nth q h d.
Proof.
  revert p q; induction h as [|x h IH]; intros [|p] [|q] Hpq; cbn; try congruence;
    auto.
Qed.

Lemma slice_set_ok (h : heap F) (s : slice) (i : Z) (v : F) :
  (ptr s < length h)%nat ->
  len s = Z.of_nat (length (nth (ptr s) h [])) ->
  (0 <= i < len s)%Z ->
  slice_set h s i v
  = Ok (set_nth h (ptr s) (set_nth (nth (ptr s) h []) (Z.to_nat i) v)).
Proof.
  intros Hp Hlen Hi. unfold slice_set.
  destruct (Z.leb_spec 0 i); [|lia]. destruct (Z.ltb_spec i (len s)); [|lia].
  cbn [andb]. rewrite assign_ok by lia. reflexivity.
Qed.

Lemma slice_valid_ptr (h : heap F) (s : slice) :
  len s = Z.of_nat (length (nth (ptr s) h [])) -> (0 < len s)%Z ->
  (ptr s < length h)%nat.
Proof.
  intros Hlen Hpos. destruct (Nat.lt_ge_cases (ptr s) (length h)) as [|Hge];
    [assumption|].
  rewrite nth_overflow in Hlen by assumption. cbn in Hlen. lia.
Qed.

(** X16: [NewPolynomialFunction] keeps the slice it is given, not a copy: a
    later write to that slice changes what [Eval] returns, which is
    Horner's scheme on the coefficients as they are at the time of the
    call. *)
Theorem PolynomialFunction_observes_writes (h : heap F) (s : slice) (i : Z)
  (v x : F) :
  len s = Z.of_nat (length (nth (ptr s) h [])) ->
  (0 <= i < len s)%Z ->
  exists pf h',
    NewPolynomialFunction s = Some pf /\
    PolynomialFunction_Eval h pf x = Ok (horner (nth (ptr s) h []) x) /\
    slice_set h s i v = Ok h' /\
    PolynomialFunction_Eval h' pf x
    = Ok (horner (set_nth (nth (ptr s) h []) (Z.to_nat i) v) x).
Proof.
  intros Hlen Hi.
  assert (Hp : (ptr s < length h)%nat) by (apply slice_valid_ptr; [assumption|lia]).
  exists {| coefficients := s |}. eexists.
  split.
  { unfold NewPolynomialFunction. destruct (Z.ltb_spec (len s) 1); [lia|reflexivity]. }
  split.
  { apply PolynomialFunction_Eval_horner; cbn [coefficients]; auto.
    intros E. rewrite E in Hlen. cbn in Hlen. lia. }
  split; [now apply slice_set_ok|].
  apply PolynomialFunction_Eval_horner; cbn [coefficients].
  - now apply nth_set_nth_eq.
  - now rewrite length_set_nth.
  - intros E. apply (f_equal (@length F)) in E. rewrite length_set_nth in E.
    cbn in E. lia.
Qed.

(** X17: [Eval] returns a value on every polynomial that
    [NewPolynomialFunction] returns; on the empty coefficient slice, which
    the constructor refuses, it panics with index out of range; on a single
    coefficient it returns that coefficient for every [x]. *)
Theorem PolynomialFunction_Eval_total (h : heap F) (s : slice) (x : F) :
  len s = Z.of_nat (length (nth (ptr s) h [])) ->
  (forall pf, NewPolynomialFunction s = Some pf ->
              exists y, PolynomialFunction_Eval h pf x = Ok y) /\
  (NewPolynomialFunction s = None ->
   PolynomialFunction_Eval h {| coefficients := s |} x = Panic IndexOutOfRange) /\
  (len s = 1%Z ->
   forall c, nth (ptr s) h [] = [c] ->
             PolynomialFunction_Eval h {| coefficients := s |} x = Ok c).
Proof.
  intros Hlen. split; [|split].
  - intros pf Hpf. unfold NewPolynomialFunction in Hpf.
    destruct (Z.ltb_spec (len s) 1); [discriminate|]. injection Hpf as <-.
    eexists. apply PolynomialFunction_Eval_horner; cbn [coefficients]; auto.
    intros E. rewrite E in Hlen. cbn in Hlen. lia.
  - intros Hnil. unfold NewPolynomialFunction in Hnil.
    destruct (Z.ltb_spec (len s) 1); [|discriminate].
    unfold PolynomialFunction_Eval, slice_get. cbn [coefficients].
    destruct (Z.leb_spec 0 (len s - 1)); [|reflexivity].
    destruct (Z.ltb_spec (len s - 1) (len s)); [|reflexivity]. lia.
  - intros H1 c Hc.
    rewrite Hc in Hlen.
    now rewrite (PolynomialFunction_Eval_horner h {| coefficients := s |} [c] x
                   Hc Hlen ltac:(discriminate)).
Qed.

(** *** Differentiate *)

Lemma nth_error_derivativeFrom (cs : list F) :
  forall (i : Z) (k : nat),
    nth_error (derivativeFrom i cs) k
    = option_map (fun c => fromInt (i + Z.of_nat k) * c) (nth_error cs k).
Proof.
  induction cs as [|c cs IH]; intros i k.
  - destruct k; reflexivity.
  - destruct k as [|k]; cbn [derivativeFrom nth_error option_map].
    + now rewrite Z.add_0_r.
    + rewrite IH. destruct (nth_error cs k); [|reflexivity]. cbn [option_map].
      replace (i + 1 + Z.of_nat k)%Z with (i + Z.of_nat (S k))%Z by lia.
      reflexivity.
Qed.

Lemma length_derivativeFrom (cs : list F) :
  forall i, length (derivativeFrom i cs) = length cs.
Proof. induction cs as [|c cs IH]; intros i; cbn; auto. Qed.

Lemma slice_get_app (h : heap F) (arr : list F) (s : slice) (i : Z) :
  (ptr s < length h)%nat -> slice_get (h ++ [arr]) s i = slice_get h s i.
Proof.
  intros Hp. unfold slice_get. now rewrite app_nth1.
Qed.

Lemma Differentiate_result (h : heap F) (pf : PolynomialFunction) (cs : list F) :
  nth (ptr (coefficients pf)) h [] = cs ->
  len (coefficients pf) = Z.of_nat (length cs) ->
  (2 <= length cs)%nat ->
  PolynomialFunction_Differentiate h pf
  = Ok (Some {| coefficients := {| ptr := length h;
                                   len := Z.of_nat (length cs) - 1 |} |},
        h ++ [derivativeFrom 1 (tl cs)]).
Proof.
  intros Hcs Hlen Hn. unfold PolynomialFunction_Differentiate.
  set (n := len (coefficients pf)) in *.
  destruct (Z.eqb_spec n 1); [lia|]. destruct (Z.ltb_spec (n - 1) 0); [lia|].
  unfold alloc.
  set (s' := {| ptr := length h; len := n - 1 |}).
  assert (Hp : (ptr (coefficients pf) < length h)%nat).
  { apply slice_valid_ptr; [rewrite Hcs; exact Hlen|fold n; lia]. }
  destruct (for_down_inv
              (fun i (hh : heap F) =>
                 exists arr, hh = h ++ [arr] /\ length arr = Z.to_nat (n - 1) /\
                   forall k, (i <= Z.of_nat k)%Z -> (k < Z.to_nat (n - 1))%nat ->
                             nth_error arr k
                             = nth_error (derivativeFrom 1 (tl cs)) k)
              (fun i hh =>
                 c <- slice_get hh (coefficients pf) i ;;
                 slice_set hh s' (i - 1) (fromInt i * c))
              (n - 1)%Z 1%Z (h ++ [make (n - 1)]))
    as (h' & E & arr & -> & Harr & Hall).
  { lia. }
  { exists (make (n - 1)). split; [reflexivity|]. split; [apply length_make|].
    intros k H1 H2. lia. }
  { intros i hh Hi (arr & -> & Harr & Hall).
    rewrite slice_get_app by assumption.
    destruct (slice_get_ok h (coefficients pf) i) as (c & Ec & Nc);
      [fold n; lia|rewrite Hcs; exact Hlen|].
    rewrite Ec. cbn [bind]. rewrite slice_set_ok; cbn [ptr len s'].
    - eexists. split; [reflexivity|]. rewrite nth_app_last, set_nth_app_last.
      eexists. split; [reflexivity|]. split; [now rewrite length_set_nth|].
      intros k H1 H2. destruct (Nat.eq_dec k (Z.to_nat (i - 1))) as [->|Hne].
      + rewrite nth_error_set_nth_eq by lia.
        rewrite nth_error_derivativeFrom. rewrite Hcs in Nc.
        destruct cs as [|c0 cs']; [cbn in Hn; lia|]. cbn [tl].
        replace (Z.to_nat i) with (S (Z.to_nat (i - 1))) in Nc by lia.
        cbn [nth_error] in Nc. rewrite Nc. cbn [option_map].
        replace (1 + Z.of_nat (Z.to_nat (i - 1)))%Z with i by lia. reflexivity.
      + rewrite nth_error_set_nth_neq by congruence. apply Hall; lia.
    - rewrite length_app. cbn. lia.
    - rewrite nth_app_last. lia.
    - lia. }
  rewrite E. cbn [bind]. unfold NewPolynomialFunction. cbn [len s'].
  destruct (Z.ltb_spec (n - 1) 1); [lia|].
  replace (Z.of_nat (length cs) - 1)%Z with (n - 1)%Z by lia.
  do 4 f_equal. apply nth_error_ext. intros k.
  destruct (Nat.lt_ge_cases k (Z.to_nat (n - 1))) as [Hk|Hk].
  - apply Hall; lia.
  - rewrite (proj2 (nth_error_None _ _)) by lia.
    symmetry. apply nth_error_None. rewrite length_derivativeFrom.
    destruct cs; cbn in *; lia.
Qed.

End Store.

Lemma PolynomialFunction_observes_writes_witness :
  let h : heap float := fst samplePolynomial in
  let s := coefficients (snd samplePolynomial) in
  exists pf h',
    NewPolynomialFunction s = Some pf /\
    PolynomialFunction_Eval h pf 2%float = Ok (horner (nth (ptr s) h []) 2%float) /\
    slice_set h s 1 5%float = Ok h' /\
    PolynomialFunction_Eval h' pf 2%float
    = Ok (horner (set_nth (nth (ptr s) h []) (Z.to_nat 1) 5%float) 2%float).
Proof.
  refine (PolynomialFunction_observes_writes (F:=float) (fst samplePolynomial)
            (coefficients (snd samplePolynomial)) 1 5%float 2%float _ _).
  - reflexivity.
  - cbn. lia.
Defined.

Lemma PolynomialFunction_Eval_total_witness :
  let h : heap float := fst samplePolynomial in
  let s := coefficients (snd samplePolynomial) in
  (forall pf, NewPolynomialFunction s = Some pf ->
              exists y, PolynomialFunction_Eval h pf 2%float = Ok y) /\
  (NewPolynomialFunction s = None ->
   PolynomialFunction_Eval h {| coefficients := s |} 2%float = Panic IndexOutOfRange) /\
  (len s = 1%Z ->
   forall c, nth (ptr s) h [] = [c] ->
             PolynomialFunction_Eval h {| coefficients := s |} 2%float = Ok c).
Proof.
  refine (PolynomialFunction_Eval_total (F:=float) (fst samplePolynomial)
            (coefficients (snd samplePolynomial)) 2%float _).
  reflexivity.
Defined.


(** X18: [Differentiate] panics on a polynomial without coefficients;
    otherwise it returns a polynomial on a new array, leaving [Eval] of the
    original unchanged: the array is the single coefficient zero for a
    constant, and the coefficients 1 c_1, 2 c_2, ..., (n-1) c_(n-1) for
    c_0, ..., c_(n-1), on which [Eval] of the result is Horner's scheme. *)
Theorem PolynomialFunction_Differentiate_fresh {F : Type} {ops : Float64Ops F}
  (h : heap F) (pf : PolynomialFunction) (x : F) :
  len (coefficients pf) = Z.of_nat (length (nth (ptr (coefficients pf)) h [])) ->
  let cs := nth (ptr (coefficients pf)) h [] in
  (cs = [] ->
   PolynomialFunction_Differentiate h pf
   = Panic (Explicit "makeslice: len out of range")) /\
  (cs <> [] ->
   exists pf' arr,
     PolynomialFunction_Differentiate h pf = Ok (Some pf', h ++ [arr]) /\
     ptr (coefficients pf') = length h /\
     len (coefficients pf') = Z.of_nat (length arr) /\
     arr = match tl cs with
           | [] => [zero]
           | _ :: _ => derivativeFrom 1 (tl cs)
           end /\
     PolynomialFunction_Eval (h ++ [arr]) pf x = PolynomialFunction_Eval h pf x /\
     PolynomialFunction_Eval (h ++ [arr]) pf' x = Ok (horner arr x)).
Proof.
  intros Hlen cs. split.
  - intros Hnil. unfold PolynomialFunction_Differentiate.
    fold cs in Hlen. rewrite Hnil in Hlen. rewrite Hlen. reflexivity.
  - intros Hne. fold cs in Hlen.
    assert (Hp : (ptr (coefficients pf) < length h)%nat).
    { apply slice_valid_ptr; [exact Hlen|].
      fold cs in Hlen. rewrite Hlen. destruct cs; [congruence|cbn; lia]. }
    assert (Hsame : forall arr,
               PolynomialFunction_Eval (h ++ [arr]) pf x
               = PolynomialFunction_Eval h pf x).
    { intros arr.
      rewrite (PolynomialFunction_Eval_horner (h ++ [arr]) pf cs x);
        [|now rewrite app_nth1|exact Hlen|exact Hne].
      now rewrite (PolynomialFunction_Eval_horner h pf cs x). }
    destruct cs as [|c0 [|c1 t]] eqn:Ecs; [congruence| |].
    + exists {| coefficients := {| ptr := length h; len := 1 |} |}, [zero].
      unfold PolynomialFunction_Differentiate. rewrite Hlen. cbn [length Z.of_nat].
      cbn. split; [reflexivity|]. split; [reflexivity|]. split; [reflexivity|].
      split; [reflexivity|]. split; [apply Hsame|].
      apply (PolynomialFunction_Eval_horner _ _ [zero] x); cbn [coefficients ptr len].
      * apply nth_app_last.
      * reflexivity.
      * discriminate.
    + eexists. exists (derivativeFrom 1 (c1 :: t)).
      assert (Hn2 : (2 <= length (c0 :: c1 :: t))%nat) by (cbn [length]; lia).
      rewrite (Differentiate_result h pf (c0 :: c1 :: t) Ecs Hlen Hn2).
      split; [reflexivity|]. cbn [coefficients ptr len tl].
      split; [reflexivity|].
      split; [rewrite length_derivativeFrom; cbn [length]; lia|].
      split; [reflexivity|]. split; [apply Hsame|].
      apply PolynomialFunction_Eval_horner; cbn [coefficients ptr len].
      * apply nth_app_last.
      * rewrite length_derivativeFrom. cbn [length]. lia.
      * discriminate.
Qed.

Lemma PolynomialFunction_Differentiate_fresh_witness :
  let h : heap float := fst samplePolynomial in
  let pf := snd samplePolynomial in
  let cs := nth (ptr (coefficients pf)) h [] in
  (cs = [] ->
   PolynomialFunction_Differentiate h pf
   = Panic (Explicit "makeslice: len out of range")) /\
  (cs <> [] ->
   exists pf' arr,
     PolynomialFunction_Differentiate h pf = Ok (Some pf', h ++ [arr]) /\
     ptr (coefficients pf') = length h /\
     len (coefficients pf') = Z.of_nat (length arr) /\
     arr = match tl cs with
           | [] => [zero]
           | _ :: _ => derivativeFrom 1 (tl cs)
           end /\
     PolynomialFunction_Eval (h ++ [arr]) pf 2%float
     = PolynomialFunction_Eval h pf 2%float /\
     PolynomialFunction_Eval (h ++ [arr]) pf' 2%float = Ok (horner arr 2%float)).
Proof.
  refine (PolynomialFunction_Differentiate_fresh (F:=float)
            (fst samplePolynomial) (snd samplePolynomial) 2%float _).
  reflexivity.
Defined.

(** *** The derivative over exact arithmetic *)

Lemma powerSumFrom_derivativeFrom {F : Type} {ops : Float64Ops F} (x : F) :
  forall (t : list F) (i : nat),
    (1 <= i)%nat ->
    powerSumFrom (Nat.pred i) (derivativeFrom (Z.of_nat i) t) x
    = derivativeSumFrom i t x.
Proof.
  induction t as [|c t IH]; intros i Hi; [reflexivity|].
  cbn [derivativeFrom powerSumFrom derivativeSumFrom]. f_equal.
  replace (Z.of_nat i + 1)%Z with (Z.of_nat (S i)) by lia.
  replace (S (Nat.pred i)) with (Nat.pred (S i)) by lia.
  apply IH. lia.
Qed.

(** X19: over exact arithmetic [Eval] of [Differentiate] of a polynomial
    with coefficients c_0, ..., c_(n-1) at [x] is the derivative of its
    power sum, the sum of i c_i x^(i-1). *)
Theorem PolynomialFunction_Differentiate_exact (h : heap Qc)
  (pf : PolynomialFunction) (x : Qc) :
  len (coefficients pf) = Z.of_nat (length (nth (ptr (coefficients pf)) h [])) ->
  nth (ptr (coefficients pf)) h [] <> [] ->
  exists pf' h',
    PolynomialFunction_Differentiate h pf = Ok (Some pf', h') /\
    PolynomialFunction_Eval h' pf' x
    = Ok (derivativeSum (nth (ptr (coefficients pf)) h []) x).
Proof.
  intros Hlen Hne.
  assert (Hp : (ptr (coefficients pf) < length h)%nat).
  { apply slice_valid_ptr; [exact Hlen|]. rewrite Hlen.
    destruct (nth (ptr (coefficients pf)) h []); [congruence|cbn; lia]. }
  destruct (nth (ptr (coefficients pf)) h []) as [|c0 [|c1 t]] eqn:Ecs;
    [congruence| |].
  - exists {| coefficients := {| ptr := length h; len := 1 |} |}, (h ++ [[zero]]).
    split.
    { unfold PolynomialFunction_Differentiate. rewrite Hlen. reflexivity. }
    rewrite (PolynomialFunction_Eval_horner (h ++ [[zero]]) _ [zero] x);
      cbn [coefficients ptr len]; [|apply nth_app_last|reflexivity|discriminate].
    apply f_equal. unfold derivativeSum. cbn [derivativeSumFrom Nat.pred Z.of_nat].
    exactQ_ring.
  - eexists. exists (h ++ [derivativeFrom 1 (c1 :: t)]).
    assert (Hn2 : (2 <= length (c0 :: c1 :: t))%nat) by (cbn [length]; lia).
    split; [exact (Differentiate_result h pf (c0 :: c1 :: t) Ecs Hlen Hn2)|].
    rewrite (PolynomialFunction_Eval_horner _ _ (derivativeFrom 1 (c1 :: t)) x);
      cbn [coefficients ptr len].
    + apply f_equal. rewrite exactQ_horner_powerSum. unfold powerSum, derivativeSum.
      change (derivativeSumFrom 0 (c0 :: c1 :: t) x)
        with (fromInt (Z.of_nat 0) * c0 * fpow x (Nat.pred 0)
              + derivativeSumFrom 1 (c1 :: t) x)%f64.
      rewrite <- (powerSumFrom_derivativeFrom x (c1 :: t) 1) by lia.
      cbn [Nat.pred Z.of_nat Pos.of_succ_nat].
      generalize (powerSumFrom 0 (derivativeFrom 1 (c1 :: t)) x). intros s.
      exactQ_ring.
    + apply nth_app_last.
    + rewrite length_derivativeFrom. cbn [length]. lia.
    + discriminate.
Qed.

Lemma PolynomialFunction_Differentiate_exact_witness :
  exists pf' h',
    PolynomialFunction_Differentiate (F:=Qc)
      ([fromInt 1; fromInt 2; fromInt 3] :: nil)
      {| coefficients := {| ptr := 0%nat; len := 3 |} |} = Ok (Some pf', h') /\
    PolynomialFunction_Eval h' pf' (fromInt 5)
    = Ok (derivativeSum
            (nth (ptr (coefficients {| coefficients := {| ptr := 0%nat; len := 3 |} |}))
               ([fromInt 1; fromInt 2; fromInt 3] :: nil) [])
            (fromInt 5)).
Proof.
  refine (PolynomialFunction_Differentiate_exact
            ([fromInt 1; fromInt 2; fromInt 3] :: nil)
            {| coefficients := {| ptr := 0%nat; len := 3 |} |} (fromInt 5) _ _).
  - reflexivity.
  - discriminate.
Defined.

(** ** Least squares: counting, batches and NaN *)

Lemma LeastSquaresFunction_count_AppendPoints (pts : Points float) :
  forall lsf : LeastSquaresFunction,
    count (LeastSquaresFunction_AppendPoints lsf pts)
    = (count lsf + Points_Len pts)%Z.
Proof.
  unfold LeastSquaresFunction_AppendPoints, Points_Len.
  induction pts as [|p pts IH]; intros lsf; cbn [fold_left length].
  - lia.
  - rewrite IH. unfold LeastSquaresFunction_AppendPoint.
    destruct (count lsf =? 0)%Z; cbn [count]; lia.
Qed.

(** X20: [count] grows by the length of every set appended, so a new
    function counts the points it was given; appending two sets one after
    the other is appending their concatenation, and appending the points of
    a set to which a point was appended is appending that point last. *)
Theorem LeastSquaresFunction_batches (lsf : LeastSquaresFunction)
  (ps aps : Points float) :
  count (LeastSquaresFunction_AppendPoints lsf ps) = (count lsf + Points_Len ps)%Z /\
  count (NewLeastSquaresFunction (Some ps)) = Points_Len ps /\
  LeastSquaresFunction_AppendPoints lsf (Points_AppendPoints ps aps)
  = LeastSquaresFunction_AppendPoints (LeastSquaresFunction_AppendPoints lsf ps) aps /\
  (forall x y,
      LeastSquaresFunction_AppendPoints lsf (Points_AppendPoint ps x y)
      = LeastSquaresFunction_AppendPoint (LeastSquaresFunction_AppendPoints lsf ps) x y).
Proof.
  split; [apply LeastSquaresFunction_count_AppendPoints|]. split; [|split].
  - unfold NewLeastSquaresFunction.
    rewrite LeastSquaresFunction_count_AppendPoints. reflexivity.
  - unfold LeastSquaresFunction_AppendPoints, Points_AppendPoints.
    apply fold_left_app.
  - intros x y. unfold LeastSquaresFunction_AppendPoints, Points_AppendPoint.
    now rewrite fold_left_app.
Qed.

Lemma binary64_nan_mul_l (b : float) : (nan * b)%float = nan.
Proof.
  apply Prim2SF_inj. rewrite mul_spec. unfold SF64mul, SFmul.
  change (Prim2SF nan) with S754_nan. reflexivity.
Qed.

Lemma binary64_nan_sub_r (a : float) : (a - nan)%float = nan.
Proof.
  apply Prim2SF_inj. rewrite sub_spec. unfold SF64sub, SFsub.
  change (Prim2SF nan) with S754_nan. now destruct (Prim2SF a).
Qed.

Lemma binary64_nan_div_l (b : float) : (nan / b)%float = nan.
Proof.
  apply Prim2SF_inj. rewrite div_spec. unfold SF64div, SFdiv.
  change (Prim2SF nan) with S754_nan. reflexivity.
Qed.

Lemma binary64_nan_add_l (b : float) : (nan + b)%float = nan.
Proof.
  apply Prim2SF_inj. rewrite add_spec. unfold SF64add, SFadd.
  change (Prim2SF nan) with S754_nan. reflexivity.
Qed.

Lemma LeastSquaresFunction_Eval_NaN (lsf : LeastSquaresFunction) (x : float) :
  slope lsf = nan -> LeastSquaresFunction_Eval lsf x = nan.
Proof.
  intros H. unfold LeastSquaresFunction_Eval, intercept. rewrite H.
  now rewrite binary64_nan_mul_l, binary64_nan_sub_r, binary64_nan_div_l,
    binary64_nan_add_l.
Qed.

(** X21: a least squares function built on fewer than two points, or on
    points that all share one abscissa, has the slope NaN, the intercept
    NaN and returns NaN from [Eval] for every [x], without a panic. *)
Theorem LeastSquaresFunction_Eval_undefined (pts : Points float) (x : float) :
  (Points_Len pts < 2)%Z \/ (exists x0, forall p, In p pts -> X p = x0) ->
  slope (NewLeastSquaresFunction (Some pts)) = nan /\
  intercept (NewLeastSquaresFunction (Some pts)) nan = nan /\
  LeastSquaresFunction_Eval (NewLeastSquaresFunction (Some pts)) x = nan /\
  Function_Eval [] (NewLeastSquaresFunction (Some pts)) x = Ok nan.
Proof.
  intros H.
  assert (Hs : slope (NewLeastSquaresFunction (Some pts)) = nan).
  { destruct H as [Hlt|[x0 Hx]].
    - unfold slope.
      replace (count (NewLeastSquaresFunction (Some pts))) with (Points_Len pts).
      + destruct (Z.ltb_spec (Points_Len pts) 2); [reflexivity|lia].
      + unfold NewLeastSquaresFunction.
        rewrite LeastSquaresFunction_count_AppendPoints. reflexivity.
    - apply slope_zeroOrNaN.
      apply (oneAbscissa_AppendPoints x0 pts Hx LeastSquaresFunction_zero).
      split; [left; reflexivity|exact I]. }
  split; [exact Hs|]. split.
  - unfold intercept.
    now rewrite binary64_nan_mul_l, binary64_nan_sub_r, binary64_nan_div_l.
  - split.
    + now apply LeastSquaresFunction_Eval_NaN.
    + cbn [Function_Eval LeastSquaresFunction_Function]. f_equal.
      now apply LeastSquaresFunction_Eval_NaN.
Qed.

Lemma LeastSquaresFunction_Eval_undefined_witness :
  slope (NewLeastSquaresFunction (Some [NewPoint 5 1; NewPoint 5 9]%float)) = nan /\
  intercept (NewLeastSquaresFunction (Some [NewPoint 5 1; NewPoint 5 9]%float)) nan
  = nan /\
  LeastSquaresFunction_Eval
    (NewLeastSquaresFunction (Some [NewPoint 5 1; NewPoint 5 9]%float)) 7%float = nan /\
  Function_Eval [] (NewLeastSquaresFunction (Some [NewPoint 5 1; NewPoint 5 9]%float))
    7%float = Ok nan.
Proof.
  refine (LeastSquaresFunction_Eval_undefined
            [NewPoint 5 1; NewPoint 5 9]%float 7%float _).
  right. exists 5%float. intros p [<-|[<-|[]]]; reflexivity.
Defined.

(** ** Least squares over exact arithmetic *)

Lemma sumOf_app_last (g : Point Qc -> Qc) (pts : Points Qc) (p : Point Qc) :
  sumOf g (pts ++ [p]) = (sumOf g pts + g p)%Qc.
Proof.
  induction pts as [|q pts IH]; cbn [sumOf app].
  - exactQ_ring.
  - rewrite IH. exactQ_ring.
Qed.

Lemma exactQ_fromInt_nonzero (n : Z) : (0 < n)%Z -> Q2Qc (inject_Z n) <> 0%Qc.
Proof.
  intros H E. apply exactQ_fromInt_lt in H.
  change (Q2Qc (inject_Z 0)) with 0%Qc in H. rewrite E in H.
  exact (Qclt_not_eq _ _ H eq_refl).
Qed.

Lemma exactQ_fromInt_succ (n : Z) :
  Q2Qc (inject_Z (n + 1)) = (Q2Qc (inject_Z n) + 1)%Qc.
Proof. now rewrite exactQ_fromInt_plus. Qed.

(** The state of the accumulator after the points [pts], in closed form. *)
Lemma LeastSquaresSums_closed_form (pts : Points Qc) :
  pts <> [] ->
  let lsf := LeastSquaresSums_AppendPoints LeastSquaresSums_zero pts in
  let n := Q2Qc (inject_Z (Points_Len pts)) in
  let sx := sumOf (@X Qc) pts in
  let sy := sumOf (@Y Qc) pts in
  s_count lsf = Points_Len pts /\
  s_sumX lsf = sx /\ s_sumY lsf = sy /\
  s_xBar lsf = (sx / n)%Qc /\ s_yBar lsf = (sy / n)%Qc /\
  s_sumXX lsf = (sumOf (fun p => X p * X p) pts - sx * sx / n)%Qc /\
  s_sumYY lsf = (sumOf (fun p => Y p * Y p) pts - sy * sy / n)%Qc /\
  s_sumXY lsf = (sumOf (fun p => X p * Y p) pts - sx * sy / n)%Qc.
Proof.
  induction pts as [|p pts IH] using rev_ind; [congruence|]. intros _.
  cbv zeta. unfold LeastSquaresSums_AppendPoints, Points_Do.
  rewrite fold_left_app. cbn [fold_left].
  rewrite !sumOf_app_last.
  unfold Points_Len. rewrite length_app. cbn [length].
  replace (Z.of_nat (length pts + 1)) with (Z.of_nat (length pts) + 1)%Z by lia.
  destruct pts as [|q pts'].
  - cbn [fold_left length sumOf]. unfold LeastSquaresSums_AppendPoint.
    cbn [s_count LeastSquaresSums_zero Z.eqb s_sumX s_sumY s_xBar s_yBar s_sumXX
         s_sumYY s_sumXY Z.of_nat Z.add].
    repeat split; exactQ_ring; field; discriminate.
  - set (qs := q :: pts') in *.
    destruct IH as (Hc & Hx & Hy & Hxb & Hyb & Hxx & Hyy & Hxy); [discriminate|].
    unfold LeastSquaresSums_AppendPoints, Points_Do, Points_Len in *.
    set (acc := fold_left _ qs _) in *.
    assert (Hpos : (0 < Z.of_nat (length qs))%Z) by (subst qs; cbn [length]; lia).
    pose proof (exactQ_fromInt_nonzero _ Hpos) as Hn.
    assert (Hn1 : (Q2Qc (inject_Z (Z.of_nat (length qs))) + 1)%Qc <> 0%Qc).
    { rewrite <- exactQ_fromInt_succ. apply exactQ_fromInt_nonzero. lia. }
    unfold LeastSquaresSums_AppendPoint.
    destruct (Z.eqb_spec (s_count acc) 0) as [E|_]; [lia|].
    cbn [s_count s_sumX s_sumY s_xBar s_yBar s_sumXX s_sumYY s_sumXY].
    rewrite Hc, Hx, Hy, Hxb, Hyb, Hxx, Hyy, Hxy.
    cbn [fadd fsub fmul fdiv fromInt exactQ].
    rewrite !exactQ_fromInt_succ.
    set (N := Q2Qc (inject_Z (Z.of_nat (length qs)))) in *.
    repeat split; try reflexivity; field; auto.
Qed.

(** On [binary64] the sums are those of [LeastSquaresFunction]. *)
Lemma LeastSquaresSums_binary64 (pts : Points float) :
  forall lsf : LeastSquaresFunction,
    LeastSquaresFunction_sums (LeastSquaresFunction_AppendPoints lsf pts)
    = LeastSquaresSums_AppendPoints (LeastSquaresFunction_sums lsf) pts.
Proof.
  unfold LeastSquaresFunction_AppendPoints, LeastSquaresSums_AppendPoints, Points_Do.
  induction pts as [|p pts IH]; intros lsf; cbn [fold_left]; [reflexivity|].
  rewrite IH. f_equal.
  unfold LeastSquaresFunction_AppendPoint, LeastSquaresSums_AppendPoint,
    LeastSquaresFunction_sums.
  cbn [s_count]. destruct (count lsf =? 0)%Z; reflexivity.
Qed.

(** X22: over exact arithmetic the sums [AppendPoint] updates point by
    point are, after n >= 1 points, the moments of the points: [count] is
    n, [sumX] and [sumY] the sums of x and of y, [xBar] and [yBar] their
    means, and [sumXX], [sumYY], [sumXY] the centred sums: the sum of x*x
    minus (sum of x)^2 / n, and likewise for y*y and x*y. *)
Theorem LeastSquaresSums_running_moments (pts : Points Qc) :
  pts <> [] ->
  let lsf := LeastSquaresSums_AppendPoints LeastSquaresSums_zero pts in
  let n := fromInt (Points_Len pts) in
  let sx := sumOf (@X Qc) pts in
  let sy := sumOf (@Y Qc) pts in
  s_count lsf = Points_Len pts /\
  s_sumX lsf = sx /\ s_sumY lsf = sy /\
  s_xBar lsf = (sx / n)%f64 /\ s_yBar lsf = (sy / n)%f64 /\
  s_sumXX lsf = (sumOf (fun p => X p * X p) pts - sx * sx / n)%f64 /\
  s_sumYY lsf = (sumOf (fun p => Y p * Y p) pts - sy * sy / n)%f64 /\
  s_sumXY lsf = (sumOf (fun p => X p * Y p) pts - sx * sy / n)%f64.
Proof. exact (LeastSquaresSums_closed_form pts). Qed.

Lemma LeastSquaresSums_running_moments_witness :
  let pts : Points Qc := [pt 0 1; pt 1 3; pt 3 4] in
  let lsf := LeastSquaresSums_AppendPoints LeastSquaresSums_zero pts in
  let n := fromInt (Points_Len pts) in
  let sx := sumOf (@X Qc) pts in
  let sy := sumOf (@Y Qc) pts in
  s_count lsf = Points_Len pts /\
  s_sumX lsf = sx /\ s_sumY lsf = sy /\
  s_xBar lsf = (sx / n)%f64 /\ s_yBar lsf = (sy / n)%f64 /\
  s_sumXX lsf = (sumOf (fun p => X p * X p) pts - sx * sx / n)%f64 /\
  s_sumYY lsf = (sumOf (fun p => Y p * Y p) pts - sy * sy / n)%f64 /\
  s_sumXY lsf = (sumOf (fun p => X p * Y p) pts - sx * sy / n)%f64.
Proof.
  apply (LeastSquaresSums_running_moments [pt 0 1; pt 1 3; pt 3 4]). discriminate.
Defined.

Lemma sumOf_line (a b : Qc) (pts : Points Qc) :
  (forall p, In p pts -> Y p = (a * X p + b)%Qc) ->
  sumOf (@Y Qc) pts
  = (a * sumOf (@X Qc) pts + b * Q2Qc (inject_Z (Points_Len pts)))%Qc /\
  sumOf (fun p => X p * Y p)%f64 pts
  = (a * sumOf (fun p => X p * X p)%f64 pts + b * sumOf (@X Qc) pts)%Qc.
Proof.
  unfold Points_Len. induction pts as [|p pts IH]; intros H.
  - cbn [sumOf length Z.of_nat]. split; exactQ_ring.
  - destruct IH as [IH1 IH2]; [intros q Hq; apply H; now right|].
    cbn [sumOf length]. rewrite IH1, IH2, (H p (or_introl eq_refl)).
    replace (Z.of_nat (S (length pts))) with (Z.of_nat (length pts) + 1)%Z by lia.
    rewrite exactQ_fromInt_succ. split; exactQ_ring.
Qed.

(** X23: over exact arithmetic, on points that lie on the line
    y = a x + b and do not all share one abscissa, the quotient
    [sumXY / sumXX] that [slope] returns is [a], [intercept] of [a] is [b],
    and so [intercept + slope * x] is the line at every [x]. *)
Theorem LeastSquaresSums_recovers_line (a b : Qc) (pts : Points Qc) :
  (forall p, In p pts -> Y p = (a * X p + b)%f64) ->
  let lsf := LeastSquaresSums_AppendPoints LeastSquaresSums_zero pts in
  s_sumXX lsf <> zero ->
  (s_sumXY lsf / s_sumXX lsf)%f64 = a /\
  LeastSquaresSums_intercept lsf a = b /\
  forall x, (LeastSquaresSums_intercept lsf a + a * x)%f64 = (a * x + b)%f64.
Proof.
  intros Hline lsf Hxx.
  assert (Hne : pts <> []).
  { intros ->. apply Hxx. reflexivity. }
  destruct (LeastSquaresSums_closed_form pts Hne)
    as (Hc & Hx & Hy & _ & _ & Hsxx & _ & Hsxy).
  destruct (sumOf_line a b pts Hline) as [Ly Lxy].
  fold lsf in Hc, Hx, Hy, Hsxx, Hsxy.
  cbn [fadd fsub fmul fdiv fromInt exactQ] in Ly, Lxy, Hsxx, Hsxy.
  assert (Hn : Q2Qc (inject_Z (Points_Len pts)) <> 0%Qc).
  { apply exactQ_fromInt_nonzero. unfold Points_Len.
    destruct pts; [congruence|cbn [length]; lia]. }
  assert (Hxy : s_sumXY lsf = (a * s_sumXX lsf)%Qc).
  { rewrite Hsxy, Hsxx, Lxy, Ly.
    cbn [fadd fsub fmul fdiv fromInt exactQ]. field. exact Hn. }
  assert (Hi : LeastSquaresSums_intercept lsf a = b).
  { unfold LeastSquaresSums_intercept. rewrite Hy, Hx, Hc, Ly.
    cbn [fadd fsub fmul fdiv fromInt exactQ]. field. exact Hn. }
  split; [|split].
  - rewrite Hxy. cbn [fadd fsub fmul fdiv fromInt exactQ]. field. exact Hxx.
  - exact Hi.
  - intros x. rewrite Hi. exactQ_ring.
Qed.

Lemma LeastSquaresSums_recovers_line_witness :
  let a : Qc := fromInt 2 in
  let b : Qc := fromInt 1 in
  let lsf := LeastSquaresSums_AppendPoints LeastSquaresSums_zero
               [pt 0 1; pt 1 3; pt 3 7] in
  (s_sumXY lsf / s_sumXX lsf)%f64 = a /\
  LeastSquaresSums_intercept lsf a = b /\
  forall x, (LeastSquaresSums_intercept lsf a + a * x)%f64 = (a * x + b)%f64.
Proof.
  apply (LeastSquaresSums_recovers_line (fromInt 2) (fromInt 1)
           [pt 0 1; pt 1 3; pt 3 7]).
  - intros p [<-|[<-|[<-|[]]]]; apply Qc_is_canon; vm_compute; reflexivity.
  - intros E. apply (f_equal this) in E. vm_compute in E. discriminate.
Defined.

(** ** Points and vectors *)

Lemma binary64_add_comm (a b : float) : (a + b)%float = (b + a)%float.
Proof.
  apply Prim2SF_inj. rewrite !add_spec. unfold SF64add, SFadd.
  destruct (Prim2SF a) as [sa|sa| |sa ma ea], (Prim2SF b) as [sb|sb| |sb mb eb];
    try reflexivity; try (destruct sa, sb; reflexivity).
  cbv zeta. rewrite (Z.min_comm eb ea). f_equal. apply Z.add_comm.
Qed.

(** X24: in binary64 [MiddlePoint] and [AddVectors] do not depend on the
    order of their two arguments (all NaN values taken as one), whereas
    subtracting a vector that was added does not always restore the
    vector. *)
Theorem MiddlePoint_symmetric (a b : Point float) (u v : Vector float) :
  MiddlePoint a b = MiddlePoint b a /\
  AddVectors u v = AddVectors v u /\
  exists u' v' : Vector float, SubVectors (AddVectors u' v') v' <> u'.
Proof.
  split; [|split].
  - unfold MiddlePoint. cbn [fadd fdiv binary64].
    now rewrite (binary64_add_comm (X a)), (binary64_add_comm (Y a)).
  - unfold AddVectors. cbn [fadd binary64].
    now rewrite (binary64_add_comm (Vector_X u)), (binary64_add_comm (Vector_Y u)).
  - exists (NewVector 1 1)%float, (NewVector 0x1p60 0x1p60)%float.
    unfold SubVectors, AddVectors. cbn [Vector_X Vector_Y fadd fsub binary64].
    intros E. apply (f_equal Vector_X) in E. cbn [Vector_X] in E.
    apply (f_equal (fun f => PrimFloat.eqb f 1)) in E. vm_compute in E.
    discriminate.
Qed.

Lemma exactQ_half (a b : Qc) :
  (b - (a + b) / Q2Qc (inject_Z 2))%Qc = ((a + b) / Q2Qc (inject_Z 2) - a)%Qc.
Proof. rewrite exactQ_two. field. discriminate. Qed.

(** X25: over exact arithmetic the vector from [a] to the middle point of
    [a] and [b] is the vector from the middle point to [b]; the vectors
    from [a] to [b] and from [b] to [c] add up to the vector from [a] to
    [c]; the vector from [a] to [b] is the difference of the vectors from
    any [c] to [b] and to [a]; [SubVectors] undoes [AddVectors];
    [ScaleVector] distributes over [AddVectors]; scaling by -1 reverses a
    vector. *)
Theorem Vector_exact_algebra (a b c : Point Qc) (u v : Vector Qc) (s : Qc) :
  Point_VectorTo a (MiddlePoint a b) = Point_VectorTo (MiddlePoint a b) b /\
  AddVectors (Point_VectorTo a b) (Point_VectorTo b c) = Point_VectorTo a c /\
  PointVector a b = SubVectors (Point_VectorTo c b) (Point_VectorTo c a) /\
  SubVectors (AddVectors u v) v = u /\
  ScaleVector (AddVectors u v) s = AddVectors (ScaleVector u s) (ScaleVector v s) /\
  ScaleVector (Point_VectorTo a b) (fromInt (-1)) = Point_VectorTo b a.
Proof.
  unfold PointVector, Point_VectorTo, MiddlePoint, AddVectors, SubVectors, ScaleVector.
  cbn [X Y Vector_X Vector_Y fadd fsub fmul fdiv fromInt exactQ].
  destruct u as [ux uy], v as [vx vy]. cbn [Vector_X Vector_Y].
  repeat split; f_equal; try ring; try (symmetry; apply exactQ_half).
  all: change (Q2Qc (inject_Z (-1))) with (- (1))%Qc; ring.
Qed.

(** ** Distances and lengths on binary64 *)

Lemma binary_round_aux_sign (sx : bool) (mx ex : Z) (lx : location) :
  match binary_round_aux prec emax sx mx ex lx with
  | S754_nan => True
  | S754_zero s | S754_infinity s | S754_finite s _ _ => s = sx
  end.
Proof.
  unfold binary_round_aux.
  destruct (shr_fexp prec emax mx ex lx) as [mrs' e'].
  destruct (shr_fexp prec emax _ e' loc_Exact) as [mrs'' e''].
  destruct (shr_m mrs''); [reflexivity| |exact I].
  destruct (Z.leb e'' (emax - prec)); reflexivity.
Qed.

Lemma SFmul_square_nonNegative (x : spec_float) : nonNegative (SF64mul x x).
Proof.
  unfold SF64mul. destruct x as [s|s| |s m e]; cbn [SFmul nonNegative];
    try apply xorb_nilpotent; try exact I.
  pose proof (binary_round_aux_sign (xorb s s) (Z.pos (m * m)) (e + e) loc_Exact) as H.
  rewrite xorb_nilpotent in *. exact H.
Qed.

Lemma SFadd_nonNegative (x y : spec_float) :
  nonNegative x -> nonNegative y -> nonNegative (SF64add x y).
Proof.
  unfold SF64add.
  destruct x as [sx|sx| |sx mx ex], y as [sy|sy| |sy my ey];
    cbn [nonNegative]; intros Hx Hy; subst; try exact I; try reflexivity.
  unfold SFadd, cond_Zopp, binary_normalize.
  destruct (shl_align mx ex (Z.min ex ey)) as [m1 e1].
  destruct (shl_align my ey (Z.min ex ey)) as [m2 e2]. cbn [fst Z.add].
  unfold binary_round.
  destruct (shl_align _ _ _) as [mz ez].
  exact (binary_round_aux_sign false (Z.pos mz) ez loc_Exact).
Qed.

Lemma SFsqrt_nonNegative (x : spec_float) :
  nonNegative x -> nonNegative (SF64sqrt x).
Proof.
  unfold SF64sqrt.
  destruct x as [s|s| |s m e]; cbn [nonNegative]; intros H; subst; try exact I;
    try reflexivity.
  unfold SFsqrt. destruct (SFsqrt_core_binary prec emax (Z.pos m) e) as [[mz ez] lz].
  exact (binary_round_aux_sign false mz ez lz).
Qed.

Lemma binary64_nonNegative_lt (r : float) :
  nonNegative (Prim2SF r) -> (r <? 0)%float = false.
Proof.
  rewrite FloatAxioms.ltb_spec. change (Prim2SF 0) with (S754_zero false).
  destruct (Prim2SF r) as [s|s| |s m e]; cbn [nonNegative]; intros H; subst;
    reflexivity.
Qed.

Lemma IsNaN_Prim2SF (a : float) : IsNaN a = true <-> Prim2SF a = S754_nan.
Proof.
  unfold IsNaN. rewrite FloatAxioms.eqb_spec. unfold SFeqb, SFcompare.
  destruct (Prim2SF a) as [[]|[]| |[] m e]; cbn [negb]; split;
    try discriminate; try reflexivity.
  all: rewrite Z.compare_refl, Pos.compare_cont_refl; cbn; discriminate.
Qed.

Lemma IsInf_Prim2SF (a : float) :
  IsInf a = true <-> exists s, Prim2SF a = S754_infinity s.
Proof.
  unfold IsInf. rewrite !FloatAxioms.eqb_spec.
  change (Prim2SF infinity) with (S754_infinity false).
  change (Prim2SF neg_infinity) with (S754_infinity true).
  unfold SFeqb, SFcompare.
  destruct (Prim2SF a) as [[]|[]| |[] m e]; cbn; split;
    try discriminate; try (intros [s Hs]; discriminate); eauto.
Qed.

(** The value [sqrt (dx * dx + dy * dy)], on the specification side. *)
Lemma hypot_spec (dx dy : float) :
  Prim2SF (PrimFloat.sqrt (dx * dx + dy * dy)%float)
  = SF64sqrt (SF64add (SF64mul (Prim2SF dx) (Prim2SF dx))
                      (SF64mul (Prim2SF dy) (Prim2SF dy))).
Proof. now rewrite sqrt_spec, add_spec, !mul_spec. Qed.

Lemma hypot_nonNegative (dx dy : float) :
  nonNegative (Prim2SF (PrimFloat.sqrt (dx * dx + dy * dy)%float)).
Proof.
  rewrite hypot_spec.
  apply SFsqrt_nonNegative, SFadd_nonNegative; apply SFmul_square_nonNegative.
Qed.

Lemma hypot_NaN (dx dy : float) :
  Prim2SF dx = S754_nan \/ Prim2SF dy = S754_nan ->
  Prim2SF (PrimFloat.sqrt (dx * dx + dy * dy)%float) = S754_nan.
Proof.
  rewrite hypot_spec. intros [H|H]; rewrite H.
  - reflexivity.
  - unfold SF64sqrt, SF64add. cbn [SFmul SF64mul].
    now destruct (SF64mul (Prim2SF dx) (Prim2SF dx)).
Qed.

Lemma hypot_infinite (dx dy : float) :
  (exists s, Prim2SF dx = S754_infinity s) \/ (exists s, Prim2SF dy = S754_infinity s) ->
  Prim2SF (PrimFloat.sqrt (dx * dx + dy * dy)%float) = S754_infinity false \/
  Prim2SF (PrimFloat.sqrt (dx * dx + dy * dy)%float) = S754_nan.
Proof.
  rewrite hypot_spec. intros [[s H]|[s H]]; rewrite H.
  - pose proof (SFmul_square_nonNegative (Prim2SF dy)) as Hy.
    replace (SF64mul (S754_infinity s) (S754_infinity s)) with (S754_infinity false)
      by (now destruct s).
    destruct (SF64mul (Prim2SF dy) (Prim2SF dy)) as [sy|sy| |sy my ey];
      cbn [nonNegative] in Hy; subst; auto.
  - pose proof (SFmul_square_nonNegative (Prim2SF dx)) as Hx.
    replace (SF64mul (S754_infinity s) (S754_infinity s)) with (S754_infinity false)
      by (now destruct s).
    destruct (SF64mul (Prim2SF dx) (Prim2SF dx)) as [sx|sx| |sx mx ex];
      cbn [nonNegative] in Hx; subst; auto.
Qed.

Lemma SFsub_NaN (a b : float) :
  Prim2SF a = S754_nan \/ Prim2SF b = S754_nan -> Prim2SF (a - b)%float = S754_nan.
Proof.
  rewrite sub_spec. unfold SF64sub. intros [H|H]; rewrite H; [reflexivity|].
  now destruct (Prim2SF a).
Qed.

Lemma SFsub_infinite (a b : float) :
  (exists s, Prim2SF a = S754_infinity s) \/ (exists s, Prim2SF b = S754_infinity s) ->
  (exists s, Prim2SF (a - b)%float = S754_infinity s) \/
  Prim2SF (a - b)%float = S754_nan.
Proof.
  rewrite sub_spec. unfold SF64sub. intros [[s H]|[s H]]; rewrite H.
  - destruct (Prim2SF b) as [sb|sb| |sb mb eb]; cbn [SFsub]; eauto.
    destruct s, sb; eauto.
  - destruct (Prim2SF a) as [sa|sa| |sa ma ea]; cbn [SFsub]; eauto.
    destruct sa, s; eauto.
Qed.

(** X26: [DistanceTo] and [Len] never return a negative number;
    [DistanceTo] from [p] to [op] is [Len] of the vector from [op] to [p];
    both return NaN when a coordinate is NaN, and [DistanceTo] returns
    +Inf or NaN when a coordinate of either point is infinite. *)
Theorem Point_DistanceTo_range (p op : Point float) (v : Vector float) :
  (Point_DistanceTo p op <? 0)%float = false /\
  (Vector_Len v <? 0)%float = false /\
  Point_DistanceTo p op = Vector_Len (Point_VectorTo op p) /\
  (Point_IsNaN p = true \/ Point_IsNaN op = true ->
   IsNaN (Point_DistanceTo p op) = true) /\
  (Point_IsInf p = true \/ Point_IsInf op = true ->
   Point_DistanceTo p op = infinity \/ IsNaN (Point_DistanceTo p op) = true) /\
  (IsNaN (Vector_X v) = true \/ IsNaN (Vector_Y v) = true ->
   IsNaN (Vector_Len v) = true).
Proof.
  unfold Point_DistanceTo, Vector_Len, Point_VectorTo, Point_IsNaN, Point_IsInf.
  cbn [Vector_X Vector_Y fsub binary64].
  split; [apply binary64_nonNegative_lt, hypot_nonNegative|].
  split; [apply binary64_nonNegative_lt, hypot_nonNegative|].
  split; [reflexivity|]. split; [|split].
  - rewrite !orb_true_iff, !IsNaN_Prim2SF. intros H.
    apply hypot_NaN.
    destruct H as [[H|H]|[H|H]];
      [left|right|left|right]; apply SFsub_NaN; auto.
  - rewrite !orb_true_iff, !IsInf_Prim2SF, IsNaN_Prim2SF. intros H.
    assert (Hd : ((exists s, Prim2SF (X p - X op)%float = S754_infinity s) \/
                  Prim2SF (X p - X op)%float = S754_nan) \/
                 ((exists s, Prim2SF (Y p - Y op)%float = S754_infinity s) \/
                  Prim2SF (Y p - Y op)%float = S754_nan)).
    { destruct H as [[H|H]|[H|H]];
        [left|right|left|right]; apply SFsub_infinite; auto. }
    destruct Hd as [[Hd|Hd]|[Hd|Hd]].
    + destruct (hypot_infinite _ (Y p - Y op)%float (or_introl Hd)) as [Hr|Hr]; auto.
      left. apply Prim2SF_inj. exact Hr.
    + right. apply hypot_NaN. auto.
    + destruct (hypot_infinite (X p - X op)%float _ (or_intror Hd)) as [Hr|Hr]; auto.
      left. apply Prim2SF_inj. exact Hr.
    + right. apply hypot_NaN. auto.
  - rewrite !IsNaN_Prim2SF. apply hypot_NaN.
Qed.
